(** * playwright-sta: the Mystapp test helpers, embedded and verified

    A shallow embedding of the pure and the scheduling logic of the suite:
    the stress-login worker pool and its percentile report
    (tests/mystapp/stress-login.spec.ts), the offline aggregator
    (scripts/mystapp-perf-summary.mjs), the credential resolver
    (tests/mystapp/helpers.ts), the date conversion and the grid polling
    loop (tests/mystapp/invoices.spec.ts) and the redaction functions of the
    network recorder (tests/mystapp/netlog.ts).

    Part I holds the definitions, Part II the lemmas and theorems. *)

From Stdlib Require Import ZArith QArith List Lia String Ascii Bool DecimalString.
From Stdlib Require Import DecimalFacts DecimalNat.
From Stdlib Require SpecFloat.
From stdpp Require Import base list sorting.

Open Scope Z_scope.

(* ===================================================================== *)
(** * Part I: definitions                                                 *)
(* ===================================================================== *)

(** ** JavaScript strings, regular expressions and objects *)

Module Js.

(** A string is the sequence of its UTF-16 code units. *)
Abbreviation jsstring := (list N).

(** A string literal of the source (ASCII). *)
Definition js (s : string) : jsstring :=
  (fun a => N_of_ascii a) <$> list_ascii_of_string s.

(** WhiteSpace and LineTerminator of ECMAScript: what [trim] strips and
    what [\s] matches. *)
Definition is_white_space (c : N) : bool :=
  ((9 <=? c) && (c <=? 13) || (c =? 32) || (c =? 160) || (c =? 5760)
   || (8192 <=? c) && (c <=? 8202) || (c =? 8232) || (c =? 8233)
   || (c =? 8239) || (c =? 8287) || (c =? 12288) || (c =? 65279))%N.

Fixpoint trimStart (s : jsstring) : jsstring :=
  match s with
  | c :: s' => if is_white_space c then trimStart s' else s
  | [] => []
  end.

Definition trimEnd (s : jsstring) : jsstring := reverse (trimStart (reverse s)).

(** [s.trim()] *)
Definition trim (s : jsstring) : jsstring := trimEnd (trimStart s).

(** [s.split(sep)] for a separator of one code unit. *)
Fixpoint split (sep : N) (s : jsstring) : list jsstring :=
  match s with
  | [] => [[]]
  | c :: s' =>
      if (c =? sep)%N then [] :: split sep s'
      else match split sep s' with
           | piece :: pieces => (c :: piece) :: pieces
           | [] => [[c]]
           end
  end.

(** [s.padStart(targetLength, fill)] for a filler of one code unit. *)
Definition padStart (targetLength : nat) (fill : N) (s : jsstring) : jsstring :=
  replicate (targetLength - length s) fill ++ s.

(** [String(n)] for a non-negative integer. *)
Definition String_of_nat (n : nat) : jsstring :=
  js (DecimalString.NilZero.string_of_uint (Nat.to_uint n)).

(** [Boolean(s)], the truthiness of a string. *)
Definition truthy (s : jsstring) : bool :=
  match s with [] => false | _ => true end.

(** [s || undefined] *)
Definition or_undefined (s : jsstring) : option jsstring :=
  if truthy s then Some s else None.

(** *** Regular expressions, matched by derivatives *)

Inductive regex : Type :=
| Never
| Eps
| Chr (p : N -> bool)
| Seq (r1 r2 : regex)
| Alt (r1 r2 : regex)
| Star (r : regex).

Fixpoint nullable (r : regex) : bool :=
  match r with
  | Never => false
  | Eps => true
  | Chr _ => false
  | Seq r1 r2 => nullable r1 && nullable r2
  | Alt r1 r2 => nullable r1 || nullable r2
  | Star _ => true
  end.

Fixpoint deriv (c : N) (r : regex) : regex :=
  match r with
  | Never => Never
  | Eps => Never
  | Chr p => if p c then Eps else Never
  | Seq r1 r2 =>
      if nullable r1 then Alt (Seq (deriv c r1) r2) (deriv c r2)
      else Seq (deriv c r1) r2
  | Alt r1 r2 => Alt (deriv c r1) (deriv c r2)
  | Star r1 => Seq (deriv c r1) (Star r1)
  end.

(** The whole of [s] matches [r]. *)
Definition matches (r : regex) (s : jsstring) : bool :=
  nullable (fold_left (fun r c => deriv c r) s r).

Definition any : regex := Chr (fun _ => true).
Definition opt (r : regex) : regex := Alt Eps r.
Definition plus (r : regex) : regex := Seq r (Star r).

(** [/r/.test(s)]: [r] matches somewhere in [s]. *)
Definition test (r : regex) (s : jsstring) : bool :=
  matches (Seq (Star any) (Seq r (Star any))) s.

(** [/^r/.test(s)] *)
Definition test_start (r : regex) (s : jsstring) : bool :=
  matches (Seq r (Star any)) s.

(** [/^r$/.test(s)] *)
Definition test_whole (r : regex) (s : jsstring) : bool := matches r s.

(** Canonicalize of a regular expression with the [i] flag and without the
    [u] flag, as far as a pattern of ASCII characters can tell: a code unit
    from 128 on is never mapped to one below 128. *)
Definition canonicalize (c : N) : N :=
  if ((97 <=? c) && (c <=? 122))%N then (c - 32)%N else c.

(** One pattern character under the [i] flag. *)
Definition chr_i (a : ascii) : regex :=
  Chr (fun c => (canonicalize c =? canonicalize (N_of_ascii a))%N).

(** A literal run of pattern characters under the [i] flag. *)
Fixpoint lit_i (s : string) : regex :=
  match s with
  | EmptyString => Eps
  | String a EmptyString => chr_i a
  | String a s' => Seq (chr_i a) (lit_i s')
  end.

(** [[0-9]] *)
Definition digit : regex := Chr (fun c => ((48 <=? c) && (c <=? 57))%N).

(** [\s] *)
Definition space : regex := Chr is_white_space.

(** *** Objects: the own enumerable string-keyed properties, in the order
    of [Object.entries] (integer-like keys first, ascending, then the other
    keys as inserted).  The keys of an object are pairwise distinct; a loop
    that fills a fresh object from the entries of another, in their order,
    keeps that order. *)

Abbreviation object V := (list (jsstring * V)).

Definition proto : jsstring := js "__proto__".

Fixpoint assoc_set {V} (o : object V) (k : jsstring) (x : V) : object V :=
  match o with
  | [] => [(k, x)]
  | (k', y) :: o' =>
      if bool_decide (k' = k) then (k, x) :: o' else (k', y) :: assoc_set o' k x
  end.

(** [out[k] = x] on an object made by the literal [{}]: the key
    [__proto__] reaches the setter inherited from [Object.prototype] and
    makes no own property; any other key is updated in place or added last. *)
Definition obj_set {V} (out : object V) (k : jsstring) (x : V) : object V :=
  if bool_decide (k = proto) then out else assoc_set out k x.

(** [o[k]] on own properties. *)
Fixpoint obj_get {V} (o : object V) (k : jsstring) : option V :=
  match o with
  | [] => None
  | (k', y) :: o' => if bool_decide (k' = k) then Some y else obj_get o' k
  end.

(** The loop that both redaction functions run over [Object.entries(o)]:
    [for (const [k, v] of ...) { if (skip(k)) continue; out[k] = g(k, v); }] *)
Definition fill_loop {V W} (skip : jsstring -> bool) (g : jsstring -> V -> W)
    (l : object V) (out : object W) : object W :=
  fold_left (fun out '(k, v) => if skip k then out else obj_set out k (g k v)) l out.

(** What that loop stores for one entry, if anything. *)
Definition fill_entry {V W} (skip : jsstring -> bool) (g : jsstring -> V -> W)
    (kv : jsstring * V) : option (jsstring * W) :=
  if skip kv.1 || bool_decide (kv.1 = proto) then None
  else Some (kv.1, g kv.1 kv.2).

(** A decimal digit, as [[0-9]] tests it. *)
Definition is_digit (c : N) : bool := ((48 <=? c) && (c <=? 57))%N.

(** A regular expression that matches nothing, whatever follows: the
    state of the matcher from which no input leads to acceptance. *)
Fixpoint matches_nothing (r : regex) : bool :=
  match r with
  | Never => true
  | Eps => false
  | Chr _ => false
  | Seq r1 r2 => matches_nothing r1 || matches_nothing r2
  | Alt r1 r2 => matches_nothing r1 && matches_nothing r2
  | Star _ => false
  end.

(** A JavaScript number, as [Number(...)] gives one: a finite double, which
    is a rational, an infinity, or NaN. *)
Inductive number : Type :=
| NaN
| NegInfinity
| Finite (q : Q)
| PosInfinity.

(** [Math.max(1, x)] *)
Definition Math_max_1 (x : number) : number :=
  match x with
  | NaN => NaN
  | NegInfinity => Finite 1
  | Finite q => if Qle_bool q 1 then Finite 1 else Finite q
  | PosInfinity => PosInfinity
  end.

(** The number of elements of [Array.from({ length: x }, f)]: the length
    is truncated, NaN and what is negative give no element, and 2^32
    elements or more are a RangeError, here [None]. *)
Definition array_like_length (x : number) : option nat :=
  match x with
  | NaN | NegInfinity => Some 0%nat
  | Finite q =>
      let len := Z.max 0 (Z.quot (Qnum q) (Z.pos (Qden q))) in
      if len <? 4294967296 then Some (Z.to_nat len) else None
  | PosInfinity => None
  end.

(** [s.startsWith(p)] *)
Fixpoint startsWith (s p : jsstring) : bool :=
  match p, s with
  | [], _ => true
  | c :: p', d :: s' => (c =? d)%N && startsWith s' p'
  | _ :: _, [] => false
  end.

(** [s.includes(p)] *)
Fixpoint includes (s p : jsstring) : bool :=
  startsWith s p
  || match s with
     | [] => false
     | _ :: s' => includes s' p
     end.

(** [toLowerCase] restricted to strings of ASCII code units, where it
    shifts the letters [A-Z] and leaves the rest. *)
Definition toLowerCase_ascii (s : jsstring) : jsstring :=
  (fun c => if ((65 <=? c) && (c <=? 90))%N then (c + 32)%N else c) <$> s.

End Js.

(** ** The network recorder's redaction (tests/mystapp/netlog.ts) *)

Module NetLog.

Import Js.

Definition redacted : jsstring := js "[redacted]".
Definition truncated : jsstring := js "[truncated]".

(** The header names of [blocked]. *)
Definition blocked : list jsstring :=
  [js "authorization"; js "cookie"; js "set-cookie"; js "proxy-authorization";
   js "x-api-key"].

Section Headers.

(** [String.prototype.toLowerCase], whose Unicode case tables are not part
    of the repository. *)
Variable toLowerCase : jsstring -> jsstring.

(** [redactHeaders(headers)] *)
Definition redactHeaders (headers : object jsstring) : object jsstring :=
  fold_left
    (fun out '(k, v) =>
       let key := toLowerCase k in
       if bool_decide (key ∈ blocked) then out else obj_set out k v)
    headers [].

End Headers.

(** A JSON-like value.  A number is carried along and never inspected. *)
Unset Elimination Schemes.
Inductive json : Type :=
| JNull
| JUndefined
| JBool (b : bool)
| JNumber (n : Q)
| JString (s : jsstring)
| JArray (items : list json)
| JObject (entries : list (jsstring * json)).
Set Elimination Schemes.

(** The induction principle of [json], through arrays and objects. *)
Section JsonInduction.

Variable P : json -> Prop.
Hypothesis P_null : P JNull.
Hypothesis P_undefined : P JUndefined.
Hypothesis P_bool : forall b, P (JBool b).
Hypothesis P_number : forall n, P (JNumber n).
Hypothesis P_string : forall s, P (JString s).
Hypothesis P_array : forall items, Forall P items -> P (JArray items).
Hypothesis P_object : forall entries, Forall (fun kv => P kv.2) entries -> P (JObject entries).

Fixpoint json_ind (value : json) : P value :=
  match value with
  | JNull => P_null
  | JUndefined => P_undefined
  | JBool b => P_bool b
  | JNumber n => P_number n
  | JString s => P_string s
  | JArray items =>
      P_array items
        ((fix all (l : list json) : Forall P l :=
            match l with
            | [] => List.Forall_nil P
            | v :: l' => List.Forall_cons P v l' (json_ind v) (all l')
            end) items)
  | JObject entries =>
      P_object entries
        ((fix all (l : list (jsstring * json)) : Forall (fun kv => P kv.2) l :=
            match l with
            | [] => List.Forall_nil _
            | kv :: l' => List.Forall_cons _ kv l' (json_ind kv.2) (all l')
            end) entries)
  end.

End JsonInduction.

(** [/^bearer\s+/i] *)
Definition bearer_re : regex := Seq (lit_i "bearer") (plus space).

(** [/(pass(word)?|token|secret|api[-_]?key|authorization|cookie)/i] *)
Definition sensitive_key_re : regex :=
  Alt (Seq (lit_i "pass") (opt (lit_i "word")))
 (Alt (lit_i "token")
 (Alt (lit_i "secret")
 (Alt (Seq (lit_i "api")
        (Seq (opt (Chr (fun c => ((c =? 45) || (c =? 95))%N))) (lit_i "key")))
 (Alt (lit_i "authorization")
      (lit_i "cookie"))))).

Definition is_bearer (s : jsstring) : bool := test_start bearer_re s.
Definition is_sensitive_key (k : jsstring) : bool := test sensitive_key_re k.

(** [redactJson(value, depth)].  The two inner loops are
    [value.slice(0, 50).map((v) => redactJson(v, depth + 1))] and the
    [for (const [k, v] of Object.entries(obj))] loop that fills [out]. *)
Fixpoint redactJson (value : json) (depth : Z) : json :=
  if 6 <? depth then JString truncated
  else
    match value with
    | JNull | JUndefined => value
    | JString s => if is_bearer s then JString redacted else value
    | JBool _ | JNumber _ => value
    | JArray items =>
        JArray
          ((fix slice_map (n : nat) (l : list json) {struct l} : list json :=
              match n, l with
              | S n', v :: l' => redactJson v (depth + 1) :: slice_map n' l'
              | _, _ => []
              end) 50%nat items)
    | JObject entries =>
        JObject
          ((fix fill (l : list (jsstring * json)) (out : list (jsstring * json)) :=
              match l with
              | [] => out
              | (k, v) :: l' =>
                  if is_sensitive_key k
                  then fill l' (obj_set out k (JString redacted))
                  else fill l' (obj_set out k (redactJson v (depth + 1)))
              end) entries [])
    end.

(** What the loop over an object's entries stores under key [k]. *)
Definition redact_entry (depth : Z) (k : jsstring) (v : json) : json :=
  if is_sensitive_key k then JString redacted else redactJson v (depth + 1).

(** The keys of every object are pairwise distinct, as they are in
    JavaScript. *)
Fixpoint wf_json (value : json) : Prop :=
  match value with
  | JArray items =>
      (fix all (l : list json) : Prop :=
         match l with [] => True | v :: l' => wf_json v /\ all l' end) items
  | JObject entries =>
      NoDup (entries.*1)
      /\ (fix all (l : list (jsstring * json)) : Prop :=
            match l with [] => True | (_, v) :: l' => wf_json v /\ all l' end) entries
  | _ => True
  end.

(** A step into a value: a property of an object or an element of an
    array. *)
Inductive selector : Type :=
| Key (k : jsstring)
| Idx (i : nat).

(** [value[s1][s2]...], [None] where a step finds nothing. *)
Fixpoint at_path (value : json) (path : list selector) : option json :=
  match path with
  | [] => Some value
  | Key k :: path' =>
      match value with
      | JObject entries =>
          match obj_get entries k with
          | Some v => at_path v path'
          | None => None
          end
      | _ => None
      end
  | Idx i :: path' =>
      match value with
      | JArray items =>
          match items !! i with
          | Some v => at_path v path'
          | None => None
          end
      | _ => None
      end
  end.

(** A step that redaction keeps: a key that is neither sensitive nor
    [__proto__], an index below 50. *)
Definition kept_selector (s : selector) : Prop :=
  match s with
  | Key k => is_sensitive_key k = false /\ k <> proto
  | Idx i => (i < 50)%nat
  end.

(** The marker that [clipText] appends, as the file has it: the code units
    U+00E2, U+20AC and U+00A6, then [[clipped]]; twelve code units. *)
Definition clip_marker : jsstring := [226; 8364; 166]%N ++ js "[clipped]".

(** [clipText(text, maxChars)] *)
Definition clipText (text : jsstring) (maxChars : Z) : jsstring :=
  if Z.of_nat (length text) <=? maxChars then text
  else take (Z.to_nat (Z.max 0 (maxChars - 12))) text ++ clip_marker.

End NetLog.

(** ** The recorder, [installNetworkCapture] (tests/mystapp/netlog.ts)

    The three handlers run on the events of the page, one at a time.  The
    handler of a response stops at [await res.text()] and goes on when the
    text is there, other events in between.  An entry is pushed once and
    then updated in place, through the reference that [byRequest] keeps:
    here, its index in [entries]. *)

Module Recorder.

Import Js NetLog.

Record NetworkCaptureOptions : Type := {
  captureBodies : option bool;
  maxBodyChars : option Z;
  (** a regular expression without the flags [g] and [y], as its [test] *)
  urlIncludeRegex : option (jsstring -> bool)
}.

(** What the handlers read of a [Request]; [request] is its identity. *)
Record Request : Type := {
  request : nat;
  req_resourceType : jsstring;
  req_method : jsstring;
  req_url : jsstring;
  req_headers : object jsstring;
  req_postData : option jsstring
}.

(** What the handlers read of a [Response]. *)
Record Response : Type := {
  res_request : nat;
  res_status : Z;
  res_headers : object jsstring
}.

Record NetworkEntry : Type := {
  id : nat;
  resourceType : jsstring;
  method : jsstring;
  url : jsstring;
  requestHeaders : object jsstring;
  requestPostData : option json;
  requestStartEpochMs : Q;
  requestStartMonotonicMs : Q;
  responseStatus : option Z;
  responseHeaders : option (object jsstring);
  responseBody : option json;
  failure : option jsstring;
  durationMs : option Z
}.

(** The state of one capture: [nextId], [entries], [byRequest], and the
    entries whose response handler waits for the text of the body. *)
Record capture : Type := {
  nextId : nat;
  entries : list NetworkEntry;
  byRequest : list (nat * nat);
  reading : list nat
}.

Inductive event : Type :=
| OnRequest (req : Request) (epoch now : Q)
| OnResponse (res : Response) (now : Q)
| OnText (n : nat) (bodyText : option jsstring)
| OnRequestFailed (req : nat) (errorText : option jsstring) (now : Q).

(** [byRequest.get(req)] *)
Fixpoint map_get (m : list (nat * nat)) (req : nat) : option nat :=
  match m with
  | [] => None
  | (r, i) :: m' => if Nat.eqb r req then Some i else map_get m' req
  end.

(** [byRequest.set(req, entry)] *)
Definition map_set (m : list (nat * nat)) (req i : nat) : list (nat * nat) :=
  (req, i) :: m.

Section Capture.

Variable toLowerCase : jsstring -> jsstring.

(** [JSON.parse], [None] where it throws. *)
Variable parse : jsstring -> option json.

(** [Math.round(now - start)], on doubles. *)
Variable round_elapsed : Q -> Q -> Z.

Variable options : option NetworkCaptureOptions.

Definition capture_bodies : bool :=
  match options with
  | Some o => default false (captureBodies o)
  | None => false
  end.

Definition max_body_chars : Z :=
  match options with
  | Some o => default 50000 (maxBodyChars o)
  | None => 50000
  end.

Definition shouldInclude (req : Request) : bool :=
  let rt := req_resourceType req in
  if negb (bool_decide (rt = js "xhr")) && negb (bool_decide (rt = js "fetch")) then false
  else
    match options with
    | Some {| urlIncludeRegex := Some re |} => re (req_url req)
    | _ => true
    end.

(** The value stored for the post data of a request. *)
Definition post_data_value (postData : jsstring) : json :=
  match parse postData with
  | Some maybeJson => redactJson maybeJson 0
  | None => JString (clipText postData max_body_chars)
  end.

Definition onRequest (req : Request) (epoch now : Q) (c : capture) : capture :=
  if negb (shouldInclude req) then c
  else
    let entry :=
      {| id := nextId c;
         resourceType := req_resourceType req;
         method := req_method req;
         url := req_url req;
         requestHeaders := redactHeaders toLowerCase (req_headers req);
         requestPostData :=
           match req_postData req with
           | Some ((_ :: _) as postData) => Some (post_data_value postData)
           | _ => None
           end;
         requestStartEpochMs := epoch;
         requestStartMonotonicMs := now;
         responseStatus := None;
         responseHeaders := None;
         responseBody := None;
         failure := None;
         durationMs := None |} in
    {| nextId := S (nextId c);
       entries := entries c ++ [entry];
       byRequest := map_set (byRequest c) (request req) (length (entries c));
       reading := reading c |}.

(** [contentType.includes('application/json') || ...], on the redacted
    headers of the response. *)
Definition looksTexty (headers : object jsstring) : bool :=
  let contentType :=
    toLowerCase
      (match obj_get headers (js "content-type") with
       | Some v => v
       | None => default [] (obj_get headers (js "Content-Type"))
       end) in
  includes contentType (js "application/json")
  || startsWith contentType (js "text/")
  || includes contentType (js "application/problem+json").

(** The handler of a response, up to [await res.text()]. *)
Definition onResponse (res : Response) (now : Q) (c : capture) : capture :=
  match map_get (byRequest c) (res_request res) with
  | None => c
  | Some i =>
      match entries c !! i with
      | None => c
      | Some entry =>
          let headers := redactHeaders toLowerCase (res_headers res) in
          let entry' :=
            {| id := id entry;
               resourceType := resourceType entry;
               method := method entry;
               url := url entry;
               requestHeaders := requestHeaders entry;
               requestPostData := requestPostData entry;
               requestStartEpochMs := requestStartEpochMs entry;
               requestStartMonotonicMs := requestStartMonotonicMs entry;
               responseStatus := Some (res_status res);
               responseHeaders := Some headers;
               responseBody := responseBody entry;
               failure := failure entry;
               durationMs := Some (round_elapsed now (requestStartMonotonicMs entry)) |} in
          {| nextId := nextId c;
             entries := <[i := entry']> (entries c);
             byRequest := byRequest c;
             reading :=
               if capture_bodies && looksTexty headers
               then reading c ++ [i] else reading c |}
      end
  end.

(** The value stored for the body of a response. *)
Definition response_body_value (bodyText : jsstring) : json :=
  let clipped := clipText bodyText max_body_chars in
  match parse clipped with
  | Some parsed => redactJson parsed 0
  | None => JString clipped
  end.

(** The rest of the handler of a response: [res.text()] has given
    [bodyText], or has thrown. *)
Definition onText (n : nat) (bodyText : option jsstring) (c : capture) : option capture :=
  match reading c !! n with
  | None => None
  | Some i =>
      match entries c !! i with
      | None => None
      | Some entry =>
          let entry' :=
            match bodyText with
            | None => entry
            | Some t =>
                {| id := id entry;
                   resourceType := resourceType entry;
                   method := method entry;
                   url := url entry;
                   requestHeaders := requestHeaders entry;
                   requestPostData := requestPostData entry;
                   requestStartEpochMs := requestStartEpochMs entry;
                   requestStartMonotonicMs := requestStartMonotonicMs entry;
                   responseStatus := responseStatus entry;
                   responseHeaders := responseHeaders entry;
                   responseBody := Some (response_body_value t);
                   failure := failure entry;
                   durationMs := durationMs entry |}
            end in
          Some {| nextId := nextId c;
                  entries := <[i := entry']> (entries c);
                  byRequest := byRequest c;
                  reading := delete n (reading c) |}
      end
  end.

Definition onRequestFailed (req : nat) (errorText : option jsstring) (now : Q)
    (c : capture) : capture :=
  match map_get (byRequest c) req with
  | None => c
  | Some i =>
      match entries c !! i with
      | None => c
      | Some entry =>
          let entry' :=
            {| id := id entry;
               resourceType := resourceType entry;
               method := method entry;
               url := url entry;
               requestHeaders := requestHeaders entry;
               requestPostData := requestPostData entry;
               requestStartEpochMs := requestStartEpochMs entry;
               requestStartMonotonicMs := requestStartMonotonicMs entry;
               responseStatus := responseStatus entry;
               responseHeaders := responseHeaders entry;
               responseBody := responseBody entry;
               failure := errorText;
               durationMs := Some (round_elapsed now (requestStartMonotonicMs entry)) |} in
          {| nextId := nextId c;
             entries := <[i := entry']> (entries c);
             byRequest := byRequest c;
             reading := reading c |}
      end
  end.

(** [let nextId = 1; const entries = []; const byRequest = new Map()] *)
Definition installed : capture :=
  {| nextId := 1; entries := []; byRequest := []; reading := [] |}.

(** One event; [None] for a text that no handler waits for. *)
Definition handle (e : event) (c : capture) : option capture :=
  match e with
  | OnRequest req epoch now => Some (onRequest req epoch now c)
  | OnResponse res now => Some (onResponse res now c)
  | OnText n bodyText => onText n bodyText c
  | OnRequestFailed req errorText now => Some (onRequestFailed req errorText now c)
  end.

Fixpoint capture_run (events : list event) (c : capture) : option capture :=
  match events with
  | [] => Some c
  | e :: events' =>
      match handle e c with
      | Some c' => capture_run events' c'
      | None => None
      end
  end.

End Capture.

(** A body of the log in which every sensitive key has lost its value. *)
Definition body_is_redacted (body : json) : Prop :=
  forall path es k x,
    at_path body path = Some (JObject es) ->
    (k, x) ∈ es -> is_sensitive_key k = true -> x = JString redacted.

(** Headers of the log with none of the blocked names. *)
Definition headers_are_redacted (toLowerCase : jsstring -> jsstring)
    (headers : object jsstring) : Prop :=
  forall k v, (k, v) ∈ headers -> toLowerCase k ∉ blocked.

(** What the log must not hold, entry by entry: a request that is neither
    xhr nor fetch, a blocked header, a value under a sensitive key. *)
Definition entry_is_redacted (toLowerCase : jsstring -> jsstring)
    (e : NetworkEntry) : Prop :=
  (resourceType e = js "xhr" \/ resourceType e = js "fetch")
  /\ headers_are_redacted toLowerCase (requestHeaders e)
  /\ (forall h, responseHeaders e = Some h -> headers_are_redacted toLowerCase h)
  /\ (forall b, requestPostData e = Some b -> body_is_redacted b)
  /\ (forall b, responseBody e = Some b -> body_is_redacted b).

(** The request that an event adds to the log, if it adds one. *)
Definition logged (options : option NetworkCaptureOptions) (e : event)
    : option (jsstring * jsstring * jsstring) :=
  match e with
  | OnRequest req _ _ =>
      if shouldInclude options req
      then Some (req_resourceType req, req_method req, req_url req)
      else None
  | _ => None
  end.

End Recorder.

(** A capture of a login: the request with its body, an image that is not
    recorded, the response, and the text of its body. *)
Module RecorderExample.

Import Js NetLog Recorder.

Definition quote : jsstring := [34%N].

Definition member (k v : jsstring) : jsstring :=
  js "{" ++ quote ++ k ++ quote ++ js ":" ++ quote ++ v ++ quote ++ js "}".

(** A parser for the two bodies of the example. *)
Definition parse (text : jsstring) : option json :=
  if bool_decide (text = member (js "password") (js "hunter2"))
  then Some (JObject [(js "password", JString (js "hunter2"))])
  else if bool_decide (text = member (js "token") (js "abc"))
  then Some (JObject [(js "token", JString (js "abc"))])
  else None.

Definition round_elapsed (now start : Q) : Z :=
  let q := (now - start + (1 # 2))%Q in (Qnum q / Z.pos (Qden q))%Z.

Definition options : option NetworkCaptureOptions :=
  Some {| captureBodies := Some true; maxBodyChars := None; urlIncludeRegex := None |}.

Definition login : Request :=
  {| request := 0;
     req_resourceType := js "fetch";
     req_method := js "POST";
     req_url := js "https://app.test/api/login";
     req_headers := [(js "Authorization", js "Bearer abc");
                     (js "content-type", js "application/json")];
     req_postData := Some (member (js "password") (js "hunter2")) |}.

Definition logo : Request :=
  {| request := 1;
     req_resourceType := js "image";
     req_method := js "GET";
     req_url := js "https://app.test/logo.png";
     req_headers := [];
     req_postData := None |}.

Definition answer : Response :=
  {| res_request := 0;
     res_status := 200;
     res_headers := [(js "content-type", js "application/json");
                     (js "set-cookie", js "sid=1")] |}.

Definition traffic : list event :=
  [OnRequest login 1700000000000 10;
   OnRequest logo 1700000000001 11;
   OnResponse answer 52;
   OnText 0 (Some (member (js "token") (js "abc")))].

Definition run : option capture :=
  capture_run toLowerCase_ascii parse round_elapsed options traffic installed.

End RecorderExample.

(** ** The credential resolver (tests/mystapp/helpers.ts) *)

Module Helpers.

Import Js.

(** The environment variables that [requireMystappUsers] reads; [None] is
    a variable that is not set. *)
Record ProcessEnv : Type := {
  MYSTAPP_PASSWORD : option jsstring;
  MYSTAPP_USERS : option jsstring;
  MYSTAPP_USER_PREFIX : option jsstring;
  MYSTAPP_USER : option jsstring;
  MYSTAPP_USERNAME : option jsstring;
  MYSTAPP_REUSE_SINGLE_USER : option jsstring
}.

(** [MystappLocalConfig] of localConfig.ts. *)
Record MystappLocalConfig : Type := {
  baseURL : option jsstring;
  user : option jsstring;
  password : option jsstring;
  users : option (list jsstring);
  userPrefix : option jsstring
}.

(** [MystappUser] *)
Record MystappUser : Type := { username : jsstring; user_password : jsstring }.

(** The errors that [requireMystappUsers] throws, in source order, and the
    RangeError of [Array.from]. *)
Inductive config_error : Type :=
| MissingPasswordForUsers
| UserListTooShort (have : nat) (required : Z)
| MissingPasswordForSingleUser
| SingleUserNotReusable
| MissingCredentials
| InvalidArrayLength.

Inductive result (A : Type) : Type :=
| Ok (a : A)
| Throw (e : config_error).
Arguments Ok {A} a.
Arguments Throw {A} e.

(** [a ?? b] *)
Definition nullish {A} (a b : option A) : option A :=
  match a with Some _ => a | None => b end.

(** [local?.field] *)
Definition opt_field {A} (local : option MystappLocalConfig)
    (field : MystappLocalConfig -> option A) : option A :=
  match local with Some c => field c | None => None end.

(** [(a ?? b ?? '').trim() || undefined] *)
Definition setting (a : option jsstring) : option jsstring :=
  or_undefined (trim (default [] a)).

Section Resolver.

Variable env : ProcessEnv.
Variable local : option MystappLocalConfig.   (* [readMystappLocalConfig()] *)

Definition resolved_password : option jsstring :=
  setting (nullish (MYSTAPP_PASSWORD env) (opt_field local password)).

Definition usersCsv : option jsstring := setting (MYSTAPP_USERS env).

Definition resolved_userPrefix : option jsstring :=
  setting (nullish (MYSTAPP_USER_PREFIX env) (opt_field local userPrefix)).

Definition singleUser : option jsstring :=
  setting (nullish (MYSTAPP_USER env)
             (nullish (MYSTAPP_USERNAME env) (opt_field local user))).

Definition localUsers : option (list jsstring) := opt_field local users.

(** [usersCsv ? usersCsv.split(',').map(trim).filter(Boolean)
             : (localUsers ?? []).map((u) => String(u).trim()).filter(Boolean)] *)
Definition explicitUsernames : list jsstring :=
  match usersCsv with
  | Some csv => List.filter truthy (trim <$> split 44 csv)
  | None => List.filter truthy (trim <$> default [] localUsers)
  end.

(** [(process.env.MYSTAPP_REUSE_SINGLE_USER ?? '').trim() === '1'] *)
Definition reuseSingleUser : bool :=
  bool_decide (trim (default [] (MYSTAPP_REUSE_SINGLE_USER env)) = js "1").

(** [arr.slice(0, count)] for an integer [count]. *)
Definition slice0 {A} (arr : list A) (count : Z) : list A :=
  if count <? 0 then take (Z.to_nat (Z.max (Z.of_nat (length arr) + count) 0)) arr
  else take (Z.to_nat count) arr.

(** [Array.from({ length: count }, (_, i) => f(i))] for an integer
    [count]: a negative length is an empty array, and a length of 2^32 or
    more is a RangeError, here [None]. *)
Definition array_from {A} (count : Z) (f : nat -> A) : option (list A) :=
  if count <? 4294967296 then Some (f <$> seq 0 (Z.to_nat count)) else None.

(** What a function returns that ends in [return Array.from(...)]. *)
Definition return_array {A} (made : option (list A)) : result (list A) :=
  match made with
  | Some arr => Ok arr
  | None => Throw InvalidArrayLength
  end.

(** The user name generated for index [i]:
    [`${userPrefix}${String(i + 1).padStart(2, '0')}`] *)
Definition generated_username (userPrefix : jsstring) (i : nat) : jsstring :=
  userPrefix ++ padStart 2 48 (String_of_nat (i + 1)).

(** [requireMystappUsers(count)] for an integer [count] and a local
    configuration whose fields have their declared types. *)
Definition requireMystappUsers (count : Z) : result (list MystappUser) :=
  if (0 <? length explicitUsernames)%nat then
    match resolved_password with
    | None => Throw MissingPasswordForUsers
    | Some pw =>
        if Z.of_nat (length explicitUsernames) <? count
        then Throw (UserListTooShort (length explicitUsernames) count)
        else Ok ((fun u => {| username := u; user_password := pw |})
                   <$> slice0 explicitUsernames count)
    end
  else
    match singleUser with
    | Some single =>
        match resolved_password with
        | None => Throw MissingPasswordForSingleUser
        | Some pw =>
            if negb (count =? 1) then
              if negb reuseSingleUser then Throw SingleUserNotReusable
              else return_array
                     (array_from count
                        (fun _ => {| username := single; user_password := pw |}))
            else Ok [{| username := single; user_password := pw |}]
        end
    | None =>
        match resolved_userPrefix, resolved_password with
        | Some pre, Some pw =>
            return_array
              (array_from count
                 (fun i => {| username := generated_username pre i;
                              user_password := pw |}))
        | _, _ => Throw MissingCredentials
        end
    end.

End Resolver.

(** [hasMystappConfig()], the guard that the tests use to skip;
    [MYSTAPP_BASE_URL] is the environment variable of that name. *)
Definition hasMystappConfig (MYSTAPP_BASE_URL : option jsstring)
    (env : ProcessEnv) (local : option MystappLocalConfig) : bool :=
  let baseUrl :=
    trim (default (js "https://qa.mystaapp.com")
            (nullish MYSTAPP_BASE_URL (opt_field local baseURL))) in
  let password :=
    trim (default [] (nullish (MYSTAPP_PASSWORD env) (opt_field local password))) in
  let usersCsv := trim (default [] (MYSTAPP_USERS env)) in
  let localUsers :=
    nullish (opt_field local users)
      (match opt_field local user with
       | Some u => if truthy u then Some [u] else None
       | None => None
       end) in
  let singleUser :=
    trim (default [] (nullish (MYSTAPP_USER env) (MYSTAPP_USERNAME env))) in
  let userPrefix :=
    trim (default [] (nullish (MYSTAPP_USER_PREFIX env) (opt_field local userPrefix))) in
  let hasExplicitUsers :=
    (truthy usersCsv || (0 <? length (default [] localUsers))%nat || truthy singleUser)
    && truthy password in
  let hasGeneratedUsers := truthy userPrefix && truthy password in
  let hasCredentials := hasExplicitUsers || hasGeneratedUsers in
  truthy baseUrl && hasCredentials.

(** The file name of [mystappStorageStatePath(index1Based)], the last
    segment of the path: [`user-${String(index1Based).padStart(2, '0')}.json`]. *)
Definition mystappStorageStateFile (index1Based : nat) : jsstring :=
  js "user-" ++ padStart 2 48 (String_of_nat index1Based) ++ js ".json".

(** An environment with nothing set. *)
Definition no_env : ProcessEnv :=
  {| MYSTAPP_PASSWORD := None; MYSTAPP_USERS := None; MYSTAPP_USER_PREFIX := None;
     MYSTAPP_USER := None; MYSTAPP_USERNAME := None;
     MYSTAPP_REUSE_SINGLE_USER := None |}.

End Helpers.

(** ** Dates and the results grid (tests/mystapp/invoices.spec.ts) *)

Module Invoices.

Import Js.

Inductive DateFormat : Type := DD_MM_YYYY | MM_DD_YYYY.

Inductive date_error : Type :=
| InvalidDate          (* not three parts *)
| InvalidYear
| InvalidDayMonth.

(** [/^[0-9]{4}$/] and [/^[0-9]{1,2}$/] *)
Definition year_re : regex := Seq digit (Seq digit (Seq digit digit)).
Definition day_month_re : regex := Seq digit (opt digit).

(** [toIsoDate(raw, format)]; [inr] is a thrown error. *)
Definition toIsoDate (raw : jsstring) (format : DateFormat) : jsstring + date_error :=
  let parts := trim <$> split 47 (trim raw) in
  match parts with
  | [a; b; c] =>
      let dd := match format with DD_MM_YYYY => a | MM_DD_YYYY => b end in
      let mm := match format with DD_MM_YYYY => b | MM_DD_YYYY => a end in
      let yyyy := c in
      if negb (test_whole year_re yyyy) then inr InvalidYear
      else if negb (test_whole day_month_re dd) || negb (test_whole day_month_re mm)
      then inr InvalidDayMonth
      else
        let dd2 := padStart 2 48 dd in
        let mm2 := padStart 2 48 mm in
        inl (yyyy ++ js "-" ++ mm2 ++ js "-" ++ dd2)
  | _ => inr InvalidDate
  end.

(** What [formatDate] reads of a [Date]: [getDate()], [getMonth()] and
    [getFullYear()], the year not negative. *)
Record js_date : Type := {
  getDate : nat;
  getMonth : nat;
  getFullYear : nat
}.

(** [formatDate(d, format)] *)
Definition formatDate (d : js_date) (format : DateFormat) : jsstring :=
  let dd := padStart 2 48 (String_of_nat (getDate d)) in
  let mm := padStart 2 48 (String_of_nat (getMonth d + 1)) in
  let yyyy := String_of_nat (getFullYear d) in
  match format with
  | DD_MM_YYYY => dd ++ js "/" ++ mm ++ js "/" ++ yyyy
  | MM_DD_YYYY => mm ++ js "/" ++ dd ++ js "/" ++ yyyy
  end.


(** [(await readValue()).trim() === value], the test that ends an attempt. *)
Definition read_back_matches (readBack value : jsstring) : bool :=
  bool_decide (trim readBack = value).

(** *** The wait for the results grid

    One turn of the polling loop of [clickSecondRowInvoice] and of
    [clickSecondRowInvoiceAndGetInvoiceValue]: the two row counts, whether
    the text "No record found" is visible, and the milliseconds that
    [Date.now()] advances until the next test of the loop condition (the
    awaited calls and the 250 ms sleep). *)
Record poll : Type := {
  cssCount : nat;
  roleCount : nat;
  emptyVisible : bool;
  elapsed : positive
}.

Definition row_count (p : poll) : nat := Nat.max (cssCount p) (roleCount p).

(** How the loop ends: by [break], or by its condition once the deadline
    has passed. *)
Inductive loop_exit : Type := Broke | Expired.

Record loop_result : Type := {
  sawEmpty : bool;
  exit : loop_exit;
  polls : nat;          (* how many turns were started *)
  ended_at : Z          (* [Date.now()] at the exit, from the start of the wait *)
}.

(** [Date.now() + 45_000] *)
Definition timeout_ms : Z := 45000.

(** [while (Date.now() < deadline) { ... }]: [now] counts from the start of
    the wait, [page i] is what turn [i] observes. *)
Fixpoint poll_loop (fuel : nat) (page : nat -> poll) (i : nat) (now : Z)
    (saw : bool) : option loop_result :=
  if now <? timeout_ms then
    match fuel with
    | O => None
    | S fuel' =>
        let p := page i in
        if (2 <=? row_count p)%nat
        then Some {| sawEmpty := saw; exit := Broke; polls := S i; ended_at := now |}
        else poll_loop fuel' page (S i) (now + Z.pos (elapsed p))
               (if emptyVisible p then true else saw)
    end
  else Some {| sawEmpty := saw; exit := Expired; polls := i; ended_at := now |}.

(** What the wait amounts to. *)
Inductive outcome : Type :=
| ReadyWithData          (* goes on to resolve the second row *)
| NotClicked             (* returns [false] / [{ clicked: false }] *)
| ErrorNoRecord          (* 'No record found after refresh. ...' *)
| ErrorDidNotLoad.       (* 'Invoices grid did not load at least 2 rows.' *)

(** The code after the loop: the counts are read again. *)
Definition after_loop (allowEmpty saw : bool) (cssCountFinal roleCountFinal : nat)
    : outcome :=
  let countFinal := Nat.max cssCountFinal roleCountFinal in
  if (countFinal <? 2)%nat && saw then
    if allowEmpty then NotClicked else ErrorNoRecord
  else if (countFinal <? 2)%nat then ErrorDidNotLoad
  else ReadyWithData.

(** The wait as a whole. *)
Definition grid_wait (allowEmpty : bool) (page : nat -> poll)
    (cssCountFinal roleCountFinal : nat) : option (outcome * loop_result) :=
  match poll_loop (Z.to_nat timeout_ms) page 0 0 false with
  | Some r => Some (after_loop allowEmpty (sawEmpty r) cssCountFinal roleCountFinal, r)
  | None => None
  end.

(** "Confirmed empty": the empty state is taken as final. *)
Definition confirmed_empty (o : outcome) : bool :=
  match o with NotClicked | ErrorNoRecord => true | _ => false end.

(** The polls that the loop made, in order. *)
Definition trace (page : nat -> poll) (r : loop_result) : list poll :=
  page <$> seq 0 (polls r).

End Invoices.

(** ** Dates and the results grid of the service vehicles flow
    (tests/mystapp/service-vehicles.spec.ts) *)

Module ServiceVehicles.

Import Js.

(** [toIsoDate(raw, format)] of this file: the parts are not checked. *)
Definition toIsoDate (raw : jsstring) (format : Invoices.DateFormat)
    : jsstring + Invoices.date_error :=
  let parts := trim <$> split 47 (trim raw) in
  match parts with
  | [a; b; c] =>
      let dd := match format with Invoices.DD_MM_YYYY => a | Invoices.MM_DD_YYYY => b end in
      let mm := match format with Invoices.DD_MM_YYYY => b | Invoices.MM_DD_YYYY => a end in
      let yyyy := c in
      let dd2 := padStart 2 48 dd in
      let mm2 := padStart 2 48 mm in
      inl (yyyy ++ js "-" ++ mm2 ++ js "-" ++ dd2)
  | _ => inr Invoices.InvalidDate
  end.

(** One turn of the loop of [waitForServiceVehiclesGridReady]: the count
    of data rows, whether the row "No record found" is visible, and the
    milliseconds until the next test of the loop condition. *)
Record poll : Type := {
  rowCount : nat;
  emptyVisible : bool;
  elapsed : positive
}.

Inductive status : Type := Data | Empty | Timeout.

(** What the function returns, with the number of turns started and the
    time of the return (from the start of the wait). *)
Record ready : Type := {
  ready_status : status;
  ready_rowCount : nat;
  polls : nat;
  ended_at : Z
}.

(** [while (Date.now() < deadline) { ... }] and the code after the loop;
    [finalCount] is the count that is read after the loop. *)
Fixpoint wait_loop (fuel : nat) (page : nat -> poll) (finalCount : nat)
    (i : nat) (now : Z) (saw : bool) : option ready :=
  if now <? Invoices.timeout_ms then
    match fuel with
    | O => None
    | S fuel' =>
        let p := page i in
        if (2 <=? rowCount p)%nat
        then Some {| ready_status := Data; ready_rowCount := rowCount p;
                     polls := S i; ended_at := now |}
        else wait_loop fuel' page finalCount (S i) (now + Z.pos (elapsed p))
               (if emptyVisible p then true else saw)
    end
  else
    if (2 <=? finalCount)%nat
    then Some {| ready_status := Data; ready_rowCount := finalCount;
                 polls := i; ended_at := now |}
    else Some {| ready_status := if saw then Empty else Timeout;
                 ready_rowCount := finalCount; polls := i; ended_at := now |}.

(** What [waitForServiceVehiclesGridReady] throws: the assertion
    [expect(table).toBeVisible({ timeout: 30_000 })] has failed. *)
Inductive wait_error : Type := TableNotVisible.

(** [waitForServiceVehiclesGridReady(page)]; [tableVisible] tells whether
    the table becomes visible within the 30 s of the [expect], which comes
    first and throws when it does not. *)
Definition waitForServiceVehiclesGridReady (tableVisible : bool)
    (page : nat -> poll) (finalCount : nat) : option (ready + wait_error) :=
  if tableVisible
  then inl <$> wait_loop (Z.to_nat Invoices.timeout_ms) page finalCount 0 0 false
  else Some (inr TableNotVisible).

(** How a wait that began at turn [i] ends: on a poll with two rows or
    more, or on the deadline. *)
Definition ended_on_poll (page : nat -> poll) (i : nat) (r : ready) : Prop :=
  ready_status r = Data /\ (i < polls r)%nat
  /\ ready_rowCount r = rowCount (page (polls r - 1)%nat)
  /\ (2 <= ready_rowCount r)%nat
  /\ ended_at r < Invoices.timeout_ms
  /\ forall j, (i <= j < polls r - 1)%nat -> (rowCount (page j) < 2)%nat.

Definition ended_on_deadline (page : nat -> poll) (finalCount : nat)
    (i : nat) (saw : bool) (r : ready) : Prop :=
  Invoices.timeout_ms <= ended_at r
  /\ ready_rowCount r = finalCount
  /\ (forall j, (i <= j < polls r)%nat -> (rowCount (page j) < 2)%nat)
  /\ (ready_status r = Data <-> (2 <= finalCount)%nat)
  /\ (ready_status r = Empty <->
      (finalCount < 2)%nat
      /\ (saw = true \/ exists j, (i <= j < polls r)%nat
                                  /\ emptyVisible (page j) = true)).

End ServiceVehicles.

(** ** The stress driver's worker pool

    [worker] of stress-login.spec.ts is an async loop.  Between two awaits a
    worker runs without interruption, so the shared state changes in atomic
    segments.  The model splits the loop body in the two segments that touch
    the shared [next] cursor and the shared [timings] array, and lets a
    schedule interleave the segments of all workers in any order. *)

Module Stress.

(** Where a worker stands. *)
Inductive worker_status : Type :=
| AtLoopHead                      (* about to run [const current = next; ...] *)
| AwaitingLogin (current : nat)   (* suspended in [await withDurationMs(...)] *)
| Returned                        (* took [return]: [current >= users.length] *)
| Rejected (current : nat).       (* the login threw: the promise is rejected *)

(** The variables shared by the workers, the workers themselves, and the
    history of the logins started ([worker], [current]). *)
Record pool : Type := Pool {
  next : nat;
  timings : list Z;
  workers : list worker_status;
  logins : list (nat * nat)
}.

(** What a schedule can do next: let worker [w] run the segment at the loop
    head, settle the login of worker [w] after [durationMs], or make the
    login of worker [w] throw. *)
Inductive event : Type :=
| Claim (w : nat)
| Resolve (w : nat) (durationMs : Z)
| Reject (w : nat).

Section Pool.

(** [users.length] *)
Variable users_length : nat.

(** [Promise.all(Array.from({ length: Math.max(1, CONCURRENCY) }, () => worker()))]
    for a [CONCURRENCY] that is a natural number; [launch] below takes any
    number. *)
Definition init (concurrency : nat) : pool :=
  {| next := 0%nat;
     timings := [];
     workers := replicate (Nat.max 1 concurrency) AtLoopHead;
     logins := [] |}.

(** The pool of [n] workers, all at the loop head. *)
Definition pool_of (n : nat) : pool :=
  {| next := 0%nat; timings := []; workers := replicate n AtLoopHead; logins := [] |}.

(** The same for any [CONCURRENCY], which is [Number(...)] of an
    environment variable: no worker at all for NaN, and [None] where
    [Array.from] throws. *)
Definition launch (CONCURRENCY : Js.number) : option pool :=
  pool_of <$> Js.array_like_length (Js.Math_max_1 CONCURRENCY).

(** [const current = next; next += 1; if (current >= users.length) return;
    const user = users[current]; ... await withDurationMs(...)] *)
Definition claim (w : nat) (p : pool) : pool :=
  let current := next p in
  let next' := (next p + 1)%nat in
  if (users_length <=? current)%nat then
    {| next := next'; timings := timings p;
       workers := <[w := Returned]> (workers p);
       logins := logins p |}
  else
    {| next := next'; timings := timings p;
       workers := <[w := AwaitingLogin current]> (workers p);
       logins := logins p ++ [(w, current)] |}.

(** [timings.push(durationMs)], then back to the loop head. *)
Definition resolve (w : nat) (durationMs : Z) (p : pool) : pool :=
  {| next := next p; timings := timings p ++ [durationMs];
     workers := <[w := AtLoopHead]> (workers p);
     logins := logins p |}.

(** The awaited login throws: nothing is pushed, the worker is over. *)
Definition reject (w current : nat) (p : pool) : pool :=
  {| next := next p; timings := timings p;
     workers := <[w := Rejected current]> (workers p);
     logins := logins p |}.

(** One step of the pool; [None] when the event is not enabled. *)
Definition step (e : event) (p : pool) : option pool :=
  match e with
  | Claim w =>
      match workers p !! w with
      | Some AtLoopHead => Some (claim w p)
      | _ => None
      end
  | Resolve w d =>
      match workers p !! w with
      | Some (AwaitingLogin _) => Some (resolve w d p)
      | _ => None
      end
  | Reject w =>
      match workers p !! w with
      | Some (AwaitingLogin current) => Some (reject w current p)
      | _ => None
      end
  end.

(** A schedule is a list of events, run from left to right. *)
Fixpoint run (sched : list event) (p : pool) : option pool :=
  match sched with
  | [] => Some p
  | e :: sched' =>
      match step e p with
      | Some p' => run sched' p'
      | None => None
      end
  end.

End Pool.

Definition is_returned (st : worker_status) : bool :=
  match st with Returned => true | _ => false end.

Definition is_awaiting (st : worker_status) : bool :=
  match st with AwaitingLogin _ => true | _ => false end.

Definition is_rejected (st : worker_status) : bool :=
  match st with Rejected _ => true | _ => false end.

Definition is_at_loop_head (st : worker_status) : bool :=
  match st with AtLoopHead => true | _ => false end.

(** [Promise.all] resolves: every worker has returned. *)
Definition all_returned (p : pool) : bool := forallb is_returned (workers p).

(** No worker can move any more. *)
Definition settled (p : pool) : bool :=
  forallb (fun st => is_returned st || is_rejected st) (workers p).

Definition is_reject (e : event) : bool :=
  match e with Reject _ => true | _ => false end.

(** How many workers satisfy [f]. *)
Fixpoint count (f : worker_status -> bool) (ws : list worker_status) : nat :=
  match ws with
  | [] => 0%nat
  | st :: ws' => ((if f st then 1 else 0) + count f ws')%nat
  end.

(** The number of steps a pool has left at most. *)
Definition fuel_left (users_length : nat) (p : pool) : nat :=
  (count is_at_loop_head (workers p) + 2 * count is_awaiting (workers p)
   + 2 * (users_length - next p))%nat.

(** The duration that an event pushes on [timings], if any. *)
Definition pushed_duration (e : event) : option Z :=
  match e with Resolve _ d => Some d | _ => None end.

End Stress.

(** ** The worker pool of the authentication setup
    (tests/mystapp/auth.setup.ts)

    The same loop over a shared cursor as in the stress scenario; here a
    worker writes the storage state of its user to a file and then pushes a
    result.  The segments that touch what the workers share (the cursor,
    the files, [results]) are interleaved by a schedule. *)

Module AuthSetup.

Import Js.

Inductive worker_status : Type :=
| AtLoopHead
| LoggingIn (current : nat)       (* up to [await context.storageState(...)] *)
| Saved (current : nat)           (* the file is written; [await context.close()] *)
| Returned
| Failed (current : nat) (saved : bool).   (* an awaited call threw *)

(** An element of [results]. *)
Record login_result : Type := {
  index : nat;
  loginMs : Z;
  apiMs : option Z;
  apiStatus : option Z
}.

Record pool : Type := {
  next : nat;
  results : list login_result;
  written : list jsstring;          (* the storage state files written *)
  workers : list worker_status
}.

Inductive event : Type :=
| Claim (w : nat)
| Save (w : nat)
| Push (w : nat) (totalMs : Z) (apiMs apiStatus : option Z)
| Reject (w : nat).

Section Pool.

Variable users_length : nat.

(** [Promise.all(Array.from({ length: Math.max(1, CONCURRENCY) }, () => worker()))]
    for a [CONCURRENCY] that is a natural number; [launch] below takes any
    number. *)
Definition init (concurrency : nat) : pool :=
  {| next := 0%nat; results := []; written := [];
     workers := replicate (Nat.max 1 concurrency) AtLoopHead |}.

(** The pool of [n] workers, all at the loop head. *)
Definition pool_of (n : nat) : pool :=
  {| next := 0%nat; results := []; written := [];
     workers := replicate n AtLoopHead |}.

(** The same for any [CONCURRENCY], which is [Number(...)] of an
    environment variable: no worker at all for NaN, and [None] where
    [Array.from] throws. *)
Definition launch (CONCURRENCY : number) : option pool :=
  pool_of <$> array_like_length (Math_max_1 CONCURRENCY).

(** [const current = next; next += 1; if (current >= users.length) return;] *)
Definition claim (w : nat) (p : pool) : pool :=
  let current := next p in
  {| next := (next p + 1)%nat; results := results p; written := written p;
     workers := <[w := if (users_length <=? current)%nat then Returned
                       else LoggingIn current]> (workers p) |}.

(** [await context.storageState({ path: mystappStorageStatePath(current + 1) })] *)
Definition save (w current : nat) (p : pool) : pool :=
  {| next := next p; results := results p;
     written := written p ++ [Helpers.mystappStorageStateFile (current + 1)];
     workers := <[w := Saved current]> (workers p) |}.

(** [results.push({ index: index1Based, loginMs: metrics.totalMs, ... })] *)
Definition push (w current : nat) (totalMs : Z) (api_ms api_status : option Z)
    (p : pool) : pool :=
  {| next := next p;
     results := results p ++ [{| index := current + 1; loginMs := totalMs;
                                apiMs := api_ms; apiStatus := api_status |}];
     written := written p;
     workers := <[w := AtLoopHead]> (workers p) |}.

Definition fail (w current : nat) (saved : bool) (p : pool) : pool :=
  {| next := next p; results := results p; written := written p;
     workers := <[w := Failed current saved]> (workers p) |}.

(** One step of the pool; [None] when the event is not enabled. *)
Definition step (e : event) (p : pool) : option pool :=
  match e with
  | Claim w =>
      match workers p !! w with
      | Some AtLoopHead => Some (claim w p)
      | _ => None
      end
  | Save w =>
      match workers p !! w with
      | Some (LoggingIn current) => Some (save w current p)
      | _ => None
      end
  | Push w totalMs api_ms api_status =>
      match workers p !! w with
      | Some (Saved current) => Some (push w current totalMs api_ms api_status p)
      | _ => None
      end
  | Reject w =>
      match workers p !! w with
      | Some (LoggingIn current) => Some (fail w current false p)
      | Some (Saved current) => Some (fail w current true p)
      | _ => None
      end
  end.

Fixpoint run (sched : list event) (p : pool) : option pool :=
  match sched with
  | [] => Some p
  | e :: sched' =>
      match step e p with
      | Some p' => run sched' p'
      | None => None
      end
  end.

End Pool.

Definition all_returned (p : pool) : bool :=
  forallb (fun st => match st with Returned => true | _ => false end) (workers p).

(** The 0-based index that a worker holds between its claim and its push. *)
Definition held (st : worker_status) : option nat :=
  match st with
  | LoggingIn c | Saved c | Failed c _ => Some c
  | _ => None
  end.

(** The same, once the file of that index is written. *)
Definition held_saved (st : worker_status) : option nat :=
  match st with
  | Saved c | Failed c true => Some c
  | _ => None
  end.

(** [results.sort((a, b) => a.index - b.index)] *)
Fixpoint insert_by_index (r : login_result) (l : list login_result)
    : list login_result :=
  match l with
  | [] => [r]
  | r' :: l' =>
      if (index r <=? index r')%nat then r :: l else r' :: insert_by_index r l'
  end.

Definition sort_by_index (l : list login_result) : list login_result :=
  foldr insert_by_index [] l.

End AuthSetup.

(** ** Percentiles: the stress scenario and the offline aggregator

    Durations are differences of [Date.now()] readings, hence integers.  A
    percentile level is given in percent (50, 90, 95, 99): for these levels
    and any array length that occurs, the double products
    [timings.length * 0.5], [... * 0.9], [... * 0.95], [... * 0.99] and
    [(p / 100) * sorted.length] have the same floor and ceiling as the exact
    rationals, which is what the integer arithmetic below computes. *)

Module Percentile.

(** [xs.sort((a, b) => a - b)]: the ascending numeric sort. *)
Fixpoint insert_sorted (x : Z) (l : list Z) : list Z :=
  match l with
  | [] => [x]
  | y :: l' => if x <=? y then x :: l else y :: insert_sorted x l'
  end.

Definition sort_ascending (l : list Z) : list Z := foldr insert_sorted [] l.

Fixpoint is_sorted (l : list Z) : bool :=
  match l with
  | x :: (y :: _) as l' => (x <=? y) && is_sorted l'
  | _ => true
  end.

(** [arr[i]] for an integer [i]: [undefined] out of range. *)
Definition index (arr : list Z) (i : Z) : option Z :=
  if i <? 0 then None else arr !! Z.to_nat i.

(** [arr[i] ?? 0] *)
Definition index_or_0 (arr : list Z) (i : Z) : Z := default 0 (index arr i).

(** [Math.floor(timings.length * p)] for [p] = [percent / 100], as the
    exact value.  The code computes on doubles; at the levels it uses
    (0.5, 0.9, 0.95, 0.99) the result is this one, see
    [stress_index_binary64] below. *)
Definition stress_index (percent : Z) (len : Z) : Z := (len * percent) / 100.

(** [timings[Math.floor(timings.length * p)] ?? 0], on the sorted array. *)
Definition stress_select (percent : Z) (sorted : list Z) : Z :=
  index_or_0 sorted (stress_index percent (Z.of_nat (length sorted))).

(** [timings.sort(...); const pNN = timings[Math.floor(...)] ?? 0] *)
Definition stress_percentile (percent : Z) (timings : list Z) : Z :=
  stress_select percent (sort_ascending timings).

(** [timings[timings.length - 1] ?? 0], after the sort. *)
Definition stress_max (timings : list Z) : Z :=
  let sorted := sort_ascending timings in
  index_or_0 sorted (Z.of_nat (length sorted) - 1).

(** [Math.ceil((p / 100) * sorted.length) - 1], as the exact value.  The
    code computes on doubles; at the levels the script asks for (50, 90, 95,
    99) the result is this one, at others (7, 14, 28, ...) it can be one
    more, see [perf_index_binary64] below. *)
Definition perf_index (percent : Z) (len : Z) : Z := (len * percent + 99) / 100 - 1.

(** [Math.min(sorted.length - 1, Math.max(0, idx))] *)
Definition perf_clamp (len : Z) (idx : Z) : Z := Z.min (len - 1) (Z.max 0 idx).

(** [sorted[clamped]] of mystapp-perf-summary.mjs, on the sorted array. *)
Definition perf_select (percent : Z) (sorted : list Z) : option Z :=
  let len := Z.of_nat (length sorted) in
  index sorted (perf_clamp len (perf_index percent len)).

(** [percentile(values, p)] of mystapp-perf-summary.mjs; [None] is
    [undefined]. *)
Definition percentile (values : list Z) (percent : Z) : option Z :=
  if (length values =? 0)%nat then None
  else perf_select percent (sort_ascending values).

(** The figures the stress scenario reports. *)
Record report : Type := Report { p50 : Z; p90 : Z; p95 : Z; p99 : Z; max : Z }.

Definition stress_report (timings : list Z) : report :=
  {| p50 := stress_percentile 50 timings;
     p90 := stress_percentile 90 timings;
     p95 := stress_percentile 95 timings;
     p99 := stress_percentile 99 timings;
     max := stress_max timings |}.

(** [if (typeof allowed === 'number') expect(value).toBeLessThanOrEqual(allowed)]:
    [true] when the assertion does not fail.  A threshold is a finite
    double, that is a rational; [None] is a threshold that is not set. *)
Definition slo_assertion (allowed : option Q) (value : Z) : bool :=
  match allowed with
  | Some a => Qle_bool (inject_Z value) a
  | None => true
  end.

(** The three SLO assertions of the stress scenario, in source order. *)
Definition slo_assertions (maxAllowed p95Allowed p99Allowed : option Q)
    (r : report) : bool :=
  slo_assertion maxAllowed (max r)
  && slo_assertion p95Allowed (p95 r)
  && slo_assertion p99Allowed (p99 r).

(** A threshold that is not set, or is set to a non-negative number. *)
Definition nonneg_threshold (allowed : option Q) : Prop :=
  match allowed with
  | Some a => (0 <= a)%Q
  | None => True
  end.

(** *** The two index computations on doubles

    IEEE 754 binary64, with the operations of [SpecFloat] at precision 53
    and maximal exponent 1024, rounding to nearest, ties to even. *)

Definition binary64 : Type := SpecFloat.spec_float.

(** The double of an integer. *)
Definition binary64_of_Z (z : Z) : binary64 :=
  SpecFloat.binary_normalize 53 1024 z 0 false.

Definition binary64_div : binary64 -> binary64 -> binary64 := SpecFloat.SFdiv 53 1024.
Definition binary64_mul : binary64 -> binary64 -> binary64 := SpecFloat.SFmul 53 1024.

(** [Math.floor(x)] and [Math.ceil(x)] of a finite double; [None] for an
    infinity or NaN. *)
Definition binary64_floor (x : binary64) : option Z :=
  match x with
  | SpecFloat.S754_zero _ => Some 0
  | SpecFloat.S754_finite s m e =>
      let v := if s then Z.neg m else Z.pos m in
      Some (if 0 <=? e then v * 2 ^ e else v / 2 ^ (- e))
  | _ => None
  end.

Definition binary64_ceil (x : binary64) : option Z :=
  match x with
  | SpecFloat.S754_zero _ => Some 0
  | SpecFloat.S754_finite s m e =>
      let v := if s then Z.neg m else Z.pos m in
      Some (if 0 <=? e then v * 2 ^ e else - ((- v) / 2 ^ (- e)))
  | _ => None
  end.

(** [Math.floor(timings.length * p)], where the literal [p] is the double
    nearest to [percent / 100]. *)
Definition stress_index_binary64 (percent : Z) (len : Z) : option Z :=
  binary64_floor
    (binary64_mul (binary64_of_Z len)
       (binary64_div (binary64_of_Z percent) (binary64_of_Z 100))).

(** [Math.ceil((p / 100) * sorted.length) - 1] *)
Definition perf_index_binary64 (percent : Z) (len : Z) : option Z :=
  (fun c => c - 1)
    <$> binary64_ceil
          (binary64_mul (binary64_div (binary64_of_Z percent) (binary64_of_Z 100))
             (binary64_of_Z len)).

(** The levels that the stress scenario and the aggregator use. *)
Definition levels : list Z := [50; 90; 95; 99].

(** Both exact formulas give what the doubles give, at the four levels
    and for the length [len]. *)
Definition exact_at (len : Z) : bool :=
  forallb
    (fun percent =>
       bool_decide (stress_index_binary64 percent len = Some (stress_index percent len))
       && bool_decide (perf_index_binary64 percent len = Some (perf_index percent len)))
    levels.

End Percentile.

(* ===================================================================== *)
(** * Part II: lemmas and theorems                                        *)
(* ===================================================================== *)

(** ** The worker pool *)

Section StressFacts.

Import Stress.

Variable N : nat.

Lemma count_insert (f : worker_status -> bool) (ws : list worker_status) w old new :
  ws !! w = Some old ->
  (count f (<[w := new]> ws) + (if f old then 1 else 0)
   = count f ws + (if f new then 1 else 0))%nat.
Proof.
  revert w. induction ws as [|st ws IH]; intros [|w] Hw; simpl in *; try discriminate.
  - injection Hw as ->. lia.
  - specialize (IH w Hw). lia.
Qed.

Lemma count_forallb_returned (ws : list worker_status) :
  forallb is_returned ws = true ->
  count is_awaiting ws = 0%nat /\ count is_rejected ws = 0%nat
  /\ count is_returned ws = length ws.
Proof.
  induction ws as [|st ws IH]; simpl; [auto|].
  intros H. apply andb_true_iff in H as [Hst Hws].
  destruct (IH Hws) as (H1 & H2 & H3). destruct st; simpl in *; try discriminate; lia.
Qed.

Lemma count_replicate_head n :
  count is_at_loop_head (replicate n AtLoopHead) = n
  /\ count is_awaiting (replicate n AtLoopHead) = 0%nat
  /\ count is_rejected (replicate n AtLoopHead) = 0%nat
  /\ count is_returned (replicate n AtLoopHead) = 0%nat.
Proof. induction n as [|n IH]; simpl; [auto|]. lia. Qed.

(** What every reachable pool satisfies: the logins started are the indices
    below the cursor, in order; every started login is recorded, in flight
    or rejected; a worker returns only once the cursor has passed the end. *)
Record inv (p : pool) : Prop := Inv {
  inv_logins : (logins p).*2 = seq 0 (Nat.min (next p) N);
  inv_timings :
    (length (timings p) + count is_awaiting (workers p)
     + count is_rejected (workers p))%nat = Nat.min (next p) N;
  inv_returned : (0 < count is_returned (workers p))%nat -> (N <= next p)%nat
}.

Lemma inv_init C : inv (init C).
Proof.
  destruct (count_replicate_head (Nat.max 1 C)) as (_ & Ha & Hr & Hd).
  split; unfold init; simpl.
  - reflexivity.
  - rewrite Ha, Hr. reflexivity.
  - rewrite Hd. lia.
Qed.

Lemma inv_pool_of n : inv (pool_of n).
Proof.
  destruct (count_replicate_head n) as (_ & Ha & Hr & Hd).
  split; unfold pool_of; simpl.
  - reflexivity.
  - rewrite Ha, Hr. reflexivity.
  - rewrite Hd. lia.
Qed.

Lemma step_inv e p p' :
  inv p -> step N e p = Some p' ->
  inv p' /\ (S (fuel_left N p') <= fuel_left N p)%nat
  /\ length (workers p') = length (workers p).
Proof.
  intros [Hl Ht Hr] Hstep. destruct e as [w|w d|w]; simpl in Hstep.
  - destruct (workers p !! w) as [[| | |]|] eqn:Hw; try discriminate.
    injection Hstep as <-. unfold claim, fuel_left.
    pose proof (count_insert is_at_loop_head _ _ _ Returned Hw) as H1.
    pose proof (count_insert is_awaiting _ _ _ Returned Hw) as H2.
    pose proof (count_insert is_rejected _ _ _ Returned Hw) as H3.
    pose proof (count_insert is_returned _ _ _ Returned Hw) as H4.
    pose proof (count_insert is_at_loop_head _ _ _ (AwaitingLogin (next p)) Hw) as G1.
    pose proof (count_insert is_awaiting _ _ _ (AwaitingLogin (next p)) Hw) as G2.
    pose proof (count_insert is_rejected _ _ _ (AwaitingLogin (next p)) Hw) as G3.
    pose proof (count_insert is_returned _ _ _ (AwaitingLogin (next p)) Hw) as G4.
    simpl in *.
    destruct (Nat.leb_spec N (next p)) as [Hle|Hlt]; simpl.
    + split; [split; simpl|split; [lia|apply length_insert]].
      * rewrite Hl. f_equal. lia.
      * lia.
      * lia.
    + split; [split; simpl|split; [lia|apply length_insert]].
      * rewrite fmap_app, Hl. simpl.
        replace (Nat.min (next p + 1) N) with (S (Nat.min (next p) N)) by lia.
        rewrite seq_S. simpl. do 2 f_equal. lia.
      * lia.
      * lia.
  - destruct (workers p !! w) as [[|cur| |]|] eqn:Hw; try discriminate.
    injection Hstep as <-. unfold resolve, fuel_left.
    pose proof (count_insert is_at_loop_head _ _ _ AtLoopHead Hw) as H1.
    pose proof (count_insert is_awaiting _ _ _ AtLoopHead Hw) as H2.
    pose proof (count_insert is_rejected _ _ _ AtLoopHead Hw) as H3.
    pose proof (count_insert is_returned _ _ _ AtLoopHead Hw) as H4.
    simpl in *.
    split; [split; simpl|split; [lia|apply length_insert]].
    + exact Hl.
    + rewrite length_app. simpl. lia.
    + lia.
  - destruct (workers p !! w) as [[|cur| |]|] eqn:Hw; try discriminate.
    injection Hstep as <-. unfold reject, fuel_left.
    pose proof (count_insert is_at_loop_head _ _ _ (Rejected cur) Hw) as H1.
    pose proof (count_insert is_awaiting _ _ _ (Rejected cur) Hw) as H2.
    pose proof (count_insert is_rejected _ _ _ (Rejected cur) Hw) as H3.
    pose proof (count_insert is_returned _ _ _ (Rejected cur) Hw) as H4.
    simpl in *.
    split; [split; simpl|split; [lia|apply length_insert]].
    + exact Hl.
    + lia.
    + lia.
Qed.

Lemma run_inv sched : forall p p',
  inv p -> run N sched p = Some p' ->
  inv p' /\ (length sched + fuel_left N p' <= fuel_left N p)%nat
  /\ length (workers p') = length (workers p).
Proof.
  induction sched as [|e sched IH]; intros p p' Hp Hrun; simpl in Hrun.
  - injection Hrun as <-. auto.
  - destruct (step N e p) as [q|] eqn:Hstep; [|discriminate].
    destruct (step_inv _ _ _ Hp Hstep) as (Hq & Hfuel & Hlen).
    destruct (IH _ _ Hq Hrun) as (Hp' & Hfuel' & Hlen').
    split; [exact Hp'|]. simpl. split; [lia|congruence].
Qed.

Lemma snd_unique (l : list (nat * nat)) w1 w2 i :
  NoDup (l.*2) -> (w1, i) ∈ l -> (w2, i) ∈ l -> w1 = w2.
Proof.
  induction l as [|[w j] l IH]; simpl; intros Hnd H1 H2.
  - by apply elem_of_nil in H1.
  - apply NoDup_cons in Hnd as [Hj Hnd].
    apply elem_of_cons in H1 as [H1|H1]; apply elem_of_cons in H2 as [H2|H2].
    + congruence.
    + injection H1 as -> ->. exfalso. apply Hj.
      apply (list_elem_of_fmap_2 snd _ _ H2).
    + injection H2 as -> ->. exfalso. apply Hj.
      apply (list_elem_of_fmap_2 snd _ _ H1).
    + by apply IH.
Qed.

Lemma unsettled_can_move (p : pool) :
  settled p = false ->
  exists e, is_reject e = false /\ is_Some (step N e p).
Proof.
  unfold settled. destruct p as [nx ts ws lg]; simpl.
  assert (G : forall ws', forallb (fun st => is_returned st || is_rejected st) ws' = false ->
                          exists w st, ws' !! w = Some st /\ (is_at_loop_head st || is_awaiting st = true)).
  { induction ws' as [|st ws' IH]; simpl; [discriminate|].
    intros H. destruct (is_returned st || is_rejected st) eqn:Hst; simpl in H.
    - destruct (IH H) as (w & st' & Hw & Hst'). exists (S w), st'. auto.
    - exists 0%nat, st. split; [reflexivity|]. destruct st; simpl in *; auto; discriminate. }
  intros H. destruct (G ws H) as (w & st & Hw & Hst).
  destruct st as [|cur| |]; simpl in Hst; try discriminate.
  - exists (Claim w). simpl. rewrite Hw. eauto.
  - exists (Resolve w 0). simpl. rewrite Hw. eauto.
Qed.

Lemma step_no_reject e p p' :
  is_reject e = false -> step N e p = Some p' ->
  count is_rejected (workers p) = 0%nat -> count is_rejected (workers p') = 0%nat.
Proof.
  intros He Hstep H0. destruct e as [w|w d|w]; simpl in *; try discriminate;
    destruct (workers p !! w) as [[|cur| |]|] eqn:Hw; try discriminate;
    injection Hstep as <-.
  - unfold claim.
    pose proof (count_insert is_rejected _ _ _ Returned Hw) as H1.
    pose proof (count_insert is_rejected _ _ _ (AwaitingLogin (next p)) Hw) as H2.
    destruct (N <=? next p)%nat; simpl in *; lia.
  - unfold resolve.
    pose proof (count_insert is_rejected _ _ _ AtLoopHead Hw) as H1.
    simpl in *; lia.
Qed.

Lemma run_no_reject sched : forall p p',
  forallb (fun e => negb (is_reject e)) sched = true -> run N sched p = Some p' ->
  count is_rejected (workers p) = 0%nat -> count is_rejected (workers p') = 0%nat.
Proof.
  induction sched as [|e sched IH]; intros p p' Hs Hrun H0; simpl in *.
  - by injection Hrun as <-.
  - apply andb_true_iff in Hs as [He Hs]. apply negb_true_iff in He.
    destruct (step N e p) as [q|] eqn:Hstep; [|discriminate].
    eapply IH; eauto using step_no_reject.
Qed.

Lemma settled_no_rejected (ws : list worker_status) :
  forallb (fun st => is_returned st || is_rejected st) ws = true ->
  count is_rejected ws = 0%nat -> forallb is_returned ws = true.
Proof.
  induction ws as [|st ws IH]; simpl; [auto|].
  intros H H0. apply andb_true_iff in H as [Hst Hws].
  destruct st; simpl in *; try discriminate; auto with lia.
Qed.

End StressFacts.

(** C1.  Exactly-once dispatch of the stress driver.  For every number of
    users [N], every concurrency [C] (the pool has [max 1 C] workers) and
    every schedule that interleaves the workers' segments: once all workers
    have returned, [timings] holds exactly [N] durations and the logins
    started are the indices [0, 1, ..., N-1], each by exactly one worker.
    A schedule has at most [max 1 C + 2 N] steps, a pool that is not settled
    can always move on, and a pool that settles after a schedule without a
    throwing login has all its workers returned, so every such run ends in
    that state. *)
Theorem stress_exactly_once_dispatch
    (N C : nat) (sched : list Stress.event) (p : Stress.pool) :
  Stress.run N sched (Stress.init C) = Some p ->
  (Stress.all_returned p = true ->
     length (Stress.timings p) = N
     /\ (Stress.logins p).*2 = seq 0 N
     /\ forall i, (i < N)%nat ->
          exists w, (w, i) ∈ Stress.logins p
                    /\ forall w', (w', i) ∈ Stress.logins p -> w' = w)
  /\ (length sched <= Nat.max 1 C + 2 * N)%nat
  /\ (Stress.settled p = false ->
       exists e, Stress.is_reject e = false /\ is_Some (Stress.step N e p))
  /\ (forallb (fun e => negb (Stress.is_reject e)) sched = true ->
       Stress.settled p = true -> Stress.all_returned p = true).
Proof.
  intros Hrun.
  destruct (run_inv N sched _ _ (inv_init N C) Hrun) as ([Hl Ht Hr] & Hfuel & Hlen).
  destruct (count_replicate_head (Nat.max 1 C)) as (Hh & Ha & Hj & Hd).
  repeat split.
  - apply count_forallb_returned in H as (H1 & H2 & H3).
    assert (N <= Stress.next p)%nat.
    { apply Hr. rewrite H3, Hlen. simpl. rewrite length_replicate. lia. }
    lia.
  - apply count_forallb_returned in H as (H1 & H2 & H3).
    assert (N <= Stress.next p)%nat.
    { apply Hr. rewrite H3, Hlen. simpl. rewrite length_replicate. lia. }
    rewrite Hl. f_equal. lia.
  - intros i Hi.
    apply count_forallb_returned in H as (H1 & H2 & H3).
    assert (Hn : (N <= Stress.next p)%nat).
    { apply Hr. rewrite H3, Hlen. simpl. rewrite length_replicate. lia. }
    assert (Hseq : (Stress.logins p).*2 = seq 0 N) by (rewrite Hl; f_equal; lia).
    assert (Hin : i ∈ (Stress.logins p).*2).
    { rewrite Hseq. apply list_elem_of_In, in_seq. lia. }
    apply list_elem_of_fmap in Hin as ([w j] & -> & Hwj). simpl.
    exists w. split; [exact Hwj|].
    intros w' Hw'. eapply snd_unique; eauto.
    rewrite Hseq. apply NoDup_ListNoDup, seq_NoDup.
  - unfold Stress.fuel_left in Hfuel. simpl in Hfuel. rewrite Hh, Ha in Hfuel. lia.
  - apply unsettled_can_move.
  - intros Hs Hset. apply settled_no_rejected; [exact Hset|].
    eapply run_no_reject; eauto.
Qed.

(** A run of two workers over two users: worker 1 finishes first. *)
Lemma stress_exactly_once_dispatch_witness :
  let sched := [Stress.Claim 0; Stress.Claim 1; Stress.Resolve 1 120;
                Stress.Claim 1; Stress.Resolve 0 300; Stress.Claim 0] in
  let p := {| Stress.next := 4; Stress.timings := [120; 300];
              Stress.workers := [Stress.Returned; Stress.Returned];
              Stress.logins := [(0, 0); (1, 1)]%nat |} in
  Stress.run 2 sched (Stress.init 2) = Some p
  /\ Stress.all_returned p = true
  /\ length (Stress.timings p) = 2%nat
  /\ (Stress.logins p).*2 = seq 0 2.
Proof.
  intros sched p.
  destruct (stress_exactly_once_dispatch 2 2 sched p eq_refl) as (H & _).
  destruct (H eq_refl) as (H1 & H2 & _).
  split; [reflexivity|]. split; [reflexivity|]. split; [exact H1|exact H2].
Defined.

(** ** Percentiles *)

(** C3.  The two percentile conventions differ: there are a non-empty
    sorted list and a level at which the stress scenario's
    [sorted[floor(p * length)]] and the aggregator's
    [sorted[clamp(ceil(p * length) - 1)]] both select an element of the
    list, at different indices, and the two elements are different; so are
    the results of the two computations on that list.  On [10, 20] at level
    50 the stress scenario reads index 1, the value 20, and the aggregator
    index 0, the value 10. *)
Theorem percentile_conventions_differ :
  exists (sorted : list Z) (percent x y : Z),
    sorted <> []
    /\ Percentile.is_sorted sorted = true
    /\ Percentile.index sorted
         (Percentile.stress_index percent (Z.of_nat (length sorted))) = Some x
    /\ Percentile.stress_select percent sorted = x
    /\ Percentile.stress_percentile percent sorted = x
    /\ Percentile.perf_select percent sorted = Some y
    /\ Percentile.percentile sorted percent = Some y
    /\ x <> y
    /\ Percentile.stress_index percent (Z.of_nat (length sorted))
       <> Percentile.perf_clamp (Z.of_nat (length sorted))
            (Percentile.perf_index percent (Z.of_nat (length sorted))).
Proof.
  exists [10; 20], 50, 20, 10.
  split; [discriminate|]. do 6 (split; [reflexivity|]). split; discriminate.
Qed.

(** The claim about the fixed vector as the specification words it: index
    [floor(0.5 * 5) - 1 = 1].  The code reads index 2. *)
Lemma p50_of_fixed_vector_is_not_index_1 :
  Percentile.stress_percentile 50 [100; 200; 300; 400; 500]
  <> Percentile.index_or_0
       (Percentile.sort_ascending [100; 200; 300; 400; 500])
       (Percentile.stress_index 50 5 - 1).
Proof. vm_compute. discriminate. Qed.

(** C4 (amended).  For the durations [100, 200, 300, 400, 500] the stress
    scenario's p50 is the element at index [floor(0.5 * 5) = 2] of the
    sorted array, which is 300. *)
Theorem stress_p50_fixed_vector :
  Percentile.stress_index 50 5 = 2
  /\ Percentile.stress_percentile 50 [100; 200; 300; 400; 500]
     = Percentile.index_or_0
         (Percentile.sort_ascending [100; 200; 300; 400; 500]) 2
  /\ Percentile.stress_percentile 50 [100; 200; 300; 400; 500] = 300.
Proof. repeat split. Qed.

(** C10.  With no duration collected, p50, p90, p95, p99 and max are all 0
    (the out-of-range reads fall back to 0), and the three SLO assertions
    pass for every threshold that is unset or non-negative. *)
Theorem stress_empty_run_passes_slo (maxAllowed p95Allowed p99Allowed : option Q) :
  Percentile.nonneg_threshold maxAllowed ->
  Percentile.nonneg_threshold p95Allowed ->
  Percentile.nonneg_threshold p99Allowed ->
  Percentile.stress_report [] = Percentile.Report 0 0 0 0 0
  /\ Percentile.slo_assertions maxAllowed p95Allowed p99Allowed
       (Percentile.stress_report []) = true.
Proof.
  intros Hm H95 H99. split; [reflexivity|].
  unfold Percentile.slo_assertions. simpl.
  assert (G : forall t, Percentile.nonneg_threshold t ->
                        Percentile.slo_assertion t 0 = true).
  { intros [a|] Ha; simpl; [|reflexivity]. apply Qle_bool_iff. exact Ha. }
  change (Percentile.stress_max []) with 0.
  change (Percentile.stress_percentile 95 []) with 0.
  change (Percentile.stress_percentile 99 []) with 0.
  rewrite !G by assumption. reflexivity.
Qed.

(** Thresholds of 0 ms, 1500 ms and none. *)
Lemma stress_empty_run_passes_slo_witness :
  Percentile.slo_assertions (Some 0%Q) (Some (1500 # 1)%Q) None
    (Percentile.stress_report []) = true.
Proof.
  apply (stress_empty_run_passes_slo (Some 0%Q) (Some (1500 # 1)%Q) None);
    simpl; [apply Qle_refl | discriminate | exact I].
Defined.

(** ** Objects *)

(** Distinctness of the keys of a literal object. *)
Ltac solve_NoDup_keys :=
  repeat (apply NoDup_cons; split;
          [ let H := fresh in
            intros H;
            repeat (apply elem_of_cons in H as [H|H]; [discriminate H|]);
            by apply elem_of_nil in H
          | ]);
  apply NoDup_nil_2.

Section ObjectFacts.

Import Js.

Context {V : Type}.

Lemma assoc_set_fresh (o : object V) k x :
  k ∉ o.*1 -> assoc_set o k x = o ++ [(k, x)].
Proof.
  induction o as [|[k' y] o IH]; simpl; intros Hk; [reflexivity|].
  apply not_elem_of_cons in Hk as [Hne Hk].
  rewrite bool_decide_eq_false_2 by congruence. by rewrite IH.
Qed.

Lemma assoc_set_keys (o : object V) k x :
  (assoc_set o k x).*1 = if decide (k ∈ o.*1) then o.*1 else o.*1 ++ [k].
Proof.
  induction o as [|[k' y] o IH]; cbn [assoc_set].
  - destruct (decide (k ∈ [])) as [H|_]; [by apply elem_of_nil in H|reflexivity].
  - rewrite (fmap_cons fst). cbn [fst].
    destruct (bool_decide_reflect (k' = k)) as [->|Hne]; rewrite (fmap_cons fst); cbn [fst].
    + rewrite decide_True by apply list_elem_of_here. reflexivity.
    + rewrite IH. destruct (decide (k ∈ o.*1)) as [Hin|Hnin].
      * rewrite decide_True by (by apply list_elem_of_further). reflexivity.
      * rewrite decide_False; [reflexivity|].
        intros [?|?]%elem_of_cons; congruence.
Qed.

Lemma assoc_set_NoDup (o : object V) k x :
  NoDup (o.*1) -> NoDup ((assoc_set o k x).*1).
Proof.
  intros Hnd. rewrite assoc_set_keys. destruct (decide (k ∈ o.*1)); [exact Hnd|].
  apply NoDup_app. split; [exact Hnd|]. split.
  - intros k' Hk' ->%list_elem_of_singleton. contradiction.
  - apply NoDup_singleton.
Qed.

Lemma assoc_set_Forall (Q : jsstring * V -> Prop) (o : object V) k x :
  Forall Q o -> Q (k, x) -> Forall Q (assoc_set o k x).
Proof.
  induction 1 as [|[k' y] o Hy Ho IH]; simpl; intros Hx.
  - by constructor.
  - destruct (bool_decide (k' = k)); constructor; auto.
Qed.

Lemma obj_set_Forall (Q : jsstring * V -> Prop) (o : object V) k x :
  Forall Q o -> (k <> proto -> Q (k, x)) -> Forall Q (obj_set o k x).
Proof.
  intros Ho Hx. unfold obj_set.
  destruct (bool_decide_reflect (k = proto)); [exact Ho|].
  apply assoc_set_Forall; auto.
Qed.

Lemma obj_set_NoDup (o : object V) k x :
  NoDup (o.*1) -> NoDup ((obj_set o k x).*1).
Proof.
  intros Ho. unfold obj_set. destruct (bool_decide (k = proto)); [exact Ho|].
  by apply assoc_set_NoDup.
Qed.

Lemma obj_get_elem_of (o : object V) k x :
  obj_get o k = Some x -> (k, x) ∈ o.
Proof.
  induction o as [|[k' y] o IH]; simpl; [discriminate|].
  destruct (bool_decide_reflect (k' = k)) as [->|Hne].
  - intros [= ->]. apply list_elem_of_here.
  - intros H. apply list_elem_of_further. auto.
Qed.

Lemma obj_get_is_Some (o : object V) k :
  k ∈ o.*1 -> is_Some (obj_get o k).
Proof.
  induction o as [|[k' y] o IH]; simpl; intros Hk.
  - by apply elem_of_nil in Hk.
  - destruct (bool_decide_reflect (k' = k)) as [->|Hne]; [eauto|].
    apply elem_of_cons in Hk as [Hk|Hk]; [congruence|auto].
Qed.

End ObjectFacts.

Section FillFacts.

Import Js.

Context {V W : Type}.
Variable skip : jsstring -> bool.
Variable g : jsstring -> V -> W.

Local Abbreviation fill_loop := (fill_loop skip g).
Local Abbreviation fill_entry := (fill_entry skip g).

Lemma fill_loop_Forall (Q : jsstring * W -> Prop) (l : object V) :
  forall out,
  Forall Q out ->
  Forall (fun kv => skip kv.1 = false -> kv.1 <> proto -> Q (kv.1, g kv.1 kv.2)) l ->
  Forall Q (fill_loop l out).
Proof.
  induction l as [|[k v] l IH]; simpl; intros out Hout Hl; [exact Hout|].
  apply Forall_cons in Hl as [Hkv Hl]. simpl in Hkv.
  apply IH; [|exact Hl].
  destruct (skip k); [exact Hout|]. apply obj_set_Forall; auto.
Qed.

Lemma fill_loop_NoDup (l : object V) :
  forall out, NoDup (out.*1) -> NoDup ((fill_loop l out).*1).
Proof.
  induction l as [|[k v] l IH]; simpl; intros out Hout; [exact Hout|].
  apply IH. destruct (skip k); [exact Hout|]. by apply obj_set_NoDup.
Qed.

(** On an object (distinct keys) the loop keeps the order of the entries. *)
Lemma fill_loop_distinct (l : object V) :
  forall out,
  NoDup (out.*1 ++ l.*1) ->
  fill_loop l out = out ++ omap fill_entry l.
Proof.
  induction l as [|[k v] l IH]; simpl; intros out Hnd.
  - by rewrite app_nil_r.
  - unfold fill_entry at 1. simpl.
    assert (Hk : k ∉ out.*1).
    { apply NoDup_app in Hnd as (_ & Hd & _). intros Hk. apply (Hd k Hk).
      apply list_elem_of_here. }
    destruct (skip k); simpl.
    + apply IH. apply NoDup_app in Hnd as (H1 & H2 & H3).
      apply NoDup_cons in H3 as [H3 H4].
      apply NoDup_app. split; [exact H1|]. split; [|exact H4].
      intros k' Hk' Hin. apply (H2 k' Hk'). by apply list_elem_of_further.
    + unfold obj_set.
      assert (Hnd' : forall out' : object W, out'.*1 ⊆ out.*1 ++ [k] -> NoDup (out'.*1) ->
                                  NoDup (out'.*1 ++ l.*1)).
      { intros out' Hsub Hout'.
        apply NoDup_app in Hnd as (H1 & H2 & H3).
        apply NoDup_cons in H3 as [H3 H4].
        apply NoDup_app. split; [exact Hout'|]. split; [|exact H4].
        intros k' Hk' Hin. apply Hsub in Hk'.
        apply elem_of_app in Hk' as [Hk'|Hk'].
        - apply (H2 k' Hk'). by apply list_elem_of_further.
        - apply list_elem_of_singleton in Hk' as ->. contradiction. }
      destruct (bool_decide_reflect (k = proto)) as [->|Hne].
      * apply IH. apply Hnd'.
        -- intros k' Hk'. apply elem_of_app. by left.
        -- by apply NoDup_app in Hnd as (H1 & _).
      * rewrite (assoc_set_fresh out k (g k v) Hk).
        rewrite IH.
        -- by rewrite <- app_assoc.
        -- apply Hnd'.
           ++ rewrite fmap_app. simpl. reflexivity.
           ++ rewrite fmap_app. simpl.
              apply NoDup_app. split; [by apply NoDup_app in Hnd as (H1 & _)|].
              split; [|apply NoDup_singleton].
              intros k' Hk' ->%list_elem_of_singleton. contradiction.
Qed.

End FillFacts.

(** ** Redaction of JSON bodies *)

Section RedactJsonFacts.

Import Js NetLog.

Arguments is_sensitive_key : simpl never.
Arguments is_bearer : simpl never.

Lemma redactJson_truncated value depth :
  (6 <? depth) = true -> redactJson value depth = JString truncated.
Proof. intros H. destruct value; simpl; by rewrite H. Qed.

Lemma redactJson_array items depth :
  (6 <? depth) = false ->
  redactJson (JArray items) depth
  = JArray ((fun v => redactJson v (depth + 1)) <$> take 50 items).
Proof.
  intros H. simpl. rewrite H. f_equal.
  generalize 50%nat as n. induction items as [|v items IH]; intros [|n]; simpl; try reflexivity.
  f_equal. apply IH.
Qed.

Lemma redactJson_object entries depth :
  (6 <? depth) = false ->
  redactJson (JObject entries) depth
  = JObject (fill_loop (fun _ => false) (redact_entry depth) entries []).
Proof.
  intros H. simpl. rewrite H. f_equal.
  generalize (@nil (jsstring * json)) as out.
  induction entries as [|[k v] entries IH]; intros out; simpl; [reflexivity|].
  unfold redact_entry at 2. destruct (is_sensitive_key k); apply IH.
Qed.

(** The marker is not taken for a bearer token. *)
Lemma redacted_is_not_bearer : is_bearer redacted = false.
Proof. reflexivity. Qed.

Lemma redact_entry_idempotent depth k v :
  (is_sensitive_key k = false ->
   redactJson (redactJson v (depth + 1)) (depth + 1) = redactJson v (depth + 1)) ->
  redact_entry depth k (redact_entry depth k v) = redact_entry depth k v.
Proof.
  unfold redact_entry. destruct (is_sensitive_key k); auto.
Qed.

(** C9.  Redacting twice at the same depth is the same as redacting
    once. *)
Theorem redactJson_idempotent (value : NetLog.json) (depth : Z) :
  NetLog.redactJson (NetLog.redactJson value depth) depth
  = NetLog.redactJson value depth.
Proof.
  revert depth. induction value as [| | b | n | s | items IH | entries IH] using json_ind;
    intros depth; destruct (6 <? depth) eqn:Hd;
    try (rewrite !redactJson_truncated by exact Hd; reflexivity).
  - simpl. rewrite Hd. simpl. by rewrite Hd.
  - simpl. rewrite Hd. simpl. by rewrite Hd.
  - simpl. rewrite Hd. simpl. by rewrite Hd.
  - simpl. rewrite Hd. simpl. by rewrite Hd.
  - simpl. rewrite Hd. destruct (is_bearer s) eqn:Hs; simpl; rewrite Hd.
    + change (is_bearer redacted) with false. reflexivity.
    + by rewrite Hs.
  - rewrite (redactJson_array items depth Hd), redactJson_array by exact Hd.
    f_equal. rewrite <- fmap_take, take_take, Nat.min_id, <- list_fmap_compose.
    apply Forall_fmap_ext. apply Forall_take.
    eapply Forall_impl; [exact IH|]. intros v Hv. apply Hv.
  - rewrite (redactJson_object entries depth Hd), redactJson_object by exact Hd.
    f_equal.
    set (out := fill_loop (fun _ => false) (redact_entry depth) entries []).
    assert (Hnd : NoDup (out.*1)) by (apply fill_loop_NoDup; constructor).
    assert (Hfix : Forall (fun kv => kv.1 <> proto
                                     /\ redact_entry depth kv.1 kv.2 = kv.2) out).
    { apply fill_loop_Forall; [constructor|].
      eapply Forall_impl; [exact IH|]. intros [k v] Hv _ Hk. simpl in *.
      split; [exact Hk|]. apply redact_entry_idempotent. intros _. apply Hv. }
    rewrite fill_loop_distinct by exact Hnd. simpl.
    clear Hnd. induction Hfix as [|[k x] out' [Hk Hx] Hout IHout]; [reflexivity|].
    simpl in *. unfold fill_entry at 1. simpl.
    rewrite bool_decide_eq_false_2 by exact Hk. rewrite Hx. f_equal. exact IHout.
Qed.

Lemma redactJson_object_inv value depth es :
  redactJson value depth = JObject es ->
  exists entries,
    value = JObject entries
    /\ es = fill_loop (fun _ => false) (redact_entry depth) entries [].
Proof.
  destruct (6 <? depth) eqn:Hd.
  - rewrite redactJson_truncated by exact Hd. discriminate.
  - destruct value as [| | b | n | s | items | entries];
      try (simpl; rewrite Hd; try destruct (is_bearer s); discriminate).
    rewrite redactJson_object by exact Hd. intros [= <-]. eauto.
Qed.

Lemma redactJson_array_inv value depth items' :
  redactJson value depth = JArray items' ->
  exists items,
    value = JArray items
    /\ items' = (fun v => redactJson v (depth + 1)) <$> take 50 items.
Proof.
  destruct (6 <? depth) eqn:Hd.
  - rewrite redactJson_truncated by exact Hd. discriminate.
  - destruct value as [| | b | n | s | items | entries];
      try (simpl; rewrite Hd; try destruct (is_bearer s); discriminate).
    rewrite redactJson_array by exact Hd. intros [= <-]. eauto.
Qed.

(** Every entry of a redacted object comes from an entry of the object. *)
Lemma redacted_entries depth (entries : object json) k x :
  (k, x) ∈ fill_loop (fun _ => false) (redact_entry depth) entries [] ->
  exists v, (k, v) ∈ entries /\ x = redact_entry depth k v.
Proof.
  intros Hin.
  assert (H : Forall (fun kx => exists v, (kx.1, v) ∈ entries
                                          /\ kx.2 = redact_entry depth kx.1 v)
                (fill_loop (fun _ => false) (redact_entry depth) entries [])).
  { apply fill_loop_Forall; [constructor|].
    apply Forall_forall. intros [k' v'] Hkv _ _. simpl. eauto. }
  rewrite Forall_forall in H. apply (H (k, x) Hin).
Qed.

Lemma at_path_string s path es :
  at_path (JString s) path <> Some (JObject es).
Proof. destruct path as [|[k|i] path]; simpl; discriminate. Qed.

Lemma password_is_sensitive : is_sensitive_key (js "password") = true.
Proof. reflexivity. Qed.

Lemma password_is_not_proto : js "password" <> proto.
Proof. discriminate. Qed.

(** Whatever survives redaction holds no password. *)
Lemma no_password_survives path : forall value depth es x,
  at_path (redactJson value depth) path = Some (JObject es) ->
  (js "password", x) ∈ es -> x = JString redacted.
Proof.
  induction path as [|[k|i] path IH]; intros value depth es x; simpl.
  - intros [= Hv] Hin. apply redactJson_object_inv in Hv as (entries & -> & ->).
    apply redacted_entries in Hin as (v & _ & ->).
    unfold redact_entry. by rewrite password_is_sensitive.
  - destruct (redactJson value depth) as [| | | | |items'|es'] eqn:Hv; try discriminate.
    apply redactJson_object_inv in Hv as (entries & -> & ->).
    destruct (obj_get _ k) as [v'|] eqn:Hget; [|discriminate].
    apply obj_get_elem_of, redacted_entries in Hget as (v & _ & ->).
    unfold redact_entry. destruct (is_sensitive_key k).
    + intros H. by apply at_path_string in H.
    + apply IH.
  - destruct (redactJson value depth) as [| | | | |items'|es'] eqn:Hv; try discriminate.
    apply redactJson_array_inv in Hv as (items & -> & ->).
    rewrite list_lookup_fmap.
    destruct (take 50 items !! i) as [v|]; simpl; [|discriminate].
    apply IH.
Qed.

Lemma wf_json_array items : wf_json (JArray items) <-> Forall wf_json items.
Proof.
  simpl. induction items as [|v items IH]; [by split; [constructor|]|].
  rewrite Forall_cons. by rewrite IH.
Qed.

Lemma wf_json_object entries :
  wf_json (JObject entries)
  <-> NoDup (entries.*1) /\ Forall (fun kv => wf_json kv.2) entries.
Proof.
  simpl. apply and_iff_compat_l.
  induction entries as [|[k v] entries IH]; [by split; [constructor|]|].
  rewrite Forall_cons. simpl. by rewrite IH.
Qed.

Lemma obj_get_omap_fill (g : jsstring -> json -> json) (entries : object json) k :
  k <> proto ->
  obj_get (omap (fill_entry (fun _ => false) g) entries) k
  = g k <$> obj_get entries k.
Proof.
  intros Hk. induction entries as [|[k' v] entries IH]; simpl; [reflexivity|].
  unfold fill_entry at 1. simpl.
  destruct (bool_decide_reflect (k' = proto)) as [->|Hne].
  - rewrite bool_decide_eq_false_2 by congruence. exact IH.
  - simpl. destruct (bool_decide_reflect (k' = k)) as [->|Hne']; [reflexivity|exact IH].
Qed.

(** Within the depth bound, along kept steps, a password is redacted in
    place. *)
Lemma password_redacted_in_place path : forall value depth es,
  wf_json value ->
  at_path value path = Some (JObject es) ->
  js "password" ∈ es.*1 ->
  Forall kept_selector path ->
  depth + Z.of_nat (length path) <= 6 ->
  exists es',
    at_path (redactJson value depth) path = Some (JObject es')
    /\ obj_get es' (js "password") = Some (JString redacted).
Proof.
  induction path as [|[k|i] path IH]; intros value depth es Hwf Hat Hpw Hkept Hlen;
    simpl in Hat, Hlen.
  - injection Hat as ->.
    assert (Hd : (6 <? depth) = false) by lia.
    rewrite redactJson_object by exact Hd.
    apply wf_json_object in Hwf as [Hnd _].
    rewrite fill_loop_distinct by exact Hnd. simpl.
    eexists. split; [reflexivity|].
    rewrite obj_get_omap_fill by apply password_is_not_proto.
    destruct (obj_get_is_Some es _ Hpw) as [v ->]. simpl.
    unfold redact_entry. by rewrite password_is_sensitive.
  - destruct value as [| | | | | |entries]; try discriminate.
    destruct (obj_get entries k) as [v|] eqn:Hget; [|discriminate].
    apply Forall_cons in Hkept as [[Hk Hproto] Hkept].
    assert (Hd : (6 <? depth) = false) by lia.
    apply wf_json_object in Hwf as [Hnd Hwf].
    rewrite Forall_forall in Hwf.
    specialize (Hwf _ (obj_get_elem_of _ _ _ Hget)). simpl in Hwf.
    destruct (IH v (depth + 1) es Hwf Hat Hpw Hkept ltac:(lia)) as (es' & Hat' & Hes').
    exists es'. split; [|exact Hes'].
    rewrite redactJson_object by exact Hd.
    rewrite fill_loop_distinct by exact Hnd. simpl.
    rewrite obj_get_omap_fill by exact Hproto. rewrite Hget. simpl.
    unfold redact_entry. rewrite Hk. exact Hat'.
  - destruct value as [| | | | |items|]; try discriminate.
    destruct (items !! i) as [v|] eqn:Hget; [|discriminate].
    apply Forall_cons in Hkept as [Hi Hkept]. simpl in Hi.
    assert (Hd : (6 <? depth) = false) by lia.
    apply wf_json_array in Hwf. rewrite Forall_forall in Hwf.
    specialize (Hwf _ (list_elem_of_lookup_2 _ _ _ Hget)).
    destruct (IH v (depth + 1) es Hwf Hat Hpw Hkept ltac:(lia)) as (es' & Hat' & Hes').
    exists es'. split; [|exact Hes'].
    rewrite redactJson_array by exact Hd. simpl.
    rewrite list_lookup_fmap, lookup_take_lt by exact Hi. rewrite Hget. exact Hat'.
Qed.

End RedactJsonFacts.

(** The claim about passwords as the specification words it, at any
    nesting depth, fails below the depth bound: an object seven levels down
    is replaced as a whole by the marker ["[truncated]"], so the output has
    no entry ["password"] at that place. *)
Lemma password_lost_beyond_depth_bound :
  let secret := NetLog.JObject [(Js.js "password", NetLog.JString (Js.js "hunter2"))] in
  let value := Nat.iter 7 (fun w => NetLog.JObject [(Js.js "a", w)]) secret in
  let path := replicate 7 (NetLog.Key (Js.js "a")) in
  NetLog.at_path value path = Some secret
  /\ NetLog.at_path (NetLog.redactJson value 0) path
     = Some (NetLog.JString NetLog.truncated)
  /\ ~ exists es',
         NetLog.at_path (NetLog.redactJson value 0) path = Some (NetLog.JObject es')
         /\ Js.obj_get es' (Js.js "password") = Some (NetLog.JString NetLog.redacted).
Proof.
  intros secret value path.
  assert (H : NetLog.at_path (NetLog.redactJson value 0) path
              = Some (NetLog.JString NetLog.truncated)) by (vm_compute; reflexivity).
  split; [vm_compute; reflexivity|]. split; [exact H|].
  intros (es' & Hes' & _). rewrite H in Hes'. discriminate.
Qed.

(** C8 (amended).  An object with a key ["password"] anywhere in the output
    of [redactJson] maps it to ["[redacted]"]; and for a value whose objects
    have distinct keys, an object with a key ["password"] that lies at most
    six steps down, below keys that are neither sensitive nor [__proto__]
    and below array indices under 50, is still there in the output of
    [redactJson(value)], with ["password"] mapped to ["[redacted]"]. *)
Theorem redactJson_password
    (value : NetLog.json) (path : list NetLog.selector)
    (es : list (list N * NetLog.json)) :
  (forall depth x,
     NetLog.at_path (NetLog.redactJson value depth) path = Some (NetLog.JObject es) ->
     (Js.js "password", x) ∈ es -> x = NetLog.JString NetLog.redacted)
  /\ (NetLog.wf_json value ->
      NetLog.at_path value path = Some (NetLog.JObject es) ->
      Js.js "password" ∈ es.*1 ->
      Forall NetLog.kept_selector path ->
      (length path <= 6)%nat ->
      exists es',
        NetLog.at_path (NetLog.redactJson value 0) path = Some (NetLog.JObject es')
        /\ Js.obj_get es' (Js.js "password") = Some (NetLog.JString NetLog.redacted)).
Proof.
  split.
  - intros depth x. apply no_password_survives.
  - intros Hwf Hat Hpw Hkept Hlen.
    apply (password_redacted_in_place path value 0 es); auto. lia.
Qed.

(** A login body: the password one level down. *)
Lemma redactJson_password_witness :
  let inner := [(Js.js "name", NetLog.JString (Js.js "ann"));
                (Js.js "password", NetLog.JString (Js.js "hunter2"))] in
  let value := NetLog.JObject [(Js.js "user", NetLog.JObject inner)] in
  exists es',
    NetLog.at_path (NetLog.redactJson value 0) [NetLog.Key (Js.js "user")]
    = Some (NetLog.JObject es')
    /\ Js.obj_get es' (Js.js "password") = Some (NetLog.JString NetLog.redacted).
Proof.
  intros inner value.
  apply (proj2 (redactJson_password value [NetLog.Key (Js.js "user")] inner)).
  - simpl. repeat split; solve_NoDup_keys.
  - reflexivity.
  - apply list_elem_of_further, list_elem_of_here.
  - constructor; [|constructor]. split; [reflexivity|discriminate].
  - simpl. lia.
Defined.

(** ** Redaction of headers *)

Section RedactHeadersFacts.

Import Js NetLog.

Variable toLowerCase : jsstring -> jsstring.

Lemma redactHeaders_fill_loop (headers : object jsstring) :
  redactHeaders toLowerCase headers
  = fill_loop (fun k => bool_decide (toLowerCase k ∈ blocked)) (fun _ v => v) headers [].
Proof. reflexivity. Qed.

Lemma redactHeaders_elem_of (headers : object jsstring) k v :
  NoDup (headers.*1) ->
  (k, v) ∈ redactHeaders toLowerCase headers
  <-> ((k, v) ∈ headers /\ (toLowerCase k ∉ blocked) /\ k <> proto).
Proof.
  intros Hnd. rewrite redactHeaders_fill_loop, fill_loop_distinct by exact Hnd.
  simpl. rewrite list_elem_of_omap. unfold fill_entry. split.
  - intros ([k' v'] & Hin & Hkv). simpl in Hkv.
    destruct (bool_decide_reflect (toLowerCase k' ∈ blocked)); [discriminate|].
    destruct (bool_decide_reflect (k' = proto)); [discriminate|].
    simpl in Hkv. injection Hkv as <- <-. auto.
  - intros (Hin & Hb & Hp). exists (k, v). split; [exact Hin|]. simpl.
    rewrite bool_decide_eq_false_2 by exact Hb.
    rewrite bool_decide_eq_false_2 by exact Hp. reflexivity.
Qed.

End RedactHeadersFacts.

(** The claim about headers as the specification words it, with the name
    [api-key], fails: the blocked name is [x-api-key], and a header named
    [api-key] is captured. *)
Lemma redactHeaders_keeps_api_key :
  let headers := [(Js.js "api-key", Js.js "s3cr3t")] in
  Js.toLowerCase_ascii (Js.js "api-key") = Js.js "api-key"
  /\ ~ (forall k v,
          (k, v) ∈ NetLog.redactHeaders Js.toLowerCase_ascii headers ->
          Js.toLowerCase_ascii k <> Js.js "api-key").
Proof.
  intros headers. split; [reflexivity|].
  intros H. apply (H (Js.js "api-key") (Js.js "s3cr3t")); [|reflexivity].
  apply list_elem_of_here.
Qed.

(** C7 (amended).  For every header object (entries with distinct names)
    and whatever the case mapping, the captured headers are entries of the
    input, none of them with a lower-cased name among authorization, cookie,
    set-cookie, proxy-authorization and x-api-key; and every header whose
    lower-cased name is none of these is captured with its name and value
    unchanged, a header named [__proto__] apart. *)
Theorem redactHeaders_blocks_and_keeps
    (toLowerCase : list N -> list N) (headers : list (list N * list N)) :
  NoDup (headers.*1) ->
  (forall k v,
     (k, v) ∈ NetLog.redactHeaders toLowerCase headers ->
     (k, v) ∈ headers
     /\ toLowerCase k <> Js.js "authorization"
     /\ toLowerCase k <> Js.js "cookie"
     /\ toLowerCase k <> Js.js "set-cookie"
     /\ toLowerCase k <> Js.js "proxy-authorization"
     /\ toLowerCase k <> Js.js "x-api-key")
  /\ (forall k v,
        (k, v) ∈ headers ->
        toLowerCase k <> Js.js "authorization" ->
        toLowerCase k <> Js.js "cookie" ->
        toLowerCase k <> Js.js "set-cookie" ->
        toLowerCase k <> Js.js "proxy-authorization" ->
        toLowerCase k <> Js.js "x-api-key" ->
        k <> Js.proto ->
        (k, v) ∈ NetLog.redactHeaders toLowerCase headers).
Proof.
  intros Hnd. split.
  - intros k v Hin. apply redactHeaders_elem_of in Hin as (Hin & Hb & _); [|exact Hnd].
    split; [exact Hin|]. unfold NetLog.blocked in Hb.
    repeat (apply not_elem_of_cons in Hb as [? Hb]). auto.
  - intros k v Hin H1 H2 H3 H4 H5 Hp. apply redactHeaders_elem_of; [exact Hnd|].
    split; [exact Hin|]. split; [|exact Hp]. unfold NetLog.blocked.
    repeat (apply not_elem_of_cons; split; [assumption|]). apply not_elem_of_nil.
Qed.

(** A request with a bearer token and a content type. *)
Lemma redactHeaders_blocks_and_keeps_witness :
  let headers := [(Js.js "Authorization", Js.js "Bearer abc");
                  (Js.js "content-type", Js.js "application/json")] in
  (Js.js "content-type", Js.js "application/json")
    ∈ NetLog.redactHeaders Js.toLowerCase_ascii headers
  /\ forall v, (Js.js "Authorization", v)
                 ∉ NetLog.redactHeaders Js.toLowerCase_ascii headers.
Proof.
  intros headers.
  assert (Hnd : NoDup (headers.*1)) by solve_NoDup_keys.
  destruct (redactHeaders_blocks_and_keeps Js.toLowerCase_ascii headers Hnd) as [H1 H2].
  split.
  - apply H2; try discriminate. apply list_elem_of_further, list_elem_of_here.
  - intros v Hin. apply H1 in Hin as (_ & Ha & _). apply Ha. reflexivity.
Defined.

(** ** Dates *)



(** ** Credentials *)

Section ResolverFacts.

Import Js Helpers.

Lemma array_from_in_range {A} (count : Z) (f : nat -> A) :
  count < 4294967296 -> array_from count f = Some (f <$> seq 0 (Z.to_nat count)).
Proof.
  intros H. unfold array_from.
  destruct (Z.ltb_spec count 4294967296); [reflexivity|lia].
Qed.

Lemma array_from_Some {A} (count : Z) (f : nat -> A) arr :
  array_from count f = Some arr -> arr = f <$> seq 0 (Z.to_nat count).
Proof.
  unfold array_from. destruct (count <? 4294967296); [|discriminate].
  by intros [= <-].
Qed.

Lemma return_array_Ok {A} (made : option (list A)) arr :
  return_array made = Ok arr -> made = Some arr.
Proof. destruct made; simpl; [by intros [= ->]|discriminate]. Qed.

Lemma fmap_const_seq {A} (a : A) (start n : nat) :
  (fun _ => a) <$> seq start n = replicate n a.
Proof.
  revert start. induction n as [|n IH]; intros start; simpl; [reflexivity|].
  f_equal. apply IH.
Qed.

Lemma slice0_nonneg {A} (arr : list A) (count : Z) :
  0 <= count -> slice0 arr count = take (Z.to_nat count) arr.
Proof.
  intros H. unfold slice0. destruct (Z.ltb_spec count 0); [lia|reflexivity].
Qed.

Lemma length_pos_nonempty {A} (l : list A) :
  (0 <? length l)%nat = negb (bool_decide (l = [])).
Proof. destruct l; reflexivity. Qed.

End ResolverFacts.

(** C2.  The contract of [requireMystappUsers(count)], for a [count]
    that an array can have ([0 <= count < 2^32]), read off the environment
    variables and the local configuration.  One source is used, in this
    order.  (a) A non-empty explicit list ([MYSTAPP_USERS], or [users] of
    the local configuration) with a password: the first [count] names in
    order, each with the shared password, or an error when the list is
    shorter than [count].  (b) Otherwise a single user ([MYSTAPP_USER],
    [MYSTAPP_USERNAME] or [user] of the local configuration) with a
    password: that one credential when [count = 1]; for any other [count] an
    error unless [MYSTAPP_REUSE_SINGLE_USER] is 1, and then [count] copies of
    the credential.  (c) Otherwise a prefix with a password: [count]
    credentials named prefix01, prefix02, and so on.  A source without a
    password, or no source at all, is an error. *)
Theorem requireMystappUsers_contract
    (env : Helpers.ProcessEnv) (local : option Helpers.MystappLocalConfig)
    (count : Z) :
  0 <= count < 4294967296 ->
  let password :=
    Helpers.setting (Helpers.nullish (Helpers.MYSTAPP_PASSWORD env)
                       (Helpers.opt_field local Helpers.password)) in
  let names :=
    match Helpers.setting (Helpers.MYSTAPP_USERS env) with
    | Some csv => List.filter Js.truthy (Js.trim <$> Js.split 44 csv)
    | None =>
        List.filter Js.truthy
          (Js.trim <$> default [] (Helpers.opt_field local Helpers.users))
    end in
  let single :=
    Helpers.setting (Helpers.nullish (Helpers.MYSTAPP_USER env)
                       (Helpers.nullish (Helpers.MYSTAPP_USERNAME env)
                          (Helpers.opt_field local Helpers.user))) in
  let prefix :=
    Helpers.setting (Helpers.nullish (Helpers.MYSTAPP_USER_PREFIX env)
                       (Helpers.opt_field local Helpers.userPrefix)) in
  let reuse := Js.trim (default [] (Helpers.MYSTAPP_REUSE_SINGLE_USER env)) in
  let result := Helpers.requireMystappUsers env local count in
  let cred u pw := {| Helpers.username := u; Helpers.user_password := pw |} in
  (forall pw, names <> [] -> password = Some pw ->
     (Z.of_nat (length names) < count ->
        result = Helpers.Throw (Helpers.UserListTooShort (length names) count))
     /\ (count <= Z.of_nat (length names) ->
           result = Helpers.Ok ((fun u => cred u pw) <$> take (Z.to_nat count) names)))
  /\ (forall u pw, names = [] -> single = Some u -> password = Some pw ->
        (count = 1 -> result = Helpers.Ok [cred u pw])
        /\ (count <> 1 -> reuse <> Js.js "1" ->
              result = Helpers.Throw Helpers.SingleUserNotReusable)
        /\ (count <> 1 -> reuse = Js.js "1" ->
              result = Helpers.Ok (replicate (Z.to_nat count) (cred u pw))))
  /\ (forall pre pw, names = [] -> single = None -> prefix = Some pre ->
        password = Some pw ->
        result
        = Helpers.Ok ((fun i => cred (pre ++ Js.padStart 2 48 (Js.String_of_nat (i + 1))) pw)
                        <$> seq 0 (Z.to_nat count))
        /\ Helpers.generated_username pre 0 = pre ++ Js.js "01"
        /\ Helpers.generated_username pre 1 = pre ++ Js.js "02"
        /\ Helpers.generated_username pre 9 = pre ++ Js.js "10")
  /\ ((names <> [] \/ single <> None) -> password = None ->
        exists e, result = Helpers.Throw e)
  /\ (names = [] -> single = None -> (prefix = None \/ password = None) ->
        result = Helpers.Throw Helpers.MissingCredentials).
Proof.
  intros Hcount password names single prefix reuse result cred.
  unfold result, Helpers.requireMystappUsers.
  change (Helpers.explicitUsernames env local) with names.
  change (Helpers.resolved_password env local) with password.
  change (Helpers.singleUser env local) with single.
  change (Helpers.resolved_userPrefix env local) with prefix.
  change (Helpers.reuseSingleUser env) with (bool_decide (reuse = Js.js "1")).
  rewrite length_pos_nonempty.
  repeat split.
  - intros Hlt. rewrite bool_decide_eq_false_2 by assumption. simpl.
    rewrite H0. destruct (Z.ltb_spec (Z.of_nat (length names)) count); [reflexivity|lia].
  - intros Hle. rewrite bool_decide_eq_false_2 by assumption. simpl.
    rewrite H0. destruct (Z.ltb_spec (Z.of_nat (length names)) count); [lia|].
    rewrite slice0_nonneg by lia. reflexivity.
  - intros ->. rewrite bool_decide_eq_true_2 by assumption. simpl.
    by rewrite H0, H1.
  - intros Hne Hreuse. rewrite bool_decide_eq_true_2 by assumption. simpl.
    rewrite H0, H1. destruct (Z.eqb_spec count 1); [contradiction|]. simpl.
    by rewrite (bool_decide_eq_false_2 _ Hreuse).
  - intros Hne Hreuse. rewrite bool_decide_eq_true_2 by assumption. simpl.
    rewrite H0, H1. destruct (Z.eqb_spec count 1); [contradiction|]. simpl.
    rewrite (bool_decide_eq_true_2 _ Hreuse). simpl.
    rewrite array_from_in_range by lia. simpl. by rewrite fmap_const_seq.
  - rewrite bool_decide_eq_true_2 by assumption. simpl. rewrite H0, H1, H2.
    by rewrite array_from_in_range by lia.
  - intros [Hn|Hs] Hpw.
    + rewrite bool_decide_eq_false_2 by assumption. simpl. rewrite Hpw. eauto.
    + destruct (bool_decide (names = [])); simpl.
      * destruct single; [|contradiction]. rewrite Hpw. eauto.
      * rewrite Hpw. eauto.
  - intros Hn Hs Hor. rewrite bool_decide_eq_true_2 by assumption. simpl.
    rewrite Hs. destruct Hor as [->| ->]; [reflexivity|]. by destruct prefix.
Qed.

(** The three sources and the absence of any, each on an environment:
    [MYSTAPP_USERS="a,b,c"] with [count] 2 and 4; [MYSTAPP_USER="solo"] with
    [count] 1, with [count] 3, and with [count] 3 and
    [MYSTAPP_REUSE_SINGLE_USER=1]; [MYSTAPP_USER_PREFIX="user"] with
    [count] 3; and nothing but a password. *)
Lemma requireMystappUsers_contract_witness :
  let cred u := {| Helpers.username := u; Helpers.user_password := Js.js "pw" |} in
  let env users user reuse pre :=
    {| Helpers.MYSTAPP_PASSWORD := Some (Js.js "pw");
       Helpers.MYSTAPP_USERS := users;
       Helpers.MYSTAPP_USER_PREFIX := pre;
       Helpers.MYSTAPP_USER := user;
       Helpers.MYSTAPP_USERNAME := None;
       Helpers.MYSTAPP_REUSE_SINGLE_USER := reuse |} in
  let listed := env (Some (Js.js "a,b,c")) None None None in
  let solo := env None (Some (Js.js "solo")) None None in
  let reused := env None (Some (Js.js "solo")) (Some (Js.js "1")) None in
  let generated := env None None None (Some (Js.js "user")) in
  let nothing := env None None None None in
  Helpers.requireMystappUsers listed None 2 = Helpers.Ok [cred (Js.js "a"); cred (Js.js "b")]
  /\ Helpers.requireMystappUsers listed None 4
     = Helpers.Throw (Helpers.UserListTooShort 3 4)
  /\ Helpers.requireMystappUsers solo None 1 = Helpers.Ok [cred (Js.js "solo")]
  /\ Helpers.requireMystappUsers solo None 3
     = Helpers.Throw Helpers.SingleUserNotReusable
  /\ Helpers.requireMystappUsers reused None 3
     = Helpers.Ok [cred (Js.js "solo"); cred (Js.js "solo"); cred (Js.js "solo")]
  /\ Helpers.requireMystappUsers generated None 3
     = Helpers.Ok [cred (Js.js "user01"); cred (Js.js "user02"); cred (Js.js "user03")]
  /\ Helpers.requireMystappUsers nothing None 1
     = Helpers.Throw Helpers.MissingCredentials.
Proof.
  intros cred env listed solo reused generated nothing.
  split; [|split; [|split; [|split; [|split; [|split]]]]].
  - destruct (requireMystappUsers_contract listed None 2 ltac:(lia)) as (Ha & _).
    destruct (Ha (Js.js "pw")) as (_ & Hok); [discriminate|reflexivity|].
    rewrite Hok; [reflexivity|]. vm_compute. discriminate.
  - destruct (requireMystappUsers_contract listed None 4 ltac:(lia)) as (Ha & _).
    destruct (Ha (Js.js "pw")) as (Hshort & _); [discriminate|reflexivity|].
    rewrite Hshort; [reflexivity|]. vm_compute. reflexivity.
  - destruct (requireMystappUsers_contract solo None 1 ltac:(lia)) as (_ & Hb & _).
    destruct (Hb (Js.js "solo") (Js.js "pw")) as (H1 & _); [reflexivity..|].
    by rewrite H1.
  - destruct (requireMystappUsers_contract solo None 3 ltac:(lia)) as (_ & Hb & _).
    destruct (Hb (Js.js "solo") (Js.js "pw")) as (_ & H2 & _); [reflexivity..|].
    rewrite H2; [reflexivity|lia|discriminate].
  - destruct (requireMystappUsers_contract reused None 3 ltac:(lia)) as (_ & Hb & _).
    destruct (Hb (Js.js "solo") (Js.js "pw")) as (_ & _ & H3); [reflexivity..|].
    rewrite H3; [reflexivity|lia|reflexivity].
  - destruct (requireMystappUsers_contract generated None 3 ltac:(lia))
      as (_ & _ & Hc & _).
    destruct (Hc (Js.js "user") (Js.js "pw")) as (H1 & _); [reflexivity..|].
    by rewrite H1.
  - destruct (requireMystappUsers_contract nothing None 1 ltac:(lia))
      as (_ & _ & _ & _ & Hd).
    rewrite Hd; [reflexivity|reflexivity|reflexivity|]. by left.
Defined.

(** ** The wait for the results grid *)

Section GridFacts.

Import Invoices.

Variable page : nat -> poll.

(** The loop ends: time advances with every turn. *)
Lemma poll_loop_total fuel : forall i now saw,
  timeout_ms - now <= Z.of_nat fuel ->
  is_Some (poll_loop fuel page i now saw).
Proof.
  induction fuel as [|fuel IH]; intros i now saw Hfuel; cbn [poll_loop].
  - destruct (Z.ltb_spec now timeout_ms); [lia|eauto].
  - destruct (Z.ltb_spec now timeout_ms); [|eauto].
    destruct (2 <=? row_count (page i))%nat; [eauto|].
    apply IH. lia.
Qed.

(** What the loop has seen when it ends. *)
Lemma poll_loop_spec fuel : forall i now saw r,
  poll_loop fuel page i now saw = Some r ->
  (i <= polls r)%nat
  /\ now <= ended_at r
  /\ (exit r = Broke ->
      (i < polls r)%nat /\ (2 <= row_count (page (polls r - 1)))%nat
      /\ ended_at r < timeout_ms
      /\ forall j, (i <= j < polls r - 1)%nat -> (row_count (page j) < 2)%nat)
  /\ (exit r = Expired ->
      timeout_ms <= ended_at r
      /\ forall j, (i <= j < polls r)%nat -> (row_count (page j) < 2)%nat)
  /\ (sawEmpty r = true <->
      saw = true
      \/ exists j, (i <= j < polls r)%nat /\ (row_count (page j) < 2)%nat
                   /\ emptyVisible (page j) = true).
Proof.
  induction fuel as [|fuel IH]; intros i now saw r; cbn [poll_loop].
  - destruct (Z.ltb_spec now timeout_ms); [discriminate|].
    intros [= <-]. simpl. repeat split; try lia; try discriminate.
    + auto.
    + intros [H'|(j & Hj & _)]; [exact H'|lia].
  - destruct (Z.ltb_spec now timeout_ms) as [Hnow|Hnow].
    + destruct (Nat.leb_spec 2 (row_count (page i))) as [Hrows|Hrows].
      * intros [= <-]. simpl. rewrite Nat.sub_0_r.
        repeat split; try lia; try discriminate; auto.
        intros [H'|(j & Hj & Hlt & _)]; [exact H'|].
        assert (j = i) by lia. subst j. lia.
      * intros Hr. apply IH in Hr as (Hi & Ht & Hb & He & Hs).
        split; [lia|]. split; [lia|]. split; [|split].
        -- intros Hx. destruct (Hb Hx) as (H1 & H2 & H3 & H4).
           repeat split; try lia; auto.
           intros j Hj. destruct (decide (j = i)) as [->|Hne]; [exact Hrows|].
           apply H4. lia.
        -- intros Hx. destruct (He Hx) as (H1 & H2). split; [exact H1|].
           intros j Hj. destruct (decide (j = i)) as [->|Hne]; [exact Hrows|].
           apply H2. lia.
        -- rewrite Hs. split.
           ++ intros [Hsaw|(j & Hj & Hlt & Hv)].
              ** destruct (emptyVisible (page i)) eqn:Hv; [|by left].
                 right. exists i. repeat split; try lia; auto.
              ** right. exists j. repeat split; try lia; auto.
           ++ intros [->|(j & Hj & Hlt & Hv)].
              ** left. by destruct (emptyVisible (page i)).
              ** destruct (decide (j = i)) as [->|Hne].
                 --- left. by rewrite Hv.
                 --- right. exists j. repeat split; try lia; auto.
    + intros [= <-]. simpl. repeat split; try lia; try discriminate.
      * auto.
      * intros [H'|(j & Hj & _)]; [exact H'|lia].
Qed.

End GridFacts.

(** C5.  The wait at an input where it breaks parts (i) and (ii) of the
    claim about the grid, and its own comment ("only treat the empty state
    as final when the overall wait expires"): the counts are read again
    after the loop, and the decision is taken on those.  Here the first poll
    sees no row and the text "No record found", the second poll, 250 ms
    later, sees two rows and ends the loop, and the counts read after the
    loop are 0 again: the wait ends as "confirmed empty", 250 ms after it
    began, where [waitForServiceVehiclesGridReady] returns "data" from
    inside its loop. *)
Lemma grid_wait_confirmed_empty_before_deadline :
  let page := fun i : nat =>
    match i with
    | O => {| Invoices.cssCount := 0; Invoices.roleCount := 0;
              Invoices.emptyVisible := true; Invoices.elapsed := 250 |}
    | _ => {| Invoices.cssCount := 2; Invoices.roleCount := 0;
              Invoices.emptyVisible := false; Invoices.elapsed := 250 |}
    end in
  exists r,
    Invoices.grid_wait true page 0 0 = Some (Invoices.NotClicked, r)
    /\ (1 < Invoices.polls r)%nat
    /\ (2 <= Invoices.row_count (page 1%nat))%nat
    /\ Invoices.exit r = Invoices.Broke
    /\ Invoices.ended_at r < Invoices.timeout_ms
    /\ Invoices.confirmed_empty Invoices.NotClicked = true
    /\ ~ (forall o r',
            Invoices.grid_wait true page 0 0 = Some (o, r') ->
            (exists j, (j < Invoices.polls r')%nat
                       /\ (2 <= Invoices.row_count (page j))%nat) ->
            o = Invoices.ReadyWithData)
    /\ ~ (forall o r',
            Invoices.grid_wait true page 0 0 = Some (o, r') ->
            Invoices.confirmed_empty o = true ->
            Invoices.timeout_ms <= Invoices.ended_at r').
Proof.
  intros page.
  exists {| Invoices.sawEmpty := true; Invoices.exit := Invoices.Broke;
            Invoices.polls := 2; Invoices.ended_at := 250 |}.
  assert (Hrun : Invoices.grid_wait true page 0 0
                 = Some (Invoices.NotClicked,
                         {| Invoices.sawEmpty := true; Invoices.exit := Invoices.Broke;
                            Invoices.polls := 2; Invoices.ended_at := 250 |}))
    by (vm_compute; reflexivity).
  split; [exact Hrun|]. split; [simpl; lia|]. split; [vm_compute; lia|].
  split; [reflexivity|]. split; [reflexivity|]. split; [reflexivity|]. split.
  - intros H. specialize (H _ _ Hrun).
    assert (Invoices.NotClicked = Invoices.ReadyWithData); [|discriminate].
    apply H. exists 1%nat. split; [simpl; lia|vm_compute; lia].
  - intros H. specialize (H _ _ Hrun eq_refl). simpl in H. unfold Invoices.timeout_ms in H. lia.
Qed.

(** What the wait does, from its loop on (the table is visible).  It
    always ends, with these results.  The loop ends
    before the deadline exactly when a poll sees two rows or more, and then
    at once; a visible "No record found" never ends it, it is only
    remembered.  The outcome is "ready with data" exactly when the counts
    read after the loop show two rows or more.  When the deadline has passed
    and those counts are below two, the outcome is "confirmed empty" if the
    text was seen by some poll (not clicked when empty is allowed, an error
    otherwise) and the ambiguous-timeout error if it never was. *)
Theorem grid_wait_outcome
    (allowEmpty : bool) (page : nat -> Invoices.poll)
    (cssCountFinal roleCountFinal : nat) :
  exists o r,
    Invoices.grid_wait allowEmpty page cssCountFinal roleCountFinal = Some (o, r)
    /\ (Invoices.exit r = Invoices.Broke <->
        exists j, (j < Invoices.polls r)%nat
                  /\ (2 <= Invoices.row_count (page j))%nat)
    /\ (Invoices.exit r = Invoices.Broke ->
        (2 <= Invoices.row_count (page (Invoices.polls r - 1)%nat))%nat
        /\ Invoices.ended_at r < Invoices.timeout_ms)
    /\ (Invoices.exit r = Invoices.Expired ->
        Invoices.timeout_ms <= Invoices.ended_at r)
    /\ (Invoices.sawEmpty r = true <->
        exists j, (j < Invoices.polls r)%nat
                  /\ (Invoices.row_count (page j) < 2)%nat
                  /\ Invoices.emptyVisible (page j) = true)
    /\ (o = Invoices.ReadyWithData <-> (2 <= Nat.max cssCountFinal roleCountFinal)%nat)
    /\ (Invoices.exit r = Invoices.Expired ->
        (Nat.max cssCountFinal roleCountFinal < 2)%nat ->
        Invoices.sawEmpty r = true ->
        o = if allowEmpty then Invoices.NotClicked else Invoices.ErrorNoRecord)
    /\ (Invoices.exit r = Invoices.Expired ->
        (Nat.max cssCountFinal roleCountFinal < 2)%nat ->
        Invoices.sawEmpty r = false ->
        o = Invoices.ErrorDidNotLoad).
Proof.
  unfold Invoices.grid_wait.
  destruct (poll_loop_total page (Z.to_nat Invoices.timeout_ms) 0 0 false) as [r Hr].
  { unfold Invoices.timeout_ms. lia. }
  rewrite Hr. eexists _, r. split; [reflexivity|].
  apply poll_loop_spec in Hr as (_ & _ & Hb & He & Hs).
  assert (Hout : forall saw,
            Invoices.after_loop allowEmpty saw cssCountFinal roleCountFinal
            = if (Nat.max cssCountFinal roleCountFinal <? 2)%nat
              then if saw then (if allowEmpty then Invoices.NotClicked
                                else Invoices.ErrorNoRecord)
                   else Invoices.ErrorDidNotLoad
              else Invoices.ReadyWithData).
  { intros saw. unfold Invoices.after_loop.
    destruct (Nat.max cssCountFinal roleCountFinal <? 2)%nat, saw; reflexivity. }
  rewrite Hout.
  split; [|split; [|split; [|split; [|split; [|split]]]]].
  - split.
    + intros Hx. destruct (Hb Hx) as (H1 & H2 & _).
      exists (Invoices.polls r - 1)%nat. split; [lia|exact H2].
    + intros (j & Hj & Hrows). destruct (Invoices.exit r) eqn:Hx; [reflexivity|].
      destruct (He eq_refl) as (_ & Hall). specialize (Hall j). lia.
  - intros Hx. destruct (Hb Hx) as (_ & H2 & H3 & _). auto.
  - intros Hx. by destruct (He Hx).
  - rewrite Hs. split.
    + intros [?|(j & Hj & H')]; [discriminate|]. exists j. split; [lia|exact H'].
    + intros (j & Hj & H'). right. exists j. split; [lia|exact H'].
  - destruct (Nat.ltb_spec (Nat.max cssCountFinal roleCountFinal) 2).
    + split; [|lia]. destruct (Invoices.sawEmpty r), allowEmpty; discriminate.
    + split; [lia|reflexivity].
  - intros _ Hlt ->. by destruct (Nat.ltb_spec (Nat.max cssCountFinal roleCountFinal) 2); [|lia].
  - intros _ Hlt ->. by destruct (Nat.ltb_spec (Nat.max cssCountFinal roleCountFinal) 2); [|lia].
Qed.

(** The text "No record found" stays visible and no second row ever
    shows: after 45 s the empty state is final. *)
Lemma grid_wait_outcome_witness :
  let page := fun _ : nat =>
    {| Invoices.cssCount := 1; Invoices.roleCount := 0;
       Invoices.emptyVisible := true; Invoices.elapsed := 250 |} in
  exists r,
    Invoices.grid_wait false page 1 0 = Some (Invoices.ErrorNoRecord, r)
    /\ Invoices.exit r = Invoices.Expired.
Proof.
  intros page.
  destruct (grid_wait_outcome false page 1 0)
    as (o & r & Hrun & _ & _ & _ & _ & _ & Hempty & _).
  assert (Hr : Invoices.exit r = Invoices.Expired /\ Invoices.sawEmpty r = true).
  { assert (Hc : Invoices.grid_wait false page 1 0
                 = Some (Invoices.ErrorNoRecord,
                         {| Invoices.sawEmpty := true; Invoices.exit := Invoices.Expired;
                            Invoices.polls := 180; Invoices.ended_at := 45000 |}))
      by (vm_compute; reflexivity).
    rewrite Hc in Hrun. injection Hrun as _ <-. split; reflexivity. }
  destruct Hr as [Hx Hs]. exists r. split; [|exact Hx].
  rewrite Hrun. f_equal. f_equal. apply Hempty; [exact Hx|simpl; lia|exact Hs].
Defined.

(* ===================================================================== *)
(** * Further properties of the code                                      *)
(* ===================================================================== *)

(** ** The sort and the two percentile computations *)

Section PercentileFacts.

Import Percentile.

Lemma insert_sorted_perm x l : insert_sorted x l ≡ₚ x :: l.
Proof.
  induction l as [|y l IH]; simpl; [reflexivity|].
  destruct (x <=? y); [reflexivity|]. rewrite IH. apply Permutation_swap.
Qed.

Lemma sort_ascending_perm l : sort_ascending l ≡ₚ l.
Proof.
  induction l as [|x l IH]; simpl; [reflexivity|].
  rewrite insert_sorted_perm. by rewrite IH.
Qed.

Lemma insert_sorted_sorted x l :
  StronglySorted Z.le l -> StronglySorted Z.le (insert_sorted x l).
Proof.
  induction 1 as [|y l Hl IH Hy]; simpl.
  - repeat constructor.
  - destruct (Z.leb_spec x y) as [Hxy|Hxy].
    + constructor; [by constructor|]. constructor; [exact Hxy|].
      eapply Forall_impl; [exact Hy|]. intros z Hz. simpl in Hz. lia.
    + constructor; [exact IH|]. rewrite insert_sorted_perm.
      constructor; [lia|exact Hy].
Qed.

Lemma sort_ascending_sorted l : StronglySorted Z.le (sort_ascending l).
Proof.
  induction l as [|x l IH]; simpl; [constructor|]. by apply insert_sorted_sorted.
Qed.

Lemma sort_ascending_length l : length (sort_ascending l) = length l.
Proof. apply Permutation_length, sort_ascending_perm. Qed.

Lemma sort_ascending_permutation l l' :
  l ≡ₚ l' -> sort_ascending l = sort_ascending l'.
Proof.
  intros H. apply (StronglySorted_unique Z.le); try apply sort_ascending_sorted.
  by rewrite !sort_ascending_perm.
Qed.

Lemma sorted_lookup_le l : forall i j a b,
  StronglySorted Z.le l -> (i <= j)%nat ->
  l !! i = Some a -> l !! j = Some b -> a <= b.
Proof.
  induction l as [|x l IH]; intros i j a b Hs Hij Hi Hj; [discriminate|].
  apply StronglySorted_inv in Hs as [Hs Hx].
  destruct i as [|i], j as [|j]; simpl in *; try lia.
  - injection Hi as <-. injection Hj as <-. lia.
  - injection Hi as <-. rewrite Forall_forall in Hx. apply Hx.
    eapply list_elem_of_lookup_2; eauto.
  - apply (IH i j a b); auto. lia.
Qed.

Lemma index_in_range (arr : list Z) i :
  0 <= i < Z.of_nat (length arr) -> exists x, index arr i = Some x /\ x ∈ arr.
Proof.
  intros Hi. unfold index. destruct (Z.ltb_spec i 0); [lia|].
  destruct (lookup_lt_is_Some_2 arr (Z.to_nat i)) as [x Hx]; [lia|].
  exists x. split; [exact Hx|]. eapply list_elem_of_lookup_2; eauto.
Qed.

Lemma index_sorted_le (arr : list Z) i j a b :
  StronglySorted Z.le arr -> 0 <= i <= j ->
  index arr i = Some a -> index arr j = Some b -> a <= b.
Proof.
  unfold index. intros Hs Hij.
  destruct (Z.ltb_spec i 0); [lia|]. destruct (Z.ltb_spec j 0); [lia|].
  apply sorted_lookup_le; [exact Hs|lia].
Qed.

Lemma stress_index_range percent len :
  0 <= percent < 100 -> 0 < len -> 0 <= stress_index percent len < len.
Proof.
  intros Hp Hl. unfold stress_index. Z.div_mod_to_equations. nia.
Qed.

Lemma stress_index_mono p q len :
  0 <= len -> p <= q -> stress_index p len <= stress_index q len.
Proof.
  intros Hl Hpq. unfold stress_index. apply Z.div_le_mono; [lia|nia].
Qed.

Lemma perf_clamp_range len idx :
  0 < len -> 0 <= perf_clamp len idx < len.
Proof. unfold perf_clamp. lia. Qed.

Lemma perf_index_mono p q len :
  0 <= len -> p <= q -> perf_index p len <= perf_index q len.
Proof.
  intros Hl Hpq. unfold perf_index.
  assert ((len * p + 99) / 100 <= (len * q + 99) / 100); [|lia].
  apply Z.div_le_mono; [lia|nia].
Qed.

Lemma perf_index_le_stress_index p len :
  perf_index p len <= stress_index p len <= perf_index p len + 1.
Proof. unfold perf_index, stress_index. Z.div_mod_to_equations. lia. Qed.

Lemma length_pos_Z (l : list Z) : l <> [] -> 0 < Z.of_nat (length l).
Proof. destruct l; [congruence|simpl; lia]. Qed.

Lemma stress_percentile_spec percent timings :
  0 <= percent < 100 -> timings <> [] ->
  index (sort_ascending timings)
        (stress_index percent (Z.of_nat (length timings)))
  = Some (stress_percentile percent timings)
  /\ stress_percentile percent timings ∈ timings.
Proof.
  intros Hp Hne. unfold stress_percentile, stress_select, index_or_0.
  rewrite sort_ascending_length.
  destruct (index_in_range (sort_ascending timings)
              (stress_index percent (Z.of_nat (length timings)))) as (x & -> & Hx).
  { rewrite sort_ascending_length. apply stress_index_range; [exact Hp|].
    by apply length_pos_Z. }
  simpl. split; [reflexivity|]. by rewrite sort_ascending_perm in Hx.
Qed.

Lemma stress_max_spec timings :
  timings <> [] ->
  index (sort_ascending timings) (Z.of_nat (length timings) - 1)
  = Some (stress_max timings)
  /\ stress_max timings ∈ timings
  /\ forall x, x ∈ timings -> x <= stress_max timings.
Proof.
  intros Hne. pose proof (length_pos_Z _ Hne) as Hlen.
  unfold stress_max, index_or_0. rewrite sort_ascending_length.
  destruct (index_in_range (sort_ascending timings)
              (Z.of_nat (length timings) - 1)) as (m & Hm & Hin).
  { rewrite sort_ascending_length. lia. }
  rewrite Hm. simpl. split; [reflexivity|].
  split; [by rewrite sort_ascending_perm in Hin|].
  intros x Hx. rewrite <- sort_ascending_perm in Hx.
  apply list_elem_of_lookup in Hx as [i Hi].
  pose proof (lookup_lt_Some _ _ _ Hi) as Hlt. rewrite sort_ascending_length in Hlt.
  apply (index_sorted_le (sort_ascending timings) (Z.of_nat i)
           (Z.of_nat (length timings) - 1)); [apply sort_ascending_sorted|lia| |exact Hm].
  unfold index. destruct (Z.ltb_spec (Z.of_nat i) 0); [lia|]. by rewrite Nat2Z.id.
Qed.

Lemma stress_percentile_mono p q timings :
  0 <= p -> p <= q -> q < 100 ->
  stress_percentile p timings <= stress_percentile q timings.
Proof.
  intros Hp Hpq Hq. destruct (decide (timings = [])) as [->|Hne]; [reflexivity|].
  destruct (stress_percentile_spec p timings) as [H1 _]; [lia|exact Hne|].
  destruct (stress_percentile_spec q timings) as [H2 _]; [lia|exact Hne|].
  eapply index_sorted_le; [apply sort_ascending_sorted| |exact H1|exact H2].
  pose proof (stress_index_range p (Z.of_nat (length timings))
                ltac:(lia) (length_pos_Z _ Hne)).
  pose proof (stress_index_mono p q (Z.of_nat (length timings)) ltac:(lia) Hpq). lia.
Qed.

Lemma stress_percentile_le_max p timings :
  0 <= p < 100 -> stress_percentile p timings <= stress_max timings.
Proof.
  intros Hp. destruct (decide (timings = [])) as [->|Hne]; [reflexivity|].
  destruct (stress_percentile_spec p timings Hp Hne) as [_ H1].
  destruct (stress_max_spec timings Hne) as (_ & _ & H2). by apply H2.
Qed.

Lemma perf_select_spec percent values :
  values <> [] ->
  exists x,
    percentile values percent = Some x
    /\ index (sort_ascending values)
         (perf_clamp (Z.of_nat (length values))
            (perf_index percent (Z.of_nat (length values)))) = Some x
    /\ x ∈ values.
Proof.
  intros Hne. unfold percentile, perf_select.
  destruct values as [|v values]; [congruence|]. cbn [length Nat.eqb].
  rewrite sort_ascending_length.
  destruct (index_in_range (sort_ascending (v :: values))
              (perf_clamp (Z.of_nat (length (v :: values)))
                 (perf_index percent (Z.of_nat (length (v :: values))))))
    as (x & Hx & Hin).
  { rewrite sort_ascending_length. apply perf_clamp_range. simpl. lia. }
  exists x. split; [exact Hx|]. split; [exact Hx|].
  by rewrite sort_ascending_perm in Hin.
Qed.

End PercentileFacts.

(** X1.  The percentiles of the stress report are ordered, whatever the
    durations: p50 <= p90 <= p95 <= p99 <= max. *)
Theorem stress_report_ordered (timings : list Z) :
  let r := Percentile.stress_report timings in
  Percentile.p50 r <= Percentile.p90 r
  /\ Percentile.p90 r <= Percentile.p95 r
  /\ Percentile.p95 r <= Percentile.p99 r
  /\ Percentile.p99 r <= Percentile.max r.
Proof.
  simpl. repeat split; try (apply stress_percentile_mono; lia).
  apply stress_percentile_le_max. lia.
Qed.

(** X2.  With at least one duration, every figure of the stress report is one
    of the durations (the fallback to 0 is not taken), and max is the
    greatest of them. *)
Theorem stress_report_of_durations (timings : list Z) :
  timings <> [] ->
  let r := Percentile.stress_report timings in
  Percentile.p50 r ∈ timings /\ Percentile.p90 r ∈ timings
  /\ Percentile.p95 r ∈ timings /\ Percentile.p99 r ∈ timings
  /\ Percentile.max r ∈ timings
  /\ forall x, x ∈ timings -> x <= Percentile.max r.
Proof.
  intros Hne. simpl.
  repeat split; try (apply stress_percentile_spec; [lia|exact Hne]);
    by apply stress_max_spec.
Qed.

Lemma stress_report_of_durations_witness :
  let r := Percentile.stress_report [300; 100; 200] in
  Percentile.p50 r ∈ [300; 100; 200] /\ Percentile.max r ∈ [300; 100; 200].
Proof.
  destruct (stress_report_of_durations [300; 100; 200]) as (H1 & _ & _ & _ & H5 & _);
    [discriminate|]. split; [exact H1|exact H5].
Defined.

(** X3.  The stress report does not depend on the order in which the logins
    complete: it is the same for any rearrangement of the durations. *)
Theorem stress_report_order_independent (timings timings' : list Z) :
  timings ≡ₚ timings' ->
  Percentile.stress_report timings = Percentile.stress_report timings'.
Proof.
  intros H. unfold Percentile.stress_report, Percentile.stress_percentile,
    Percentile.stress_max.
  by rewrite (sort_ascending_permutation _ _ H).
Qed.

Lemma stress_report_order_independent_witness :
  Percentile.stress_report [120; 300; 250] = Percentile.stress_report [300; 250; 120].
Proof.
  apply stress_report_order_independent.
  change ([120; 300; 250] ≡ₚ [300; 250] ++ [120]).
  apply (Permutation_cons_append [300; 250] 120).
Defined.

(** X4.  When the assertion on the maximum passes, every single login took at
    most the allowed time. *)
Theorem slo_max_bounds_every_duration
    (maxAllowed : Q) (p95Allowed p99Allowed : option Q) (timings : list Z) :
  Percentile.slo_assertions (Some maxAllowed) p95Allowed p99Allowed
    (Percentile.stress_report timings) = true ->
  forall x, x ∈ timings -> (inject_Z x <= maxAllowed)%Q.
Proof.
  unfold Percentile.slo_assertions. intros H x Hx.
  apply andb_true_iff in H as [H _]. apply andb_true_iff in H as [H _].
  simpl in H. apply Qle_bool_iff in H.
  assert (Hne : timings <> []) by (intros ->; by apply elem_of_nil in Hx).
  destruct (stress_max_spec timings Hne) as (_ & _ & Hmax).
  eapply Qle_trans; [|exact H]. rewrite <- Zle_Qle. by apply Hmax.
Qed.

(** Three logins, the slowest of 300 ms, under a maximum of 300 ms. *)
Lemma slo_max_bounds_every_duration_witness :
  Percentile.slo_assertions (Some (300 # 1)) None None
    (Percentile.stress_report [120; 300; 250]) = true
  /\ (inject_Z 250 <= 300 # 1)%Q.
Proof.
  split; [reflexivity|].
  apply (slo_max_bounds_every_duration (300 # 1) None None [120; 300; 250] eq_refl).
  apply list_elem_of_further, list_elem_of_further, list_elem_of_here.
Defined.

(** X5.  The aggregator's [percentile] is [undefined] exactly for the empty
    list; otherwise it is one of the values. *)
Theorem percentile_is_a_value (values : list Z) (percent : Z) :
  (Percentile.percentile values percent = None <-> values = [])
  /\ forall x, Percentile.percentile values percent = Some x -> x ∈ values.
Proof.
  destruct (decide (values = [])) as [->|Hne].
  - split; [by split|]. discriminate.
  - destruct (perf_select_spec percent values Hne) as (x & Hx & _ & Hin).
    rewrite Hx. split; [split; [discriminate|contradiction]|].
    by intros y [= <-].
Qed.

Lemma percentile_is_a_value_witness :
  Percentile.percentile [40; 10; 30] 90 = Some 40 /\ 40 ∈ [40; 10; 30].
Proof.
  split; [reflexivity|].
  apply (proj2 (percentile_is_a_value [40; 10; 30] 90)). reflexivity.
Defined.

(** X6.  The aggregator's [percentile] does not depend on the order of the
    values. *)
Theorem percentile_order_independent (values values' : list Z) (percent : Z) :
  values ≡ₚ values' ->
  Percentile.percentile values percent = Percentile.percentile values' percent.
Proof.
  intros H. unfold Percentile.percentile.
  rewrite (Permutation_length H), (sort_ascending_permutation _ _ H). reflexivity.
Qed.

Lemma percentile_order_independent_witness :
  Percentile.percentile [40; 10; 30] 50 = Percentile.percentile [10; 30; 40] 50.
Proof.
  apply percentile_order_independent.
  change ([40; 10; 30] ≡ₚ [10; 30] ++ [40]).
  apply (Permutation_cons_append [10; 30] 40).
Defined.

(** X7.  The figures of an aggregate are ordered: at the levels that the
    aggregator asks for, 50, 90, 95 and 99, its [percentile] grows with the
    level. *)
Theorem percentile_monotone (values : list Z) (p q a b : Z) :
  p ∈ Percentile.levels ->
  q ∈ Percentile.levels ->
  p <= q ->
  Percentile.percentile values p = Some a ->
  Percentile.percentile values q = Some b ->
  a <= b.
Proof.
  intros _ _ Hpq Ha Hb.
  assert (Hne : values <> []) by (intros ->; discriminate).
  pose proof (length_pos_Z _ Hne) as Hlen.
  destruct (perf_select_spec p values Hne) as (a' & Ha' & Hia & _).
  destruct (perf_select_spec q values Hne) as (b' & Hb' & Hib & _).
  rewrite Ha in Ha'. injection Ha' as <-. rewrite Hb in Hb'. injection Hb' as <-.
  eapply index_sorted_le; [apply sort_ascending_sorted| |exact Hia|exact Hib].
  pose proof (perf_index_mono p q (Z.of_nat (length values)) ltac:(lia) Hpq).
  unfold Percentile.perf_clamp. lia.
Qed.

(** Twenty values, at the levels 50 and 95. *)
Lemma percentile_monotone_witness :
  let values := [12; 7; 19; 3; 15; 1; 20; 9; 5; 17; 2; 14; 8; 11; 4; 18; 6; 13; 10; 16] in
  Percentile.percentile values 50 = Some 10
  /\ Percentile.percentile values 95 = Some 19
  /\ 10 <= 19.
Proof.
  intros values. split; [reflexivity|]. split; [reflexivity|].
  apply (percentile_monotone values 50 95 10 19);
    [apply list_elem_of_here
    |apply list_elem_of_further, list_elem_of_further, list_elem_of_here
    |lia|reflexivity|reflexivity].
Defined.

(** X8.  At each of the levels 50, 90, 95 and 99, which both use, the
    aggregator never reports more than the stress scenario on the same
    values: the index it reads is the stress scenario's or the one before. *)
Theorem percentile_below_stress (values : list Z) (percent a : Z) :
  percent ∈ Percentile.levels ->
  Percentile.percentile values percent = Some a ->
  a <= Percentile.stress_percentile percent values
  /\ let len := Z.of_nat (length values) in
     Percentile.stress_index percent len - 1
     <= Percentile.perf_clamp len (Percentile.perf_index percent len)
     <= Percentile.stress_index percent len.
Proof.
  intros Hlevel Ha.
  assert (Hp : 0 <= percent < 100).
  { unfold Percentile.levels in Hlevel.
    rewrite !elem_of_cons, elem_of_nil in Hlevel. lia. }
  assert (Hne : values <> []) by (intros ->; discriminate).
  pose proof (length_pos_Z _ Hne) as Hlen.
  destruct (perf_select_spec percent values Hne) as (a' & Ha' & Hia & _).
  rewrite Ha in Ha'. injection Ha' as <-.
  destruct (stress_percentile_spec percent values Hp Hne) as [Hs _].
  pose proof (perf_index_le_stress_index percent (Z.of_nat (length values))) as Hi.
  pose proof (stress_index_range percent _ Hp Hlen) as Hr.
  assert (Hcl : Percentile.stress_index percent (Z.of_nat (length values)) - 1
                <= Percentile.perf_clamp (Z.of_nat (length values))
                     (Percentile.perf_index percent (Z.of_nat (length values)))
                <= Percentile.stress_index percent (Z.of_nat (length values))).
  { unfold Percentile.perf_clamp. lia. }
  split; [|exact Hcl].
  eapply index_sorted_le; [apply sort_ascending_sorted| |exact Hia|exact Hs].
  unfold Percentile.perf_clamp in *. lia.
Qed.

(** Two values at level 50: the aggregator reports 10, the stress
    scenario 20. *)
Lemma percentile_below_stress_witness :
  Percentile.percentile [20; 10] 50 = Some 10
  /\ Percentile.p50 (Percentile.stress_report [20; 10]) = 20
  /\ 10 <= Percentile.stress_percentile 50 [20; 10].
Proof.
  split; [reflexivity|]. split; [reflexivity|].
  apply (percentile_below_stress [20; 10] 50 10); [apply list_elem_of_here|reflexivity].
Defined.

(** The exact index formulas are those of the doubles, at the four levels,
    for every length up to 1000. *)
Lemma index_formulas_exact_on_doubles :
  forallb Percentile.exact_at (Z.of_nat <$> seq 0 1001) = true.
Proof. vm_compute. reflexivity. Qed.

(** At other levels they need not be: 7% of a hundred values. *)
Lemma perf_index_differs_on_doubles :
  Percentile.perf_index_binary64 7 100 = Some 7 /\ Percentile.perf_index 7 100 = 6.
Proof. split; vm_compute; reflexivity. Qed.

(** ** The worker pool, at every moment of a run *)

Section StressMoreFacts.

Import Stress.

Variable N : nat.

Lemma count_le_length (f : worker_status -> bool) (ws : list worker_status) :
  (count f ws <= length ws)%nat.
Proof. induction ws as [|st ws IH]; simpl; [lia|]. destruct (f st); lia. Qed.

Lemma step_logins_workers e p p' :
  step N e p = Some p' ->
  Forall (fun wi => (wi.1 < length (workers p))%nat) (logins p) ->
  Forall (fun wi => (wi.1 < length (workers p'))%nat) (logins p').
Proof.
  intros Hstep Hl. destruct e as [w|w d|w]; simpl in Hstep;
    destruct (workers p !! w) as [[|cur| |]|] eqn:Hw; try discriminate;
    injection Hstep as <-; unfold claim, resolve, reject;
    try destruct (N <=? next p)%nat; simpl; rewrite length_insert; try exact Hl.
  apply Forall_app. split; [exact Hl|]. constructor; [|constructor].
  simpl. eapply lookup_lt_Some; eauto.
Qed.

Lemma run_logins_workers sched : forall p p',
  run N sched p = Some p' ->
  Forall (fun wi => (wi.1 < length (workers p))%nat) (logins p) ->
  Forall (fun wi => (wi.1 < length (workers p'))%nat) (logins p').
Proof.
  induction sched as [|e sched IH]; intros p p' Hrun Hl; simpl in Hrun.
  - by injection Hrun as <-.
  - destruct (step N e p) as [q|] eqn:Hstep; [|discriminate].
    eapply IH; eauto using step_logins_workers.
Qed.

Lemma run_timings sched : forall p p',
  run N sched p = Some p' ->
  timings p' = timings p ++ omap pushed_duration sched.
Proof.
  induction sched as [|e sched IH]; intros p p' Hrun; simpl in Hrun.
  - injection Hrun as <-. by rewrite app_nil_r.
  - destruct (step N e p) as [q|] eqn:Hstep; [|discriminate].
    rewrite (IH _ _ Hrun). destruct e as [w|w d|w]; simpl in Hstep;
      destruct (workers p !! w) as [[|cur| |]|]; try discriminate;
      injection Hstep as <-; unfold claim, resolve, reject;
      try destruct (N <=? next p)%nat; simpl; try reflexivity.
    all: by rewrite <- app_assoc.
Qed.

End StressMoreFacts.

(** ** The number of workers that a concurrency gives *)

Section ConcurrencyFacts.

Import Js.

Lemma array_like_length_one : array_like_length (Finite 1) = Some 1%nat.
Proof. reflexivity. Qed.

(** [Math.max(1, x)] makes at least one worker of every number, and none
    of NaN. *)
Lemma workers_of_concurrency (c : number) (n : nat) :
  array_like_length (Math_max_1 c) = Some n ->
  (c = NaN /\ n = 0%nat) \/ (c <> NaN /\ (1 <= n)%nat).
Proof.
  destruct c as [| |q|]; cbn [Math_max_1].
  - intros [= <-]. by left.
  - rewrite array_like_length_one. intros [= <-]. right. split; [discriminate|lia].
  - intros H. right. split; [discriminate|].
    destruct (Qle_bool q 1) eqn:Hq.
    + rewrite array_like_length_one in H. injection H as <-. lia.
    + cbn [array_like_length] in H.
      destruct (Z.ltb_spec (Z.max 0 (Z.quot (Qnum q) (Z.pos (Qden q)))) 4294967296);
        [|discriminate].
      injection H as <-.
      unfold Qle_bool in Hq. simpl in Hq. apply Z.leb_gt in Hq.
      assert (1 <= Z.quot (Qnum q) (Z.pos (Qden q))); [|lia].
      apply Z.quot_le_lower_bound; lia.
  - discriminate.
Qed.

(** A concurrency that is a natural number below 2^32. *)
Lemma workers_of_nat (C : nat) :
  Z.of_nat C < 4294967296 ->
  array_like_length (Math_max_1 (Finite (inject_Z (Z.of_nat C))))
  = Some (Nat.max 1 C).
Proof.
  intros HC. simpl. destruct (Qle_bool (inject_Z (Z.of_nat C)) 1) eqn:Hq.
  - rewrite array_like_length_one. f_equal.
    unfold Qle_bool in Hq. simpl in Hq. apply Z.leb_le in Hq. lia.
  - unfold Qle_bool in Hq. simpl in Hq. apply Z.leb_gt in Hq.
    simpl. rewrite Z.quot_1_r.
    destruct (Z.ltb_spec (Z.max 0 (Z.of_nat C)) 4294967296); [|lia].
    f_equal. lia.
Qed.

End ConcurrencyFacts.

(** X9.  Bounded concurrency and ordered hand-out, at every moment of every
    run, also when logins throw, and for every [CONCURRENCY] from which the
    pool starts.  The pool keeps the workers that [Array.from] made: none
    when [CONCURRENCY] is NaN, and then no login is ever started; at least
    one otherwise, [max 1 C] for a natural number [C].  At most that many
    logins are in flight, the indices handed out so far are [0, 1, 2, ...]
    in this order without gap or repetition and below [N], each handed to
    one of the workers, and no more durations are recorded than logins were
    started. *)
Theorem stress_pool_at_every_moment
    (N : nat) (CONCURRENCY : Js.number) (sched : list Stress.event)
    (p0 p : Stress.pool) :
  Stress.launch CONCURRENCY = Some p0 ->
  Stress.run N sched p0 = Some p ->
  let n := length (Stress.workers p) in
  Js.array_like_length (Js.Math_max_1 CONCURRENCY) = Some n
  /\ (CONCURRENCY = Js.NaN -> n = 0%nat /\ Stress.logins p = [])
  /\ (CONCURRENCY <> Js.NaN -> (1 <= n)%nat)
  /\ (forall C : nat,
        CONCURRENCY = Js.Finite (inject_Z (Z.of_nat C)) -> n = Nat.max 1 C)
  /\ (Stress.count Stress.is_awaiting (Stress.workers p) <= n)%nat
  /\ (Stress.logins p).*2 = seq 0 (length (Stress.logins p))
  /\ (length (Stress.logins p) <= N)%nat
  /\ (length (Stress.timings p) <= length (Stress.logins p))%nat
  /\ Forall (fun wi => (wi.1 < n)%nat) (Stress.logins p).
Proof.
  intros Hlaunch Hrun n. unfold Stress.launch in Hlaunch.
  destruct (Js.array_like_length (Js.Math_max_1 CONCURRENCY)) as [n0|] eqn:Hn0;
    [|discriminate].
  injection Hlaunch as <-.
  destruct (run_inv N sched _ _ (inv_pool_of N n0) Hrun) as ([Hl Ht Hr] & _ & Hlen).
  simpl in Hlen. rewrite length_replicate in Hlen. fold n in Hlen. subst n0.
  assert (Hlog : length (Stress.logins p) = Nat.min (Stress.next p) N).
  { rewrite <- (length_fmap snd), Hl. apply length_seq. }
  assert (Hw : Forall (fun wi => (wi.1 < n)%nat) (Stress.logins p)).
  { apply (run_logins_workers N sched _ _ Hrun). constructor. }
  split; [reflexivity|]. split.
  { intros ->. simpl in Hn0. injection Hn0 as Hn0. split; [done|].
    destruct Hw as [|[w i] l Hwi _]; [reflexivity|]. simpl in Hwi. lia. }
  split.
  { intros Hc. destruct (workers_of_concurrency _ _ Hn0) as [[? _]|[_ ?]]; [done|lia]. }
  split.
  { intros C ->.
    destruct (Z.ltb_spec (Z.of_nat C) 4294967296) as [HC|HC].
    - rewrite (workers_of_nat C HC) in Hn0. by injection Hn0.
    - exfalso. simpl in Hn0.
      destruct (Qle_bool (inject_Z (Z.of_nat C)) 1) eqn:Hq.
      + unfold Qle_bool in Hq. simpl in Hq. apply Z.leb_le in Hq. lia.
      + simpl in Hn0. rewrite Z.quot_1_r in Hn0.
        destruct (Z.ltb_spec (Z.max 0 (Z.of_nat C)) 4294967296); [lia|discriminate]. }
  split; [apply count_le_length|].
  split; [by rewrite Hlog|]. split; [lia|]. split; [lia|exact Hw].
Qed.

(** [MYSTAPP_LOGIN_CONCURRENCY=3] and five users: two logins are in
    flight, one has thrown. *)
Lemma stress_pool_at_every_moment_witness :
  let sched := [Stress.Claim 2; Stress.Claim 0; Stress.Reject 2; Stress.Claim 1] in
  exists p,
    Stress.launch (Js.Finite 3) = Some (Stress.pool_of 3)
    /\ Stress.run 5 sched (Stress.pool_of 3) = Some p
    /\ length (Stress.workers p) = 3%nat
    /\ (Stress.count Stress.is_awaiting (Stress.workers p) <= 3)%nat
    /\ (Stress.logins p).*2 = seq 0 (length (Stress.logins p)).
Proof.
  intros sched. eexists. split; [reflexivity|]. split; [reflexivity|].
  match goal with
  | |- context [Stress.workers ?p] =>
      destruct (stress_pool_at_every_moment 5 (Js.Finite 3) sched (Stress.pool_of 3) p
                  eq_refl eq_refl) as (_ & _ & _ & _ & H2 & H3 & _)
  end.
  split; [reflexivity|]. split; [exact H2|exact H3].
Defined.

(** X10.  The durations recorded are those of the logins that completed, in the
    order of completion. *)
Theorem stress_timings_in_completion_order
    (N C : nat) (sched : list Stress.event) (p : Stress.pool) :
  Stress.run N sched (Stress.init C) = Some p ->
  Stress.timings p = omap Stress.pushed_duration sched.
Proof. intros Hrun. by rewrite (run_timings N sched _ _ Hrun). Qed.

Lemma stress_timings_in_completion_order_witness :
  let sched := [Stress.Claim 0; Stress.Claim 1; Stress.Resolve 1 120;
                Stress.Claim 1; Stress.Resolve 0 300; Stress.Claim 0] in
  exists p, Stress.run 2 sched (Stress.init 2) = Some p
            /\ Stress.timings p = [120; 300].
Proof.
  intros sched. eexists. split; [reflexivity|].
  match goal with
  | |- Stress.timings ?p = _ =>
      apply (stress_timings_in_completion_order 2 2 sched p eq_refl)
  end.
Defined.

(** ** Decimal numerals, padded to two digits *)

Section DecimalFacts.

Import Js.

Lemma js_inj s1 s2 : js s1 = js s2 -> s1 = s2.
Proof.
  unfold js. revert s2. induction s1 as [|a s1 IH]; intros [|b s2]; simpl;
    try discriminate; [reflexivity|].
  intros [= Hab Hs]. f_equal; [|by apply IH].
  rewrite <- (ascii_N_embedding a), <- (ascii_N_embedding b). by rewrite Hab.
Qed.

Lemma to_uint_normal n : Nat.to_uint n = Decimal.unorm (Nat.to_uint n).
Proof.
  rewrite <- (DecimalNat.Unsigned.of_to n) at 1. apply DecimalNat.Unsigned.to_of.
Qed.

Lemma to_uint_nonnil n : Nat.to_uint n <> Decimal.Nil.
Proof. rewrite to_uint_normal. apply DecimalFacts.unorm_nonnil. Qed.

Lemma String_of_nat_inj a b : String_of_nat a = String_of_nat b -> a = b.
Proof.
  unfold String_of_nat. intros H%js_inj.
  apply DecimalNat.Unsigned.to_uint_inj.
  pose proof (DecimalString.NilZero.usu _ (to_uint_nonnil a)) as Ha.
  pose proof (DecimalString.NilZero.usu _ (to_uint_nonnil b)) as Hb.
  rewrite H in Ha. rewrite Ha in Hb. by injection Hb.
Qed.

Lemma String_of_nat_nonempty n : String_of_nat n <> [].
Proof.
  unfold String_of_nat. pose proof (to_uint_nonnil n) as H.
  destruct (Nat.to_uint n); discriminate.
Qed.

(** A numeral that starts with 0 is the numeral 0. *)
Lemma String_of_nat_leading_zero n s : String_of_nat n = 48%N :: s -> s = [].
Proof.
  unfold String_of_nat. rewrite to_uint_normal. unfold Decimal.unorm.
  pose proof (DecimalFacts.nzhead_nonzero (Nat.to_uint n)) as Hnz.
  destruct (Decimal.nzhead (Nat.to_uint n)) as [|d|d|d|d|d|d|d|d|d|d];
    simpl; try discriminate.
  - by intros [= <-].
  - by destruct (Hnz d).
Qed.

Lemma pad2_decimal_inj a b :
  padStart 2 48 (String_of_nat a) = padStart 2 48 (String_of_nat b) -> a = b.
Proof.
  unfold padStart. intros H. apply String_of_nat_inj.
  pose proof (String_of_nat_nonempty a) as Ha.
  pose proof (String_of_nat_nonempty b) as Hb.
  pose proof (String_of_nat_leading_zero a) as Za.
  pose proof (String_of_nat_leading_zero b) as Zb.
  destruct (String_of_nat a) as [|a1 [|a2 sa]], (String_of_nat b) as [|b1 [|b2 sb]];
    simpl in H; try congruence.
  - injection H as <- <-. by specialize (Zb _ eq_refl).
  - injection H as -> ->. by specialize (Za _ eq_refl).
Qed.

End DecimalFacts.

(** ** More on the credential resolver *)

Section ResolverMoreFacts.

Import Js Helpers.

Lemma setting_Some a s : setting a = Some s -> s = trim (default [] a) /\ truthy s = true.
Proof.
  unfold setting, or_undefined. destruct (truthy (trim (default [] a))) eqn:H; [|discriminate].
  by intros [= <-].
Qed.

Lemma setting_None a : setting a = None -> truthy (trim (default [] a)) = false.
Proof.
  unfold setting, or_undefined. by destruct (truthy (trim (default [] a))).
Qed.

Lemma generated_username_inj pre i j :
  generated_username pre i = generated_username pre j -> i = j.
Proof.
  unfold generated_username. intros H%app_inv_head%pad2_decimal_inj. lia.
Qed.

Lemma array_from_length {A} (count : Z) (f : nat -> A) arr :
  array_from count f = Some arr -> length arr = Z.to_nat count.
Proof. intros ->%array_from_Some. by rewrite length_fmap, length_seq. Qed.

Lemma mystappStorageStateFile_inj i j :
  mystappStorageStateFile i = mystappStorageStateFile j -> i = j.
Proof.
  unfold mystappStorageStateFile. intros H%app_inv_head%app_inv_tail.
  by apply pad2_decimal_inj.
Qed.

End ResolverMoreFacts.

(** X11.  When [requireMystappUsers(count)] returns, for [count >= 0], it
    returns exactly [count] credentials, and each carries the resolved
    password. *)
Theorem requireMystappUsers_returns_count
    (env : Helpers.ProcessEnv) (local : option Helpers.MystappLocalConfig)
    (count : Z) (users : list Helpers.MystappUser) :
  0 <= count ->
  Helpers.requireMystappUsers env local count = Helpers.Ok users ->
  Z.of_nat (length users) = count
  /\ Forall (fun u => Helpers.resolved_password env local
                      = Some (Helpers.user_password u)) users.
Proof.
  intros Hc. unfold Helpers.requireMystappUsers.
  destruct (0 <? length (Helpers.explicitUsernames env local))%nat.
  - destruct (Helpers.resolved_password env local) as [pw|]; [|discriminate].
    destruct (Z.ltb_spec (Z.of_nat (length (Helpers.explicitUsernames env local))) count);
      [discriminate|].
    intros [= <-]. rewrite slice0_nonneg by exact Hc. split.
    + rewrite length_fmap, length_take. lia.
    + apply Forall_fmap, Forall_forall. by intros u _.
  - destruct (Helpers.singleUser env local) as [single|].
    + destruct (Helpers.resolved_password env local) as [pw|]; [|discriminate].
      destruct (Z.eqb_spec count 1) as [->|Hne]; simpl.
      * intros [= <-]. split; [reflexivity|]. by repeat constructor.
      * destruct (Helpers.reuseSingleUser env); simpl; [|discriminate].
        intros Hmade%return_array_Ok.
        rewrite (array_from_length _ _ _ Hmade). split; [lia|].
        apply array_from_Some in Hmade as ->.
        apply Forall_fmap, Forall_forall. by intros u _.
    + destruct (Helpers.resolved_userPrefix env local) as [pre|]; [|discriminate].
      destruct (Helpers.resolved_password env local) as [pw|]; [|discriminate].
      intros Hmade%return_array_Ok.
      rewrite (array_from_length _ _ _ Hmade). split; [lia|].
      apply array_from_Some in Hmade as ->.
      apply Forall_fmap, Forall_forall. by intros u _.
Qed.

Lemma requireMystappUsers_returns_count_witness :
  let env := {| Helpers.MYSTAPP_PASSWORD := Some (Js.js "pw");
                Helpers.MYSTAPP_USERS := None;
                Helpers.MYSTAPP_USER_PREFIX := Some (Js.js "user");
                Helpers.MYSTAPP_USER := None;
                Helpers.MYSTAPP_USERNAME := None;
                Helpers.MYSTAPP_REUSE_SINGLE_USER := None |} in
  exists users,
    Helpers.requireMystappUsers env None 12 = Helpers.Ok users
    /\ Z.of_nat (length users) = 12.
Proof.
  intros env. eexists. split; [reflexivity|].
  match goal with
  | |- Z.of_nat (length ?us) = _ =>
      apply (requireMystappUsers_returns_count env None 12 us); [lia|reflexivity]
  end.
Defined.

(** X12.  The credentials generated from a prefix have pairwise distinct user
    names, whatever the count. *)
Theorem generated_users_are_distinct
    (env : Helpers.ProcessEnv) (local : option Helpers.MystappLocalConfig)
    (count : Z) (users : list Helpers.MystappUser) :
  Helpers.explicitUsernames env local = [] ->
  Helpers.singleUser env local = None ->
  Helpers.requireMystappUsers env local count = Helpers.Ok users ->
  NoDup (Helpers.username <$> users).
Proof.
  intros Hn Hs. unfold Helpers.requireMystappUsers. rewrite Hn, Hs. simpl.
  destruct (Helpers.resolved_userPrefix env local) as [pre|]; [|discriminate].
  destruct (Helpers.resolved_password env local) as [pw|]; [|discriminate].
  intros ->%return_array_Ok%array_from_Some. rewrite <- list_fmap_compose.
  apply NoDup_fmap_2_strong; [|apply NoDup_ListNoDup, seq_NoDup].
  intros i j _ _ H. simpl in H. by apply generated_username_inj in H.
Qed.

Lemma generated_users_are_distinct_witness :
  let env := {| Helpers.MYSTAPP_PASSWORD := Some (Js.js "pw");
                Helpers.MYSTAPP_USERS := None;
                Helpers.MYSTAPP_USER_PREFIX := Some (Js.js "user");
                Helpers.MYSTAPP_USER := None;
                Helpers.MYSTAPP_USERNAME := None;
                Helpers.MYSTAPP_REUSE_SINGLE_USER := None |} in
  exists users,
    Helpers.requireMystappUsers env None 120 = Helpers.Ok users
    /\ NoDup (Helpers.username <$> users).
Proof.
  intros env. eexists. split; [reflexivity|].
  match goal with
  | |- NoDup (_ <$> ?us) =>
      apply (generated_users_are_distinct env None 120 us); reflexivity
  end.
Defined.

(** X13.  When the guard [hasMystappConfig()] holds, [requireMystappUsers(1)]
    either returns one credential or throws "Missing mystapp credentials":
    the guard ensures a password, not a user name. *)
Theorem guard_then_one_user
    (MYSTAPP_BASE_URL : option (list N)) (env : Helpers.ProcessEnv)
    (local : option Helpers.MystappLocalConfig) :
  Helpers.hasMystappConfig MYSTAPP_BASE_URL env local = true ->
  Helpers.resolved_password env local <> None
  /\ ((exists u, Helpers.requireMystappUsers env local 1 = Helpers.Ok [u])
      \/ Helpers.requireMystappUsers env local 1
         = Helpers.Throw Helpers.MissingCredentials).
Proof.
  unfold Helpers.hasMystappConfig. intros H.
  apply andb_true_iff in H as [_ H].
  assert (Hpw : Js.truthy (Js.trim (default []
                  (Helpers.nullish (Helpers.MYSTAPP_PASSWORD env)
                     (Helpers.opt_field local Helpers.password)))) = true).
  { apply orb_true_iff in H as [H|H]; by apply andb_true_iff in H as [_ H]. }
  clear H.
  assert (Hres : exists pw, Helpers.resolved_password env local = Some pw).
  { unfold Helpers.resolved_password, Helpers.setting, Js.or_undefined.
    rewrite Hpw. eauto. }
  destruct Hres as [pw Hres]. split; [by rewrite Hres|].
  unfold Helpers.requireMystappUsers. rewrite Hres.
  destruct (Helpers.explicitUsernames env local) as [|n names] eqn:Hn; simpl.
  - destruct (Helpers.singleUser env local); [eauto|].
    destruct (Helpers.resolved_userPrefix env local); [left|by right].
    eexists. reflexivity.
  - left. destruct (Z.ltb_spec (Z.of_nat (S (length names))) 1); [lia|].
    eexists. reflexivity.
Qed.

Lemma guard_then_one_user_witness :
  let env := {| Helpers.MYSTAPP_PASSWORD := Some (Js.js "pw");
                Helpers.MYSTAPP_USERS := Some (Js.js " , ");
                Helpers.MYSTAPP_USER_PREFIX := None;
                Helpers.MYSTAPP_USER := None;
                Helpers.MYSTAPP_USERNAME := None;
                Helpers.MYSTAPP_REUSE_SINGLE_USER := None |} in
  Helpers.hasMystappConfig None env None = true
  /\ Helpers.resolved_password env None <> None.
Proof.
  intros env. split; [reflexivity|].
  apply (guard_then_one_user None env None). reflexivity.
Defined.

(** X14.  Conversely, a configuration from which [requireMystappUsers] returns
    passes the guard, unless the base URL is blank or the local file has an
    empty [users] array. *)
Theorem resolved_users_pass_guard
    (MYSTAPP_BASE_URL : option (list N)) (env : Helpers.ProcessEnv)
    (local : option Helpers.MystappLocalConfig)
    (count : Z) (users : list Helpers.MystappUser) :
  Helpers.requireMystappUsers env local count = Helpers.Ok users ->
  Helpers.opt_field local Helpers.users <> Some [] ->
  Js.truthy (Js.trim (default (Js.js "https://qa.mystaapp.com")
                        (Helpers.nullish MYSTAPP_BASE_URL
                           (Helpers.opt_field local Helpers.baseURL)))) = true ->
  Helpers.hasMystappConfig MYSTAPP_BASE_URL env local = true.
Proof.
  intros Hok Hlu Hurl. unfold Helpers.hasMystappConfig. rewrite Hurl. simpl.
  unfold Helpers.requireMystappUsers in Hok.
  assert (Hpw : forall pw, Helpers.resolved_password env local = Some pw ->
            Js.truthy (Js.trim (default []
              (Helpers.nullish (Helpers.MYSTAPP_PASSWORD env)
                 (Helpers.opt_field local Helpers.password)))) = true).
  { intros pw H. apply setting_Some in H as [-> H]. exact H. }
  assert (Hlocal : forall l, Helpers.opt_field local Helpers.users = Some l ->
            (0 <? length l)%nat = true).
  { intros [|x l] H; [congruence|reflexivity]. }
  destruct (Helpers.explicitUsernames env local) as [|n names] eqn:Hn; simpl in Hok.
  - destruct (Helpers.singleUser env local) as [single|] eqn:Hs.
    + destruct (Helpers.resolved_password env local) as [pw|] eqn:Hp; [|discriminate].
      rewrite (Hpw _ eq_refl). rewrite andb_true_r.
      apply orb_true_iff. left.
      unfold Helpers.singleUser in Hs. apply setting_Some in Hs as [-> Hs].
      destruct (Helpers.MYSTAPP_USER env) as [x|] eqn:Hx; simpl in *.
      { rewrite Hs. by rewrite orb_true_r. }
      destruct (Helpers.MYSTAPP_USERNAME env) as [y|] eqn:Hy; simpl in *.
      { rewrite Hs. by rewrite orb_true_r. }
      destruct (Helpers.opt_field local Helpers.user) as [u|] eqn:Hu; simpl in *;
        [|discriminate].
      assert (Js.truthy u = true) as ->.
      { destruct u; [discriminate Hs|reflexivity]. }
      destruct (Helpers.opt_field local Helpers.users) as [l|] eqn:Hl; simpl.
      * rewrite (Hlocal l eq_refl). by rewrite orb_true_r.
      * by rewrite orb_true_r.
    + destruct (Helpers.resolved_userPrefix env local) as [pre|] eqn:Hpre; [|discriminate].
      destruct (Helpers.resolved_password env local) as [pw|] eqn:Hp; [|discriminate].
      rewrite (Hpw _ eq_refl). apply orb_true_iff. right.
      unfold Helpers.resolved_userPrefix in Hpre. apply setting_Some in Hpre as [-> Hpre].
      by rewrite Hpre.
  - destruct (Helpers.resolved_password env local) as [pw|] eqn:Hp; [|discriminate].
    rewrite (Hpw _ eq_refl). rewrite andb_true_r.
    apply orb_true_iff. left.
    unfold Helpers.explicitUsernames in Hn.
    destruct (Helpers.usersCsv env) as [csv|] eqn:Hcsv.
    + unfold Helpers.usersCsv in Hcsv. apply setting_Some in Hcsv as [-> Hcsv].
      by rewrite Hcsv.
    + unfold Helpers.localUsers in Hn.
      destruct (Helpers.opt_field local Helpers.users) as [l|] eqn:Hl; simpl in *.
      * rewrite (Hlocal l eq_refl). by rewrite orb_true_r.
      * discriminate.
Qed.

Lemma resolved_users_pass_guard_witness :
  let env := {| Helpers.MYSTAPP_PASSWORD := Some (Js.js "pw");
                Helpers.MYSTAPP_USERS := Some (Js.js "a,b,c");
                Helpers.MYSTAPP_USER_PREFIX := None;
                Helpers.MYSTAPP_USER := None;
                Helpers.MYSTAPP_USERNAME := None;
                Helpers.MYSTAPP_REUSE_SINGLE_USER := None |} in
  Helpers.hasMystappConfig None env None = true.
Proof.
  intros env.
  eapply (resolved_users_pass_guard None env None 2); [reflexivity|discriminate|reflexivity].
Defined.

(** ** The authentication setup: one storage state file per user *)

Section AuthSetupFacts.

Import AuthSetup.

Variable N : nat.

Lemma omap_insert {A} (f : worker_status -> option A) (ws : list worker_status)
    w old new :
  ws !! w = Some old ->
  omap f (<[w := new]> ws) ++ option_list (f old)
  ≡ₚ omap f ws ++ option_list (f new).
Proof.
  revert w. induction ws as [|st ws IH]; intros [|w] Hw; simpl in *; try discriminate.
  - injection Hw as ->. destruct (f old), (f new); simpl;
      rewrite ?app_nil_r; try reflexivity.
    + rewrite <- !Permutation_cons_append. apply Permutation_swap.
    + symmetry. apply Permutation_cons_append.
    + apply Permutation_cons_append.
  - specialize (IH w Hw). destruct (f st); simpl; [by rewrite IH|exact IH].
Qed.

Lemma returned_insert (ws : list worker_status) w new :
  (exists st, st ∈ <[w := new]> ws /\ st = Returned) ->
  new = Returned \/ exists st, st ∈ ws /\ st = Returned.
Proof.
  intros (st & Hin & ->). revert w Hin.
  induction ws as [|st ws IH]; intros [|w] Hin; simpl in *.
  - by apply elem_of_nil in Hin.
  - by apply elem_of_nil in Hin.
  - apply elem_of_cons in Hin as [->|Hin]; [by left|].
    right. exists Returned. split; [by apply list_elem_of_further|reflexivity].
  - apply elem_of_cons in Hin as [<-|Hin].
    + right. exists Returned. split; [apply list_elem_of_here|reflexivity].
    + destruct (IH w Hin) as [->|(st' & Hst' & ->)]; [by left|].
      right. exists Returned. split; [by apply list_elem_of_further|reflexivity].
Qed.

(** What every reachable pool satisfies. *)
Record auth_inv (p : pool) : Prop := {
  auth_held :
    (index <$> results p) ++ (S <$> omap held (workers p))
    ≡ₚ seq 1 (Nat.min (next p) N);
  auth_written :
    written p
    ≡ₚ Helpers.mystappStorageStateFile
         <$> ((index <$> results p) ++ (S <$> omap held_saved (workers p)));
  auth_returned : Returned ∈ workers p -> (N <= next p)%nat
}.

Lemma omap_replicate_head {A} (f : worker_status -> option A) n :
  f AtLoopHead = None -> omap f (replicate n AtLoopHead) = [].
Proof. intros H. induction n as [|n IH]; simpl; [reflexivity|]. by rewrite H. Qed.

Lemma auth_inv_init C : auth_inv (init C).
Proof.
  split; unfold init; simpl.
  - by rewrite omap_replicate_head.
  - by rewrite omap_replicate_head.
  - intros H. apply elem_of_replicate in H as [H _]. discriminate.
Qed.

Lemma auth_inv_pool_of n : auth_inv (pool_of n).
Proof.
  split; unfold pool_of; simpl.
  - by rewrite omap_replicate_head.
  - by rewrite omap_replicate_head.
  - intros H. apply elem_of_replicate in H as [H _]. discriminate.
Qed.

(** Without a worker nothing happens. *)
Lemma run_without_worker sched p :
  run N sched (pool_of 0) = Some p -> p = pool_of 0.
Proof.
  destruct sched as [|e sched]; simpl; [by intros [= <-]|].
  by destruct e.
Qed.

Lemma auth_step_inv e p p' :
  auth_inv p -> step N e p = Some p' ->
  auth_inv p' /\ length (workers p') = length (workers p).
Proof.
  intros [Hh Hw Hr] Hstep.
  assert (Hret : forall w new, new <> Returned ->
            Returned ∈ <[w := new]> (workers p) -> (N <= next p)%nat).
  { intros w new Hnew Hin. apply Hr.
    destruct (returned_insert (workers p) w new) as [->|(st & Hst & ->)]; eauto.
    contradiction. }
  destruct e as [w|w|w ms a st|w]; simpl in Hstep;
    destruct (workers p !! w) as [[|cur|cur| |cur sv]|] eqn:Hwk; try discriminate;
    injection Hstep as <-; (split; [|apply length_insert]).
  - (* claim *)
    unfold claim. destruct (Nat.leb_spec N (next p)) as [Hle|Hlt]; split; simpl.
    + pose proof (omap_insert held _ _ _ Returned Hwk) as H. simpl in H.
      rewrite !app_nil_r in H. rewrite H.
      replace (Nat.min (next p + 1) N) with (Nat.min (next p) N) by lia. exact Hh.
    + pose proof (omap_insert held_saved _ _ _ Returned Hwk) as H. simpl in H.
      rewrite !app_nil_r in H. by rewrite H.
    + intros _. lia.
    + pose proof (omap_insert held _ _ _ (LoggingIn (next p)) Hwk) as H. simpl in H.
      rewrite app_nil_r in H. rewrite H, fmap_app, app_assoc, Hh. simpl.
      replace (Nat.min (next p + 1) N) with (S (Nat.min (next p) N)) by lia.
      rewrite seq_S. simpl. replace (Nat.min (next p) N) with (next p) by lia.
      reflexivity.
    + pose proof (omap_insert held_saved _ _ _ (LoggingIn (next p)) Hwk) as H.
      simpl in H. rewrite !app_nil_r in H. by rewrite H.
    + intros Hin. apply Hret in Hin; [lia|discriminate].
  - (* save *)
    unfold save. split; simpl.
    + pose proof (omap_insert held _ _ _ (Saved cur) Hwk) as H. simpl in H.
      apply Permutation_app_inv_r in H. by rewrite H.
    + pose proof (omap_insert held_saved _ _ _ (Saved cur) Hwk) as H. simpl in H.
      rewrite app_nil_r in H. rewrite H, Hw, !fmap_app. simpl.
      rewrite app_assoc. by replace (cur + 1)%nat with (S cur) by lia.
    + intros Hin. apply Hret in Hin; [lia|discriminate].
  - (* push *)
    unfold push. split; simpl.
    + pose proof (omap_insert held _ _ _ AtLoopHead Hwk) as H. simpl in H.
      rewrite app_nil_r in H. rewrite <- Hh, <- H, !fmap_app. simpl.
      rewrite <- !app_assoc. apply Permutation_app_head.
      replace (cur + 1)%nat with (S cur) by lia.
      apply Permutation_app_comm.
    + pose proof (omap_insert held_saved _ _ _ AtLoopHead Hwk) as H. simpl in H.
      rewrite app_nil_r in H. rewrite Hw, <- H, !fmap_app. simpl.
      rewrite <- !app_assoc. apply Permutation_app_head.
      replace (cur + 1)%nat with (S cur) by lia.
      apply Permutation_app_comm.
    + intros Hin. apply Hret in Hin; [lia|discriminate].
  - (* an awaited call of the login throws *)
    unfold fail. split; simpl.
    + pose proof (omap_insert held _ _ _ (Failed cur false) Hwk) as H. simpl in H.
      apply Permutation_app_inv_r in H. by rewrite H.
    + pose proof (omap_insert held_saved _ _ _ (Failed cur false) Hwk) as H.
      simpl in H. rewrite !app_nil_r in H. by rewrite H.
    + intros Hin. apply Hret in Hin; [lia|discriminate].
  - (* closing the context throws *)
    unfold fail. split; simpl.
    + pose proof (omap_insert held _ _ _ (Failed cur true) Hwk) as H. simpl in H.
      apply Permutation_app_inv_r in H. by rewrite H.
    + pose proof (omap_insert held_saved _ _ _ (Failed cur true) Hwk) as H.
      simpl in H. apply Permutation_app_inv_r in H. by rewrite H.
    + intros Hin. apply Hret in Hin; [lia|discriminate].
Qed.

Lemma auth_run_inv sched : forall p p',
  auth_inv p -> run N sched p = Some p' ->
  auth_inv p' /\ length (workers p') = length (workers p).
Proof.
  induction sched as [|e sched IH]; intros p p' Hp Hrun; simpl in Hrun.
  - injection Hrun as <-. auto.
  - destruct (step N e p) as [q|] eqn:Hstep; [|discriminate].
    destruct (auth_step_inv _ _ _ Hp Hstep) as (Hq & Hlen).
    destruct (IH _ _ Hq Hrun) as (Hp' & Hlen'). split; [exact Hp'|congruence].
Qed.

Lemma all_returned_holds_nothing (ws : list worker_status) :
  forallb (fun st => match st with Returned => true | _ => false end) ws = true ->
  omap held ws = [] /\ omap held_saved ws = []
  /\ (ws <> [] -> Returned ∈ ws).
Proof.
  induction ws as [|st ws IH]; simpl; [by auto|].
  intros H. apply andb_true_iff in H as [Hst Hws].
  destruct st; try discriminate. destruct (IH Hws) as (H1 & H2 & _). simpl.
  repeat split; auto. intros _. apply list_elem_of_here.
Qed.

Lemma insert_by_index_perm r l : insert_by_index r l ≡ₚ r :: l.
Proof.
  induction l as [|r' l IH]; simpl; [reflexivity|].
  destruct (index r <=? index r')%nat; [reflexivity|].
  rewrite IH. apply Permutation_swap.
Qed.

Lemma sort_by_index_perm l : sort_by_index l ≡ₚ l.
Proof.
  induction l as [|r l IH]; simpl; [reflexivity|].
  rewrite insert_by_index_perm. by rewrite IH.
Qed.

Lemma insert_by_index_sorted r l :
  StronglySorted le (index <$> l) -> StronglySorted le (index <$> insert_by_index r l).
Proof.
  induction l as [|r' l IH]; simpl; intros Hs.
  - repeat constructor.
  - apply StronglySorted_inv in Hs as [Hs Hr'].
    destruct (Nat.leb_spec (index r) (index r')) as [Hle|Hlt]; simpl.
    + constructor; [by constructor|]. constructor; [exact Hle|].
      eapply Forall_impl; [exact Hr'|]. intros z Hz. simpl in Hz. lia.
    + constructor; [by apply IH|]. rewrite insert_by_index_perm. simpl.
      constructor; [lia|exact Hr'].
Qed.

Lemma sort_by_index_sorted l : StronglySorted le (index <$> sort_by_index l).
Proof.
  induction l as [|r l IH]; simpl; [constructor|]. by apply insert_by_index_sorted.
Qed.

Lemma seq_sorted start len : StronglySorted le (seq start len).
Proof.
  revert start. induction len as [|len IH]; intros start; simpl; constructor.
  - apply IH.
  - apply Forall_forall. intros x Hx%list_elem_of_In%in_seq. lia.
Qed.

End AuthSetupFacts.

(** X15.  The storage state files of two users are two files, whatever their
    numbers: the padding to two digits confuses no two of them. *)
Theorem storage_state_files_distinct (i j : nat) :
  i <> j ->
  Helpers.mystappStorageStateFile i <> Helpers.mystappStorageStateFile j.
Proof. intros Hne H. by apply Hne, mystappStorageStateFile_inj. Qed.

(** User 7 and user 107. *)
Lemma storage_state_files_distinct_witness :
  Helpers.mystappStorageStateFile 7 <> Helpers.mystappStorageStateFile 107.
Proof. apply storage_state_files_distinct. lia. Defined.

(** X16.  When the authentication setup completes (all workers have
    returned), whatever the interleaving and for every [CONCURRENCY] from
    which the pool starts.  If [CONCURRENCY] is a number, the results sorted
    by index are those of the users 1, 2, ..., N, one each, and the files
    written are the N storage state files of these users, each written
    once.  If it is NaN, no worker was made: the setup completes with no
    result and no file. *)
Theorem auth_setup_one_file_per_user
    (N : nat) (CONCURRENCY : Js.number) (sched : list AuthSetup.event)
    (p0 p : AuthSetup.pool) :
  AuthSetup.launch CONCURRENCY = Some p0 ->
  AuthSetup.run N sched p0 = Some p ->
  AuthSetup.all_returned p = true ->
  (CONCURRENCY <> Js.NaN ->
     AuthSetup.index <$> AuthSetup.sort_by_index (AuthSetup.results p) = seq 1 N
     /\ AuthSetup.written p ≡ₚ Helpers.mystappStorageStateFile <$> seq 1 N
     /\ NoDup (AuthSetup.written p))
  /\ (CONCURRENCY = Js.NaN ->
        AuthSetup.results p = [] /\ AuthSetup.written p = []).
Proof.
  intros Hlaunch Hrun Hall. unfold AuthSetup.launch in Hlaunch.
  destruct (Js.array_like_length (Js.Math_max_1 CONCURRENCY)) as [n|] eqn:Hn;
    [|discriminate].
  injection Hlaunch as <-. split.
  - intros Hc.
    assert (Hpos : (1 <= n)%nat).
    { destruct (workers_of_concurrency _ _ Hn) as [[? _]|[_ ?]]; [done|lia]. }
    destruct (auth_run_inv N sched _ _ (auth_inv_pool_of N n) Hrun)
      as ([Hh Hw Hr] & Hlen).
    apply all_returned_holds_nothing in Hall as (H1 & H2 & H3).
    rewrite H1 in Hh. rewrite H2 in Hw. simpl in Hh, Hw. rewrite app_nil_r in Hh, Hw.
    assert (HN : (N <= AuthSetup.next p)%nat).
    { apply Hr, H3. intros Hnil. rewrite Hnil in Hlen. simpl in Hlen.
      rewrite length_replicate in Hlen. lia. }
    replace (Nat.min (AuthSetup.next p) N) with N in Hh by lia.
    assert (Hfiles : AuthSetup.written p ≡ₚ Helpers.mystappStorageStateFile <$> seq 1 N)
      by (by rewrite Hw, Hh).
    split; [|split; [exact Hfiles|]].
    + apply (StronglySorted_unique le); [apply sort_by_index_sorted|apply seq_sorted|].
      by rewrite sort_by_index_perm.
    + rewrite Hfiles. apply NoDup_fmap_2_strong; [|apply NoDup_ListNoDup, seq_NoDup].
      intros i j _ _ H. by apply mystappStorageStateFile_inj.
  - intros ->. simpl in Hn. injection Hn as <-.
    apply run_without_worker in Hrun as ->. by split.
Qed.

(** [MYSTAPP_LOGIN_CONCURRENCY=2] and two users; the second user is done
    first. *)
Lemma auth_setup_one_file_per_user_witness :
  let sched := [AuthSetup.Claim 0; AuthSetup.Claim 1; AuthSetup.Save 1;
                AuthSetup.Push 1 800 None None; AuthSetup.Save 0;
                AuthSetup.Claim 1; AuthSetup.Push 0 950 None None;
                AuthSetup.Claim 0] in
  exists p,
    AuthSetup.launch (Js.Finite 2) = Some (AuthSetup.pool_of 2)
    /\ AuthSetup.run 2 sched (AuthSetup.pool_of 2) = Some p
    /\ AuthSetup.all_returned p = true
    /\ AuthSetup.index <$> AuthSetup.sort_by_index (AuthSetup.results p) = [1; 2]%nat
    /\ AuthSetup.written p ≡ₚ [Js.js "user-01.json"; Js.js "user-02.json"]
    /\ NoDup (AuthSetup.written p).
Proof.
  intros sched. eexists. split; [reflexivity|]. split; [reflexivity|].
  split; [reflexivity|].
  match goal with
  | |- context [AuthSetup.written ?p] =>
      destruct (auth_setup_one_file_per_user 2 (Js.Finite 2) sched (AuthSetup.pool_of 2) p
                  eq_refl eq_refl eq_refl) as [Hnum _]
  end.
  apply Hnum. discriminate.
Defined.

(** ** The matcher on the shapes that [toIsoDate] tests *)

Section RegexFacts.

Import Js.

Lemma matches_nothing_nullable r :
  matches_nothing r = true -> nullable r = false.
Proof.
  induction r as [| |p|r1 IH1 r2 IH2|r1 IH1 r2 IH2|r IH]; simpl; try discriminate; auto.
  - intros H. apply orb_true_iff in H as [H|H].
    + by rewrite IH1.
    + rewrite IH2 by exact H. apply andb_false_r.
  - intros H. apply andb_true_iff in H as [H1 H2]. by rewrite IH1, IH2.
Qed.

Lemma matches_nothing_deriv c r :
  matches_nothing r = true -> matches_nothing (deriv c r) = true.
Proof.
  induction r as [| |p|r1 IH1 r2 IH2|r1 IH1 r2 IH2|r IH]; simpl; try discriminate; auto.
  - intros H. apply orb_true_iff in H as [H|H].
    + rewrite (matches_nothing_nullable r1 H). simpl. by rewrite IH1.
    + destruct (nullable r1); simpl; rewrite ?(IH2 H), H, ?orb_true_r; reflexivity.
  - intros H. apply andb_true_iff in H as [H1 H2]. by rewrite IH1, IH2.
Qed.

Lemma matches_nothing_matches s : forall r,
  matches_nothing r = true -> matches r s = false.
Proof.
  unfold matches. induction s as [|c s IH]; intros r H; simpl.
  - by apply matches_nothing_nullable.
  - apply IH. by apply matches_nothing_deriv.
Qed.

Lemma matches_cons r c s : matches r (c :: s) = matches (deriv c r) s.
Proof. reflexivity. Qed.

Lemma matches_alt s : forall r1 r2,
  matches (Alt r1 r2) s = matches r1 s || matches r2 s.
Proof.
  induction s as [|c s IH]; intros r1 r2; [reflexivity|].
  rewrite !matches_cons. apply IH.
Qed.

Lemma matches_eps s : matches Eps s = match s with [] => true | _ => false end.
Proof.
  destruct s; [reflexivity|]. rewrite matches_cons. by apply matches_nothing_matches.
Qed.

Lemma matches_eps_seq s : forall r, matches (Seq Eps r) s = matches r s.
Proof.
  induction s as [|c s IH]; intros r; [reflexivity|].
  rewrite !matches_cons. cbn [deriv nullable]. rewrite matches_alt.
  by rewrite matches_nothing_matches.
Qed.

Lemma matches_chr p s :
  matches (Chr p) s = match s with [c] => p c | _ => false end.
Proof.
  destruct s as [|c s]; [reflexivity|]. rewrite matches_cons. cbn [deriv].
  destruct (p c).
  - rewrite matches_eps. by destruct s.
  - rewrite matches_nothing_matches by reflexivity. by destruct s.
Qed.

Lemma matches_chr_seq p r s :
  matches (Seq (Chr p) r) s
  = match s with [] => false | c :: s' => p c && matches r s' end.
Proof.
  destruct s as [|c s]; [reflexivity|]. rewrite matches_cons. cbn [deriv nullable].
  destruct (p c); [apply matches_eps_seq|by apply matches_nothing_matches].
Qed.

(** Case analysis on the digit tests of a goal. *)
Ltac case_digits :=
  unfold is_digit; cbn [forallb length Nat.eqb];
  repeat match goal with
         | |- context [(48 <=? ?x)%N] => destruct (48 <=? x)%N
         | |- context [(?x <=? 57)%N] => destruct (x <=? 57)%N
         end;
  reflexivity.

(** [/^[0-9]{4}$/] accepts exactly the strings of four digits. *)
Lemma year_re_spec s :
  test_whole Invoices.year_re s = (length s =? 4)%nat && forallb is_digit s.
Proof.
  unfold test_whole, Invoices.year_re, digit.
  rewrite matches_chr_seq. destruct s as [|a s]; [reflexivity|].
  rewrite matches_chr_seq. destruct s as [|b s]; [case_digits|].
  rewrite matches_chr_seq. destruct s as [|c s]; [case_digits|].
  rewrite matches_chr. destruct s as [|d [|e s]]; case_digits.
Qed.

(** [/^[0-9]{1,2}$/] accepts exactly the strings of one or two digits. *)
Lemma day_month_re_spec s :
  test_whole Invoices.day_month_re s
  = ((length s =? 1)%nat || (length s =? 2)%nat) && forallb is_digit s.
Proof.
  unfold test_whole, Invoices.day_month_re, opt, digit.
  rewrite matches_chr_seq. destruct s as [|a s]; [reflexivity|].
  rewrite matches_alt, matches_eps, matches_chr.
  destruct s as [|b [|c s]]; case_digits.
Qed.

End RegexFacts.

(** ** The length and the characters of a decimal numeral *)

Section NumeralFacts.

Import Js.

Lemma of_uint_acc_shift d : forall acc,
  Nat.of_uint_acc d acc
  = (acc * 10 ^ Decimal.nb_digits d + Nat.of_uint_acc d 0)%nat.
Proof.
  induction d as [|d IH|d IH|d IH|d IH|d IH|d IH|d IH|d IH|d IH|d IH];
    intros acc; cbn [Nat.of_uint_acc Decimal.nb_digits];
    rewrite ?Nat.tail_mul_spec, ?Nat.mul_0_r; [simpl; lia|..];
    rewrite IH;
    try match goal with
        | |- context [Nat.of_uint_acc d (S ?x)] => rewrite (IH (S x))
        end;
    rewrite Nat.pow_succ_r'; nia.
Qed.

Lemma of_uint_upper d : (Nat.of_uint_acc d 0 < 10 ^ Decimal.nb_digits d)%nat.
Proof.
  induction d as [|d IH|d IH|d IH|d IH|d IH|d IH|d IH|d IH|d IH|d IH];
    cbn [Nat.of_uint_acc Decimal.nb_digits];
    rewrite ?Nat.tail_mul_spec, ?Nat.mul_0_r;
    [simpl; lia|..]; try rewrite of_uint_acc_shift; rewrite Nat.pow_succ_r'; lia.
Qed.

Lemma of_uint_lower d :
  match d with
  | Decimal.Nil | Decimal.D0 _ => True
  | _ => (10 ^ (Decimal.nb_digits d - 1) <= Nat.of_uint_acc d 0)%nat
  end.
Proof.
  destruct d; try exact I;
    cbn [Nat.of_uint_acc Decimal.nb_digits];
    rewrite ?Nat.tail_mul_spec, ?Nat.mul_0_r;
    rewrite of_uint_acc_shift; simpl Nat.sub; rewrite Nat.sub_0_r; lia.
Qed.

Lemma String_of_nat_length n :
  length (String_of_nat n) = Decimal.nb_digits (Nat.to_uint n).
Proof.
  unfold String_of_nat, js. rewrite length_fmap.
  pose proof (to_uint_nonnil n) as Hn.
  assert (H : forall d, length (list_ascii_of_string (NilEmpty.string_of_uint d))
                        = Decimal.nb_digits d).
  { induction d; simpl; congruence. }
  destruct (Nat.to_uint n) eqn:Hd; try contradiction; rewrite <- H; reflexivity.
Qed.

Lemma String_of_nat_digits n : forallb is_digit (String_of_nat n) = true.
Proof.
  unfold String_of_nat, js.
  assert (H : forall d, forallb is_digit
                ((fun a => N_of_ascii a)
                   <$> list_ascii_of_string (NilEmpty.string_of_uint d)) = true).
  { induction d; simpl; auto. }
  destruct (Nat.to_uint n); try apply H. reflexivity.
Qed.

Lemma String_of_nat_bounds n :
  (n < 10 ^ length (String_of_nat n))%nat
  /\ (n <> 0%nat -> 10 ^ (length (String_of_nat n) - 1) <= n)%nat.
Proof.
  rewrite String_of_nat_length.
  pose proof (DecimalNat.Unsigned.of_to n) as Hn. unfold Nat.of_uint in Hn.
  pose proof (of_uint_upper (Nat.to_uint n)) as Hu.
  pose proof (of_uint_lower (Nat.to_uint n)) as Hl.
  split; [lia|]. intros Hne.
  pose proof (to_uint_normal n) as Hnorm. unfold Decimal.unorm in Hnorm.
  pose proof (DecimalFacts.nzhead_nonzero (Nat.to_uint n)) as Hnz.
  destruct (Decimal.nzhead (Nat.to_uint n)) eqn:Hh.
  - rewrite Hnorm in Hn. cbv in Hn. lia.
  - by destruct (Hnz u).
  - rewrite Hnorm in *. lia.
  - rewrite Hnorm in *. lia.
  - rewrite Hnorm in *. lia.
  - rewrite Hnorm in *. lia.
  - rewrite Hnorm in *. lia.
  - rewrite Hnorm in *. lia.
  - rewrite Hnorm in *. lia.
  - rewrite Hnorm in *. lia.
  - rewrite Hnorm in *. lia.
Qed.

Lemma String_of_nat_bounds_Z n :
  Z.of_nat n < 10 ^ Z.of_nat (length (String_of_nat n))
  /\ (n <> 0%nat -> 10 ^ (Z.of_nat (length (String_of_nat n)) - 1) <= Z.of_nat n).
Proof.
  destruct (String_of_nat_bounds n) as [Hu Hl].
  pose proof (String_of_nat_nonempty n) as Hne.
  split.
  - apply Nat2Z.inj_lt in Hu. by rewrite Nat2Z.inj_pow in Hu.
  - intros H0. specialize (Hl H0). apply Nat2Z.inj_le in Hl.
    rewrite Nat2Z.inj_pow in Hl.
    replace (Z.of_nat (length (String_of_nat n) - 1))
      with (Z.of_nat (length (String_of_nat n)) - 1) in Hl; [exact Hl|].
    destruct (String_of_nat n); [congruence|]. simpl length. lia.
Qed.

Lemma String_of_nat_length_lt_100 n :
  Z.of_nat n < 100 ->
  length (String_of_nat n) = 1%nat \/ length (String_of_nat n) = 2%nat.
Proof.
  intros Hn. destruct (String_of_nat_bounds_Z n) as [_ Hl].
  pose proof (String_of_nat_nonempty n) as Hne.
  destruct (decide (n = 0%nat)) as [->|H0]; [by left|].
  specialize (Hl H0).
  destruct (Z.le_gt_cases 3 (Z.of_nat (length (String_of_nat n)))) as [H|H].
  - assert (10 ^ 2 <= 10 ^ (Z.of_nat (length (String_of_nat n)) - 1))
      by (apply Z.pow_le_mono_r; lia).
    change (10 ^ 2) with 100 in *. lia.
  - destruct (String_of_nat n) as [|a [|b [|c s]]]; [congruence|auto..|].
    simpl length in H. lia.
Qed.

Lemma String_of_nat_length_year n :
  1000 <= Z.of_nat n <= 9999 -> length (String_of_nat n) = 4%nat.
Proof.
  intros Hn. destruct (String_of_nat_bounds_Z n) as [Hu Hl].
  specialize (Hl ltac:(lia)).
  destruct (Z.lt_trichotomy (Z.of_nat (length (String_of_nat n))) 4) as [H|[H|H]];
    [|lia|].
  - assert (10 ^ Z.of_nat (length (String_of_nat n)) <= 10 ^ 3)
      by (apply Z.pow_le_mono_r; lia).
    change (10 ^ 3) with 1000 in *. lia.
  - assert (10 ^ 4 <= 10 ^ (Z.of_nat (length (String_of_nat n)) - 1))
      by (apply Z.pow_le_mono_r; lia).
    change (10 ^ 4) with 10000 in *. lia.
Qed.

End NumeralFacts.

(** ** Dates: what [toIsoDate] returns, and [formatDate] read back *)

Section DateFacts.

Import Js Invoices.

Lemma digit_range c : is_digit c = true -> (48 <= c <= 57)%N.
Proof.
  unfold is_digit. intros H. apply andb_true_iff in H as [H1 H2].
  apply N.leb_le in H1, H2. lia.
Qed.

Lemma digit_not_white_space c : is_digit c = true -> is_white_space c = false.
Proof.
  intros H%digit_range. unfold is_white_space.
  rewrite (proj2 (N.leb_gt c 13)) by lia.
  rewrite (proj2 (N.leb_gt 8192 c)) by lia.
  rewrite (proj2 (N.eqb_neq c 32)), (proj2 (N.eqb_neq c 160)),
    (proj2 (N.eqb_neq c 5760)), (proj2 (N.eqb_neq c 8232)),
    (proj2 (N.eqb_neq c 8233)), (proj2 (N.eqb_neq c 8239)),
    (proj2 (N.eqb_neq c 8287)), (proj2 (N.eqb_neq c 12288)),
    (proj2 (N.eqb_neq c 65279)) by lia.
  by rewrite andb_false_r.
Qed.

Lemma digit_not_slash c : is_digit c = true -> (c =? 47)%N = false.
Proof. intros H%digit_range. apply N.eqb_neq. lia. Qed.

Lemma trimStart_head c s : is_white_space c = false -> trimStart (c :: s) = c :: s.
Proof. intros H. simpl. by rewrite H. Qed.

(** A string that neither starts nor ends with white space is its own
    [trim]. *)
Lemma trim_id s :
  match s with [] => True | c :: _ => is_white_space c = false end ->
  match reverse s with [] => True | c :: _ => is_white_space c = false end ->
  trim s = s.
Proof.
  intros Hhead Hlast. unfold trim, trimEnd.
  assert (Hs : trimStart s = s) by (destruct s; [reflexivity|by apply trimStart_head]).
  rewrite Hs.
  assert (Hr : trimStart (reverse s) = reverse s)
    by (destruct (reverse s); [reflexivity|by apply trimStart_head]).
  rewrite Hr. apply reverse_involutive.
Qed.

Lemma trim_digits s : forallb is_digit s = true -> trim s = s.
Proof.
  intros H. rewrite forallb_forall in H. apply trim_id.
  - destruct s as [|c s]; [exact I|]. apply digit_not_white_space, H. by left.
  - destruct (reverse s) as [|c r] eqn:Hr; [exact I|].
    apply digit_not_white_space, H, list_elem_of_In.
    apply elem_of_reverse. rewrite Hr. apply list_elem_of_here.
Qed.

Lemma split_no_sep sep s :
  forallb (fun c => negb (c =? sep)%N) s = true -> split sep s = [s].
Proof.
  induction s as [|c s IH]; simpl; [reflexivity|].
  intros H. apply andb_true_iff in H as [Hc Hs]. apply negb_true_iff in Hc.
  by rewrite Hc, (IH Hs).
Qed.

Lemma split_app_sep sep a rest :
  forallb (fun c => negb (c =? sep)%N) a = true ->
  split sep (a ++ sep :: rest) = a :: split sep rest.
Proof.
  induction a as [|c a IH]; simpl.
  - intros _. by rewrite N.eqb_refl.
  - intros H. apply andb_true_iff in H as [Hc Hs]. apply negb_true_iff in Hc.
    by rewrite Hc, (IH Hs).
Qed.

Lemma digits_no_slash s :
  forallb is_digit s = true -> forallb (fun c => negb (c =? 47)%N) s = true.
Proof.
  rewrite !forallb_forall. intros H c Hc. by rewrite (digit_not_slash c (H c Hc)).
Qed.

Lemma padStart2_digits s :
  ((length s =? 1)%nat || (length s =? 2)%nat) && forallb is_digit s = true ->
  length (padStart 2 48 s) = 2%nat /\ forallb is_digit (padStart 2 48 s) = true.
Proof.
  destruct s as [|a [|b [|c s]]]; simpl; try discriminate; intros H; split; auto.
Qed.

(** What [toIsoDate] makes of three parts of digits. *)
Lemma toIsoDate_of_parts a b c format :
  ((length a =? 1)%nat || (length a =? 2)%nat) && forallb is_digit a = true ->
  ((length b =? 1)%nat || (length b =? 2)%nat) && forallb is_digit b = true ->
  (length c =? 4)%nat && forallb is_digit c = true ->
  toIsoDate (a ++ js "/" ++ b ++ js "/" ++ c) format
  = inl (c ++ js "-"
           ++ padStart 2 48 (match format with DD_MM_YYYY => b | MM_DD_YYYY => a end)
           ++ js "-"
           ++ padStart 2 48 (match format with DD_MM_YYYY => a | MM_DD_YYYY => b end)).
Proof.
  intros Ha Hb Hc.
  pose proof Ha as Ha'. pose proof Hb as Hb'. pose proof Hc as Hc'.
  apply andb_true_iff in Ha' as [Hla Hda].
  apply andb_true_iff in Hb' as [Hlb Hdb].
  apply andb_true_iff in Hc' as [Hlc Hdc].
  assert (Hall : forallb is_digit a = true /\ forallb is_digit b = true
                 /\ forallb is_digit c = true) by auto.
  unfold toIsoDate.
  assert (Htrim : trim (a ++ js "/" ++ b ++ js "/" ++ c) = a ++ js "/" ++ b ++ js "/" ++ c).
  { apply trim_id.
    - destruct a as [|x a]; [discriminate|]. simpl in *.
      apply digit_not_white_space. by apply andb_true_iff in Hda as [? _].
    - rewrite !reverse_app. destruct (reverse c) as [|x r] eqn:Hr.
      + apply (f_equal reverse) in Hr. rewrite reverse_involutive in Hr.
        subst c. discriminate.
      + simpl. apply digit_not_white_space.
        rewrite forallb_forall in Hdc. apply Hdc, list_elem_of_In, elem_of_reverse.
        rewrite Hr. apply list_elem_of_here. }
  rewrite Htrim. change (js "/") with [47%N]. simpl app.
  rewrite (split_app_sep 47 a) by by apply digits_no_slash.
  rewrite (split_app_sep 47 b) by by apply digits_no_slash.
  rewrite (split_no_sep 47 c) by by apply digits_no_slash.
  cbn [fmap list_fmap]. rewrite !trim_digits by assumption.
  rewrite year_re_spec, Hc. cbn [negb].
  destruct format; rewrite !day_month_re_spec, Ha, Hb; reflexivity.
Qed.

End DateFacts.

(** X17.  Whenever [toIsoDate] returns, it returns ten code units of the form
    YYYY-MM-DD, all digits but the two dashes (the digits are not checked
    to be a date of the calendar); and under the other format the same raw
    string converts too, with day and month exchanged. *)
Theorem toIsoDate_result_shape
    (raw : list N) (format : Invoices.DateFormat) (iso : list N) :
  Invoices.toIsoDate raw format = inl iso ->
  exists yyyy mm dd,
    iso = yyyy ++ Js.js "-" ++ mm ++ Js.js "-" ++ dd
    /\ length yyyy = 4%nat /\ length mm = 2%nat /\ length dd = 2%nat
    /\ forallb Js.is_digit (yyyy ++ mm ++ dd) = true
    /\ Invoices.toIsoDate raw
         (match format with
          | Invoices.DD_MM_YYYY => Invoices.MM_DD_YYYY
          | Invoices.MM_DD_YYYY => Invoices.DD_MM_YYYY
          end)
       = inl (yyyy ++ Js.js "-" ++ dd ++ Js.js "-" ++ mm).
Proof.
  unfold Invoices.toIsoDate.
  destruct (Js.trim <$> Js.split 47 (Js.trim raw)) as [|a [|b [|c [|x ps]]]];
    try discriminate.
  rewrite year_re_spec.
  destruct ((length c =? 4)%nat && forallb Js.is_digit c) eqn:Hc; cbn [negb];
    [|destruct format; discriminate].
  assert (Hshape : forall dd mm,
    ((length dd =? 1)%nat || (length dd =? 2)%nat) && forallb Js.is_digit dd = true ->
    ((length mm =? 1)%nat || (length mm =? 2)%nat) && forallb Js.is_digit mm = true ->
    length c = 4%nat /\ length (Js.padStart 2 48 mm) = 2%nat
    /\ length (Js.padStart 2 48 dd) = 2%nat
    /\ forallb Js.is_digit (c ++ Js.padStart 2 48 mm ++ Js.padStart 2 48 dd) = true).
  { intros dd mm Hdd Hmm.
    destruct (padStart2_digits dd Hdd) as [H1 H2].
    destruct (padStart2_digits mm Hmm) as [H3 H4].
    apply andb_true_iff in Hc as [Hlc Hdc]. apply Nat.eqb_eq in Hlc.
    repeat split; auto. rewrite !forallb_app, Hdc, H2, H4. reflexivity. }
  destruct format; rewrite !day_month_re_spec;
    destruct (((length a =? 1)%nat || (length a =? 2)%nat) && forallb Js.is_digit a)
      eqn:Ha;
    destruct (((length b =? 1)%nat || (length b =? 2)%nat) && forallb Js.is_digit b)
      eqn:Hb; cbn [negb orb]; try discriminate; intros [= <-].
  - destruct (Hshape a b Ha Hb) as (H1 & H2 & H3 & H4).
    exists c, (Js.padStart 2 48 b), (Js.padStart 2 48 a). repeat split; auto.
  - destruct (Hshape b a Hb Ha) as (H1 & H2 & H3 & H4).
    exists c, (Js.padStart 2 48 a), (Js.padStart 2 48 b). repeat split; auto.
Qed.

Lemma toIsoDate_result_shape_witness :
  exists yyyy mm dd,
    Js.js "2025-01-02" = yyyy ++ Js.js "-" ++ mm ++ Js.js "-" ++ dd
    /\ length yyyy = 4%nat
    /\ Invoices.toIsoDate (Js.js " 2/1/2025 ") Invoices.MM_DD_YYYY
       = inl (yyyy ++ Js.js "-" ++ dd ++ Js.js "-" ++ mm).
Proof.
  destruct (toIsoDate_result_shape (Js.js " 2/1/2025 ") Invoices.DD_MM_YYYY
              (Js.js "2025-01-02") eq_refl)
    as (yyyy & mm & dd & H1 & H2 & _ & _ & _ & H6).
  exists yyyy, mm, dd. split; [exact H1|]. split; [exact H2|exact H6].
Defined.

(** X18.  A date written by [formatDate] is read back by [toIsoDate] under the
    same format, for every day of a month, every month and every year of
    four digits. *)
Theorem formatDate_then_toIsoDate (d : Invoices.js_date) (format : Invoices.DateFormat) :
  (Invoices.getDate d <= 31)%nat ->
  (Invoices.getMonth d <= 11)%nat ->
  1000 <= Z.of_nat (Invoices.getFullYear d) <= 9999 ->
  Invoices.toIsoDate (Invoices.formatDate d format) format
  = inl (Js.String_of_nat (Invoices.getFullYear d) ++ Js.js "-"
           ++ Js.padStart 2 48 (Js.String_of_nat (Invoices.getMonth d + 1)) ++ Js.js "-"
           ++ Js.padStart 2 48 (Js.String_of_nat (Invoices.getDate d))).
Proof.
  intros Hd Hm Hy.
  assert (Hpart : forall n, Z.of_nat n < 100 ->
            ((length (Js.padStart 2 48 (Js.String_of_nat n)) =? 1)%nat
             || (length (Js.padStart 2 48 (Js.String_of_nat n)) =? 2)%nat)
            && forallb Js.is_digit (Js.padStart 2 48 (Js.String_of_nat n)) = true
            /\ Js.padStart 2 48 (Js.padStart 2 48 (Js.String_of_nat n))
               = Js.padStart 2 48 (Js.String_of_nat n)).
  { intros n Hn. pose proof (String_of_nat_digits n) as Hdig.
    destruct (String_of_nat_length_lt_100 n Hn) as [Hl|Hl];
      destruct (Js.String_of_nat n) as [|x [|y [|z s]]]; try discriminate Hl;
      simpl in *; rewrite ?Hdig; auto. }
  destruct (Hpart (Invoices.getDate d)) as [Hdd Hdd2]; [lia|].
  destruct (Hpart (Invoices.getMonth d + 1)%nat) as [Hmm Hmm2]; [lia|].
  assert (Hyyyy : (length (Js.String_of_nat (Invoices.getFullYear d)) =? 4)%nat
                  && forallb Js.is_digit (Js.String_of_nat (Invoices.getFullYear d))
                  = true).
  { rewrite (String_of_nat_length_year _ Hy), String_of_nat_digits. reflexivity. }
  unfold Invoices.formatDate. destruct format.
  - rewrite (toIsoDate_of_parts _ _ _ Invoices.DD_MM_YYYY Hdd Hmm Hyyyy).
    by rewrite Hdd2, Hmm2.
  - rewrite (toIsoDate_of_parts _ _ _ Invoices.MM_DD_YYYY Hmm Hdd Hyyyy).
    by rewrite Hdd2, Hmm2.
Qed.

(** The first of February 2025, written day first. *)
Lemma formatDate_then_toIsoDate_witness :
  let d := {| Invoices.getDate := 1; Invoices.getMonth := 1;
              Invoices.getFullYear := 2025 |} in
  Invoices.formatDate d Invoices.DD_MM_YYYY = Js.js "01/02/2025"
  /\ Invoices.toIsoDate (Invoices.formatDate d Invoices.DD_MM_YYYY) Invoices.DD_MM_YYYY
     = inl (Js.js "2025-02-01").
Proof.
  intros d. split; [reflexivity|].
  rewrite (formatDate_then_toIsoDate d Invoices.DD_MM_YYYY);
    [reflexivity|simpl; lia|simpl; lia|simpl; lia].
Defined.

(** X19.  The [toIsoDate] of the service vehicles flow, which checks nothing but
    the number of parts, returns what the checking [toIsoDate] of the
    invoices flow returns whenever that one returns; it throws exactly when
    the parts are not three. *)
Theorem toIsoDate_unchecked_agrees (raw : list N) (format : Invoices.DateFormat) :
  (forall iso, Invoices.toIsoDate raw format = inl iso ->
               ServiceVehicles.toIsoDate raw format = inl iso)
  /\ (forall e, ServiceVehicles.toIsoDate raw format = inr e ->
                e = Invoices.InvalidDate
                /\ Invoices.toIsoDate raw format = inr Invoices.InvalidDate)
  /\ (Invoices.toIsoDate raw format = inr Invoices.InvalidDate ->
      ServiceVehicles.toIsoDate raw format = inr Invoices.InvalidDate).
Proof.
  unfold Invoices.toIsoDate, ServiceVehicles.toIsoDate.
  destruct (Js.trim <$> Js.split 47 (Js.trim raw)) as [|a [|b [|c [|x ps]]]];
    try (split; [discriminate|split; [by intros e [= <-]|reflexivity]]).
  split; [|split].
  - intros iso. destruct (negb (Js.test_whole Invoices.year_re c)); [discriminate|].
    destruct (negb _ || negb _); [discriminate|]. auto.
  - intros e. discriminate.
  - destruct (negb (Js.test_whole Invoices.year_re c)); [discriminate|].
    destruct (negb _ || negb _); discriminate.
Qed.

Lemma toIsoDate_unchecked_agrees_witness :
  ServiceVehicles.toIsoDate (Js.js "02/01/2025") Invoices.MM_DD_YYYY
  = inl (Js.js "2025-02-01").
Proof.
  by apply (proj1 (toIsoDate_unchecked_agrees (Js.js "02/01/2025") Invoices.MM_DD_YYYY)).
Defined.

(** ** The wait for the grid of the service vehicles flow *)

Section ServiceVehiclesFacts.

Import ServiceVehicles.

Variable page : nat -> poll.
Variable finalCount : nat.

Lemma sv_wait_loop_total fuel : forall i now saw,
  Invoices.timeout_ms - now <= Z.of_nat fuel ->
  is_Some (wait_loop fuel page finalCount i now saw).
Proof.
  induction fuel as [|fuel IH]; intros i now saw Hfuel; cbn [wait_loop].
  - destruct (Z.ltb_spec now Invoices.timeout_ms); [lia|].
    destruct (2 <=? finalCount)%nat; eauto.
  - destruct (Z.ltb_spec now Invoices.timeout_ms).
    + destruct (2 <=? rowCount (page i))%nat; [eauto|]. apply IH. lia.
    + destruct (2 <=? finalCount)%nat; eauto.
Qed.

Lemma sv_deadline_spec (i : nat) (now : Z) (saw : bool) (r : ready) :
  Invoices.timeout_ms <= now ->
  (if (2 <=? finalCount)%nat
   then Some {| ready_status := Data; ready_rowCount := finalCount;
                polls := i; ended_at := now |}
   else Some {| ready_status := if saw then Empty else Timeout;
                ready_rowCount := finalCount; polls := i; ended_at := now |})
  = Some r ->
  (i <= polls r)%nat /\ ended_on_deadline page finalCount i saw r.
Proof.
  intros Hnow Hr.
  destruct (Nat.leb_spec 2 finalCount) as [Hf|Hf]; injection Hr as <-;
    unfold ended_on_deadline; simpl.
  - split; [lia|]. split; [exact Hnow|]. split; [reflexivity|].
    split; [intros j Hj; lia|]. split; [by split|].
    split; [discriminate|]. intros [H _]. lia.
  - split; [lia|]. split; [exact Hnow|]. split; [reflexivity|].
    split; [intros j Hj; lia|]. split.
    + split; [by destruct saw|lia].
    + destruct saw; split; auto.
      * discriminate.
      * intros [_ [H|(j & Hj & _)]]; [discriminate|lia].
Qed.

Lemma sv_wait_loop_spec fuel : forall i now saw r,
  wait_loop fuel page finalCount i now saw = Some r ->
  (i <= polls r)%nat
  /\ (ended_on_poll page i r \/ ended_on_deadline page finalCount i saw r).
Proof.
  induction fuel as [|fuel IH]; intros i now saw r; cbn [wait_loop].
  - destruct (Z.ltb_spec now Invoices.timeout_ms); [discriminate|].
    intros Hr. destruct (sv_deadline_spec _ _ _ _ H Hr). auto.
  - destruct (Z.ltb_spec now Invoices.timeout_ms) as [Hnow|Hnow].
    2:{ intros Hr. destruct (sv_deadline_spec _ _ _ _ Hnow Hr). auto. }
    destruct (Nat.leb_spec 2 (rowCount (page i))) as [Hrows|Hrows].
    + intros [= <-]. split; [simpl; lia|left]. unfold ended_on_poll. simpl.
      rewrite Nat.sub_0_r. repeat split; auto; lia.
    + intros Hr. apply IH in Hr as (Hi & [Hp|Hd]).
      * split; [lia|left]. destruct Hp as (H1 & H2 & H3 & H4 & H5 & H6).
        unfold ended_on_poll. repeat split; auto; try lia.
        intros j Hj. destruct (decide (j = i)) as [->|Hne]; [exact Hrows|].
        apply H6. lia.
      * split; [lia|right]. destruct Hd as (H1 & H2 & H3 & H4 & H5).
        unfold ended_on_deadline. split; [lia|]. split; [exact H2|].
        split; [|split; [exact H4|]].
        -- intros j Hj. destruct (decide (j = i)) as [->|Hne]; [exact Hrows|].
           apply H3. lia.
        -- rewrite H5. apply and_iff_compat_l. split.
           ++ intros [Hsaw|(j & Hj & Hv)].
              ** destruct (emptyVisible (page i)) eqn:Hv; [|by left].
                 right. exists i. split; [lia|exact Hv].
              ** right. exists j. split; [lia|exact Hv].
           ++ intros [->|(j & Hj & Hv)].
              ** left. by destruct (emptyVisible (page i)).
              ** destruct (decide (j = i)) as [->|Hne].
                 --- left. by rewrite Hv.
                 --- right. exists j. split; [lia|exact Hv].
Qed.

End ServiceVehiclesFacts.

(** X20.  [waitForServiceVehiclesGridReady] always ends.  When the table
    does not become visible within 30 s it throws, before any poll.
    Otherwise it returns: a poll that sees two rows or more ends the wait at
    once, before the deadline, with status "data" and that count; status
    "empty" or "timeout" is returned only once the deadline has passed, no
    poll having seen two rows, with a final count below two: "empty" when
    some poll saw "No record found", "timeout" when none did. *)
Theorem service_vehicles_wait (page : nat -> ServiceVehicles.poll) (finalCount : nat) :
  ServiceVehicles.waitForServiceVehiclesGridReady false page finalCount
  = Some (inr ServiceVehicles.TableNotVisible)
  /\ exists r,
    ServiceVehicles.waitForServiceVehiclesGridReady true page finalCount = Some (inl r)
    /\ (ServiceVehicles.ready_status r = ServiceVehicles.Data ->
        (2 <= ServiceVehicles.ready_rowCount r)%nat)
    /\ (forall j, (j < ServiceVehicles.polls r)%nat ->
                  (2 <= ServiceVehicles.rowCount (page j))%nat ->
                  ServiceVehicles.ready_status r = ServiceVehicles.Data
                  /\ ServiceVehicles.ready_rowCount r = ServiceVehicles.rowCount (page j)
                  /\ S j = ServiceVehicles.polls r
                  /\ ServiceVehicles.ended_at r < Invoices.timeout_ms)
    /\ (ServiceVehicles.ready_status r <> ServiceVehicles.Data ->
        Invoices.timeout_ms <= ServiceVehicles.ended_at r
        /\ ServiceVehicles.ready_rowCount r = finalCount
        /\ (finalCount < 2)%nat
        /\ forall j, (j < ServiceVehicles.polls r)%nat ->
                     (ServiceVehicles.rowCount (page j) < 2)%nat)
    /\ (ServiceVehicles.ready_status r = ServiceVehicles.Empty <->
        ServiceVehicles.ready_status r <> ServiceVehicles.Data
        /\ exists j, (j < ServiceVehicles.polls r)%nat
                     /\ ServiceVehicles.emptyVisible (page j) = true).
Proof.
  split; [reflexivity|].
  unfold ServiceVehicles.waitForServiceVehiclesGridReady.
  destruct (sv_wait_loop_total page finalCount (Z.to_nat Invoices.timeout_ms) 0 0 false)
    as [r Hr]; [unfold Invoices.timeout_ms; lia|].
  exists r. split; [by rewrite Hr|].
  apply sv_wait_loop_spec in Hr as (_ & [Hp|Hd]).
  - destruct Hp as (H1 & H2 & H3 & H4 & H5 & H6).
    split; [auto|]. split; [|split; [congruence|]].
    + intros j Hj Hrows.
      assert (j = (ServiceVehicles.polls r - 1)%nat) as ->.
      { destruct (decide (j = (ServiceVehicles.polls r - 1)%nat)); [done|].
        specialize (H6 j). lia. }
      repeat split; auto. lia.
    + rewrite H1. split; [discriminate|]. intros [? _]. congruence.
  - destruct Hd as (H1 & H2 & H3 & H4 & H5).
    split; [intros Hs; apply H4 in Hs; lia|].
    split; [intros j Hj Hrows; specialize (H3 j); lia|].
    split.
    + intros Hs. split; [exact H1|]. split; [exact H2|].
      split; [|intros j Hj; apply H3; lia].
      destruct (Nat.lt_ge_cases finalCount 2); [done|]. by destruct Hs; apply H4.
    + rewrite H5. split.
      * intros [Hf [?|(j & Hj & Hv)]]; [discriminate|].
        split; [rewrite H4; lia|]. exists j. split; [lia|exact Hv].
      * intros [Hs (j & Hj & Hv)]. split.
        -- destruct (Nat.lt_ge_cases finalCount 2); [done|]. by destruct Hs; apply H4.
        -- right. exists j. split; [lia|exact Hv].
Qed.

(** The table is visible, "No record found" stays visible and no row ever
    shows. *)
Lemma service_vehicles_wait_witness :
  let page := fun _ : nat =>
    {| ServiceVehicles.rowCount := 0; ServiceVehicles.emptyVisible := true;
       ServiceVehicles.elapsed := 250 |} in
  exists r,
    ServiceVehicles.waitForServiceVehiclesGridReady true page 0 = Some (inl r)
    /\ ServiceVehicles.ready_status r = ServiceVehicles.Empty
    /\ Invoices.timeout_ms <= ServiceVehicles.ended_at r.
Proof.
  intros page.
  destruct (service_vehicles_wait page 0) as (_ & r & Hr & _ & _ & Hlate & _).
  exists r. split; [exact Hr|].
  assert (Hs : ServiceVehicles.ready_status r = ServiceVehicles.Empty).
  { vm_compute in Hr. by injection Hr as <-. }
  split; [exact Hs|]. apply Hlate. rewrite Hs. discriminate.
Defined.

(** ** More on the redaction of JSON bodies *)

Section RedactJsonMoreFacts.

Import Js NetLog.

Arguments is_sensitive_key : simpl never.
Arguments is_bearer : simpl never.

Lemma redactJson_string_inv value depth s :
  redactJson value depth = JString s ->
  s = truncated \/ s = redacted
  \/ (value = JString s /\ is_bearer s = false).
Proof.
  destruct (6 <? depth) eqn:Hd.
  - rewrite redactJson_truncated by exact Hd. intros [= <-]. by left.
  - destruct value as [| | b | n | s0 | items | entries];
      try (simpl; rewrite Hd; discriminate).
    simpl. rewrite Hd. destruct (is_bearer s0) eqn:Hb; intros [= <-]; auto.
Qed.

Lemma at_path_leaf (w : json) path (x : json) :
  match w with JArray _ | JObject _ => False | _ => True end ->
  at_path w path = Some x -> path = [] /\ x = w.
Proof.
  intros Hw. destruct path as [|[k|i] path]; simpl.
  - by intros [= <-].
  - destruct w; try discriminate; contradiction.
  - destruct w; try discriminate; contradiction.
Qed.

(** What a step into a redacted value finds: the marker, or the redaction
    of a value of the input, one level down. *)
Lemma redactJson_step value depth s child :
  at_path (redactJson value depth) [s] = Some child ->
  (6 <? depth) = false
  /\ ((exists k, s = Key k /\ is_sensitive_key k = true /\ child = JString redacted)
      \/ exists v, child = redactJson v (depth + 1)).
Proof.
  destruct (6 <? depth) eqn:Hd.
  { rewrite redactJson_truncated by exact Hd. destruct s; discriminate. }
  intros H. split; [reflexivity|]. destruct s as [k|i]; simpl in H.
  - destruct (redactJson value depth) as [| | | | |items'|es'] eqn:Hv; try discriminate.
    apply redactJson_object_inv in Hv as (entries & -> & ->).
    destruct (obj_get _ k) as [v'|] eqn:Hget; [|discriminate]. injection H as <-.
    apply obj_get_elem_of, redacted_entries in Hget as (v & _ & ->).
    unfold redact_entry. destruct (is_sensitive_key k) eqn:Hk; eauto 6.
  - destruct (redactJson value depth) as [| | | | |items'|es'] eqn:Hv; try discriminate.
    apply redactJson_array_inv in Hv as (items & -> & ->).
    rewrite list_lookup_fmap in H.
    destruct (take 50 items !! i) as [v|]; simpl in H; [|discriminate].
    injection H as <-. eauto.
Qed.

Lemma at_path_cons (value : json) s path :
  at_path value (s :: path)
  = match at_path value [s] with
    | Some child => at_path child path
    | None => None
    end.
Proof.
  destruct s as [k|i]; simpl.
  - destruct value; try reflexivity. by destruct (obj_get entries k).
  - destruct value; try reflexivity. by destruct (items !! i).
Qed.

Lemma no_sensitive_value_survives path : forall value depth es k x,
  at_path (redactJson value depth) path = Some (JObject es) ->
  (k, x) ∈ es -> is_sensitive_key k = true -> x = JString redacted.
Proof.
  induction path as [|s path IH]; intros value depth es k x.
  - simpl. intros [= Hv] Hin Hk. apply redactJson_object_inv in Hv as (entries & -> & ->).
    apply redacted_entries in Hin as (v & _ & ->).
    unfold redact_entry. by rewrite Hk.
  - rewrite at_path_cons.
    destruct (at_path (redactJson value depth) [s]) as [child|] eqn:Hs; [|discriminate].
    apply redactJson_step in Hs as (_ & [(k' & -> & _ & ->)|(v & ->)]).
    + intros H. by apply at_path_string in H.
    + apply IH.
Qed.

Lemma no_bearer_survives path : forall value depth s,
  at_path (redactJson value depth) path = Some (JString s) -> is_bearer s = false.
Proof.
  induction path as [|sel path IH]; intros value depth s.
  - simpl. intros [= Hv].
    apply redactJson_string_inv in Hv as [->|[->|[_ H]]]; [reflexivity..|exact H].
  - rewrite at_path_cons.
    destruct (at_path (redactJson value depth) [sel]) as [child|] eqn:Hs; [|discriminate].
    apply redactJson_step in Hs as (_ & [(k' & -> & _ & ->)|(v & ->)]).
    + intros H. apply at_path_leaf in H as [_ [= ->]]; [reflexivity|exact I].
    + apply IH.
Qed.

Lemma redacted_depth_bound path : forall value depth w,
  at_path (redactJson value depth) path = Some w ->
  path = [] \/ depth + Z.of_nat (length path) <= 7.
Proof.
  induction path as [|sel path IH]; intros value depth w; [by left|].
  rewrite at_path_cons.
  destruct (at_path (redactJson value depth) [sel]) as [child|] eqn:Hs; [|discriminate].
  apply redactJson_step in Hs as (Hd & [(k' & -> & _ & ->)|(v & ->)]).
  - intros H. apply at_path_leaf in H as [-> _]; [|exact I]. right. simpl. lia.
  - intros H. apply IH in H as [->|H]; right; simpl length; lia.
Qed.

Lemma redacted_array_bound path : forall value depth items,
  at_path (redactJson value depth) path = Some (JArray items) ->
  (length items <= 50)%nat.
Proof.
  induction path as [|sel path IH]; intros value depth items.
  - simpl. intros [= Hv]. apply redactJson_array_inv in Hv as (items0 & -> & ->).
    rewrite length_fmap, length_take. lia.
  - rewrite at_path_cons.
    destruct (at_path (redactJson value depth) [sel]) as [child|] eqn:Hs; [|discriminate].
    apply redactJson_step in Hs as (_ & [(k' & -> & _ & ->)|(v & ->)]).
    + intros H. apply at_path_leaf in H as [_ [=]]. exact I.
    + apply IH.
Qed.

(** Below kept steps, redaction acts in place. *)
Lemma redactJson_at_kept_path path : forall value depth w,
  wf_json value ->
  at_path value path = Some w ->
  Forall kept_selector path ->
  depth + Z.of_nat (length path) <= 7 ->
  at_path (redactJson value depth) path
  = Some (redactJson w (depth + Z.of_nat (length path))).
Proof.
  induction path as [|[k|i] path IH]; intros value depth w Hwf Hat Hkept Hlen;
    simpl in Hat; cbn [length] in *.
  - injection Hat as ->. simpl. by rewrite Z.add_0_r.
  - destruct value as [| | | | | |entries]; try discriminate.
    destruct (obj_get entries k) as [v|] eqn:Hget; [|discriminate].
    apply Forall_cons in Hkept as [[Hk Hproto] Hkept].
    assert (Hd : (6 <? depth) = false) by lia.
    apply wf_json_object in Hwf as [Hnd Hwf].
    rewrite Forall_forall in Hwf.
    specialize (Hwf _ (obj_get_elem_of _ _ _ Hget)). simpl in Hwf.
    rewrite redactJson_object by exact Hd.
    rewrite fill_loop_distinct by exact Hnd. simpl.
    rewrite obj_get_omap_fill by exact Hproto. rewrite Hget. simpl.
    unfold redact_entry. rewrite Hk.
    rewrite (IH v (depth + 1) w Hwf Hat Hkept) by lia. do 2 f_equal. lia.
  - destruct value as [| | | | |items|]; try discriminate.
    destruct (items !! i) as [v|] eqn:Hget; [|discriminate].
    apply Forall_cons in Hkept as [Hi Hkept]. simpl in Hi.
    assert (Hd : (6 <? depth) = false) by lia.
    apply wf_json_array in Hwf. rewrite Forall_forall in Hwf.
    specialize (Hwf _ (list_elem_of_lookup_2 _ _ _ Hget)).
    rewrite redactJson_array by exact Hd. simpl.
    rewrite list_lookup_fmap, lookup_take_lt by exact Hi. rewrite Hget. simpl.
    rewrite (IH v (depth + 1) w Hwf Hat Hkept) by lia. do 2 f_equal. lia.
Qed.

Lemma omap_fill_keys (g : jsstring -> json -> json) (entries : object json) :
  (omap (fill_entry (fun _ => false) g) entries).*1
  = List.filter (fun k => negb (bool_decide (k = proto))) (entries.*1).
Proof.
  induction entries as [|[k v] entries IH]; simpl; [reflexivity|].
  unfold fill_entry at 1. simpl.
  destruct (bool_decide (k = proto)); simpl; [exact IH|f_equal; exact IH].
Qed.

End RedactJsonMoreFacts.

(** X21.  No sensitive key keeps its value.  Whatever the input and the depth,
    every entry of every object found anywhere in the output of
    [redactJson], whose key matches
    [/(pass(word)?|token|secret|api[-_]?key|authorization|cookie)/i], has
    the value ["[redacted]"]. *)
Theorem redactJson_hides_every_sensitive_key
    (value : NetLog.json) (depth : Z) (path : list NetLog.selector)
    (es : list (list N * NetLog.json)) (k : list N) (x : NetLog.json) :
  NetLog.at_path (NetLog.redactJson value depth) path = Some (NetLog.JObject es) ->
  (k, x) ∈ es ->
  NetLog.is_sensitive_key k = true ->
  x = NetLog.JString NetLog.redacted.
Proof. apply no_sensitive_value_survives. Qed.

(** An API key next to a session token, inside an array. *)
Lemma redactJson_hides_every_sensitive_key_witness :
  let value :=
    NetLog.JArray
      [NetLog.JObject [(Js.js "X-Api_Key", NetLog.JString (Js.js "k-123"));
                       (Js.js "sessionToken", NetLog.JNumber 42)]] in
  exists es x,
    NetLog.at_path (NetLog.redactJson value 0) [NetLog.Idx 0] = Some (NetLog.JObject es)
    /\ (Js.js "sessionToken", x) ∈ es
    /\ NetLog.is_sensitive_key (Js.js "sessionToken") = true
    /\ x = NetLog.JString NetLog.redacted.
Proof.
  intros value.
  eexists _, _. split; [reflexivity|].
  split; [apply list_elem_of_further, list_elem_of_here|].
  split; [reflexivity|].
  apply (redactJson_hides_every_sensitive_key value 0 [NetLog.Idx 0] _
           (Js.js "sessionToken") _ eq_refl).
  - apply list_elem_of_further, list_elem_of_here.
  - reflexivity.
Defined.

(** X22.  No bearer token is left.  Whatever the input and the depth, no string
    found anywhere in the output of [redactJson] matches [/^bearer\s+/i]. *)
Theorem redactJson_leaves_no_bearer
    (value : NetLog.json) (depth : Z) (path : list NetLog.selector) (s : list N) :
  NetLog.at_path (NetLog.redactJson value depth) path = Some (NetLog.JString s) ->
  NetLog.is_bearer s = false.
Proof. apply no_bearer_survives. Qed.

(** A bearer token under a key that is not sensitive. *)
Lemma redactJson_leaves_no_bearer_witness :
  NetLog.at_path
    (NetLog.redactJson
       (NetLog.JObject [(Js.js "auth", NetLog.JString (Js.js "Bearer abc.def"))]) 0)
    [NetLog.Key (Js.js "auth")]
  = Some (NetLog.JString NetLog.redacted)
  /\ NetLog.is_bearer NetLog.redacted = false.
Proof.
  split; [reflexivity|].
  apply (redactJson_leaves_no_bearer
           (NetLog.JObject [(Js.js "auth", NetLog.JString (Js.js "Bearer abc.def"))]) 0
           [NetLog.Key (Js.js "auth")]).
  reflexivity.
Defined.

(** X23.  The output is bounded.  A path that leads to anything in the output of
    [redactJson(value, depth)] has at most [7 - depth] steps (none when
    [depth] is above 7), and every array of the output has at most 50
    elements. *)
Theorem redactJson_output_is_bounded
    (value : NetLog.json) (depth : Z) (path : list NetLog.selector) (w : NetLog.json) :
  NetLog.at_path (NetLog.redactJson value depth) path = Some w ->
  Z.of_nat (length path) <= Z.max 0 (7 - depth)
  /\ match w with
     | NetLog.JArray items => (length items <= 50)%nat
     | _ => True
     end.
Proof.
  intros H. split.
  - apply redacted_depth_bound in H as [->|H]; simpl; lia.
  - destruct w; try exact I. by apply redacted_array_bound in H.
Qed.

(** Sixty numbers under one key: fifty are kept. *)
Lemma redactJson_output_is_bounded_witness :
  let value := NetLog.JObject [(Js.js "rows", NetLog.JArray (replicate 60 (NetLog.JNumber 1)))] in
  Z.of_nat (length [NetLog.Key (Js.js "rows")]) <= Z.max 0 (7 - 0)
  /\ (length (replicate 50 (NetLog.JNumber 1)) <= 50)%nat.
Proof.
  intros value.
  apply (redactJson_output_is_bounded value 0 [NetLog.Key (Js.js "rows")]
           (NetLog.JArray (replicate 50 (NetLog.JNumber 1)))).
  reflexivity.
Defined.

(** X24.  Redaction acts in place.  In a well-formed value, along keys that are
    neither sensitive nor [__proto__] and indices below 50, and as long as
    the depth stays within 7, what the output holds at a path is the
    redaction, at the depth reached, of what the input holds there; within
    depth 6 a null, a boolean, a number, or a string that is no bearer
    token, is found there unchanged. *)
Theorem redactJson_acts_in_place
    (value : NetLog.json) (depth : Z) (path : list NetLog.selector) (w : NetLog.json) :
  NetLog.wf_json value ->
  NetLog.at_path value path = Some w ->
  Forall NetLog.kept_selector path ->
  depth + Z.of_nat (length path) <= 7 ->
  NetLog.at_path (NetLog.redactJson value depth) path
  = Some (NetLog.redactJson w (depth + Z.of_nat (length path)))
  /\ (depth + Z.of_nat (length path) <= 6 ->
      match w with
      | NetLog.JArray _ | NetLog.JObject _ => False
      | NetLog.JString s => NetLog.is_bearer s = false
      | _ => True
      end ->
      NetLog.at_path (NetLog.redactJson value depth) path = Some w).
Proof.
  intros Hwf Hat Hkept Hlen.
  pose proof (redactJson_at_kept_path path value depth w Hwf Hat Hkept Hlen) as H.
  split; [exact H|]. intros Hd Hw. rewrite H. f_equal.
  assert (Hd' : (6 <? depth + Z.of_nat (length path)) = false) by lia.
  destruct w; simpl; rewrite Hd'; try reflexivity; try contradiction.
  by rewrite Hw.
Qed.

(** The user name of a login body, next to its password. *)
Lemma redactJson_acts_in_place_witness :
  let inner := [(Js.js "name", NetLog.JString (Js.js "ann"));
                (Js.js "password", NetLog.JString (Js.js "hunter2"))] in
  let value := NetLog.JObject [(Js.js "user", NetLog.JObject inner)] in
  NetLog.at_path (NetLog.redactJson value 0) [NetLog.Key (Js.js "user"); NetLog.Key (Js.js "name")]
  = Some (NetLog.JString (Js.js "ann")).
Proof.
  intros inner value.
  refine (proj2 (redactJson_acts_in_place value 0
                   [NetLog.Key (Js.js "user"); NetLog.Key (Js.js "name")]
                   (NetLog.JString (Js.js "ann")) _ _ _ _) _ _).
  - simpl. repeat split; solve_NoDup_keys.
  - reflexivity.
  - repeat constructor; discriminate.
  - simpl. lia.
  - simpl. lia.
  - reflexivity.
Defined.

(** X25.  Redaction keeps the shape.  Within depth 6 the output for an object
    has the keys of the object, in the same order, the key [__proto__]
    apart; the output for an array has as many elements as the array, up to
    50. *)
Theorem redactJson_keeps_shape
    (entries : list (list N * NetLog.json)) (items : list NetLog.json) (depth : Z) :
  depth <= 6 ->
  (NetLog.wf_json (NetLog.JObject entries) ->
   exists es',
     NetLog.redactJson (NetLog.JObject entries) depth = NetLog.JObject es'
     /\ es'.*1 = List.filter (fun k => negb (bool_decide (k = Js.proto))) (entries.*1))
  /\ exists items',
       NetLog.redactJson (NetLog.JArray items) depth = NetLog.JArray items'
       /\ length items' = Nat.min 50 (length items).
Proof.
  intros Hle. assert (Hd : (6 <? depth) = false) by lia. split.
  - intros Hwf. apply wf_json_object in Hwf as [Hnd _].
    eexists. split; [by apply redactJson_object|].
    rewrite fill_loop_distinct by exact Hnd. apply omap_fill_keys.
  - eexists. split; [by apply redactJson_array|].
    by rewrite length_fmap, length_take.
Qed.

(** A login body, and an array of three. *)
Lemma redactJson_keeps_shape_witness :
  let entries := [(Js.js "name", NetLog.JString (Js.js "ann"));
                  (Js.js "password", NetLog.JString (Js.js "hunter2"))] in
  let items := [NetLog.JNull; NetLog.JBool true; NetLog.JNumber 3] in
  exists es' items',
    NetLog.redactJson (NetLog.JObject entries) 0 = NetLog.JObject es'
    /\ es'.*1 = [Js.js "name"; Js.js "password"]
    /\ NetLog.redactJson (NetLog.JArray items) 0 = NetLog.JArray items'
    /\ length items' = 3%nat.
Proof.
  intros entries items.
  destruct (redactJson_keeps_shape entries items 0 ltac:(lia)) as [Hobj Harr].
  destruct Hobj as (es' & H1 & H2); [simpl; repeat split; solve_NoDup_keys|].
  destruct Harr as (items' & H3 & H4).
  exists es', items'. repeat split; assumption.
Defined.

(** X26.  Redacting headers twice is redacting them once, whatever the case
    mapping and the headers. *)
Theorem redactHeaders_idempotent
    (toLowerCase : list N -> list N) (headers : list (list N * list N)) :
  NetLog.redactHeaders toLowerCase (NetLog.redactHeaders toLowerCase headers)
  = NetLog.redactHeaders toLowerCase headers.
Proof.
  rewrite !redactHeaders_fill_loop.
  set (skip := fun k => bool_decide (toLowerCase k ∈ NetLog.blocked)).
  set (out := Js.fill_loop skip (fun _ v => v) headers []).
  assert (Hnd : NoDup (out.*1)) by (apply fill_loop_NoDup; constructor).
  assert (Hok : Forall (fun kv => skip kv.1 = false /\ kv.1 <> Js.proto) out).
  { apply fill_loop_Forall; [constructor|].
    apply Forall_forall. intros [k v] _ Hs Hp. auto. }
  rewrite fill_loop_distinct by exact Hnd. simpl.
  clear Hnd. induction Hok as [|[k v] out' [Hs Hp] Hout IH]; [reflexivity|].
  simpl in *. unfold Js.fill_entry at 1. simpl. rewrite Hs.
  rewrite bool_decide_eq_false_2 by exact Hp. simpl. f_equal. exact IH.
Qed.

(** ** The recorder: what the log holds, whatever the traffic *)

Section RecorderFacts.

Import Js NetLog Recorder.

Variable toLowerCase : jsstring -> jsstring.
Variable parse : jsstring -> option json.
Variable round_elapsed : Q -> Q -> Z.
Variable options : option NetworkCaptureOptions.

Local Abbreviation handle := (handle toLowerCase parse round_elapsed options).
Local Abbreviation capture_run := (capture_run toLowerCase parse round_elapsed options).

Lemma redactHeaders_are_redacted headers :
  headers_are_redacted toLowerCase (redactHeaders toLowerCase headers).
Proof.
  intros k v Hin.
  assert (H : Forall (fun kv => toLowerCase kv.1 ∉ blocked)
                (redactHeaders toLowerCase headers)).
  { rewrite redactHeaders_fill_loop. apply fill_loop_Forall; [constructor|].
    apply Forall_forall. intros [k' v'] _ Hs _. simpl in *.
    by apply bool_decide_eq_false in Hs. }
  rewrite Forall_forall in H. apply (H (k, v) Hin).
Qed.

Lemma redactJson_body_is_redacted value : body_is_redacted (redactJson value 0).
Proof. intros path es k x. apply no_sensitive_value_survives. Qed.

Lemma string_body_is_redacted s : body_is_redacted (JString s).
Proof. intros path es k x H. by apply at_path_string in H. Qed.

Lemma post_data_value_redacted postData :
  body_is_redacted (post_data_value parse options postData).
Proof.
  unfold post_data_value. destruct (parse postData).
  - apply redactJson_body_is_redacted.
  - apply string_body_is_redacted.
Qed.

Lemma response_body_value_redacted bodyText :
  body_is_redacted (response_body_value parse options bodyText).
Proof.
  unfold response_body_value. destruct (parse _).
  - apply redactJson_body_is_redacted.
  - apply string_body_is_redacted.
Qed.

Lemma shouldInclude_resourceType req :
  shouldInclude options req = true ->
  req_resourceType req = js "xhr" \/ req_resourceType req = js "fetch".
Proof.
  unfold shouldInclude.
  destruct (bool_decide_reflect (req_resourceType req = js "xhr")); [auto|].
  destruct (bool_decide_reflect (req_resourceType req = js "fetch")); [auto|].
  discriminate.
Qed.

(** What every state of a capture satisfies. *)
Record capture_inv (c : capture) : Prop := {
  inv_ids : id <$> entries c = seq 1 (length (entries c));
  inv_nextId : nextId c = S (length (entries c));
  inv_redacted : Forall (entry_is_redacted toLowerCase) (entries c)
}.

Lemma capture_inv_installed : capture_inv installed.
Proof. split; [reflexivity|reflexivity|constructor]. Qed.

(** An update in place of an entry that keeps its identifier. *)
Lemma capture_inv_update c i entry entry' next map rd :
  capture_inv c ->
  entries c !! i = Some entry ->
  id entry' = id entry ->
  entry_is_redacted toLowerCase entry' ->
  next = nextId c ->
  capture_inv {| nextId := next; entries := <[i := entry']> (entries c);
                 byRequest := map; reading := rd |}.
Proof.
  intros [Hids Hnext Hred] Hi Hid Hok ->. split; simpl.
  - rewrite list_fmap_insert, length_insert, Hid.
    rewrite list_insert_id; [exact Hids|]. by rewrite list_lookup_fmap, Hi.
  - by rewrite length_insert.
  - by apply Forall_insert.
Qed.

Lemma capture_inv_handle e c c' :
  capture_inv c -> handle e c = Some c' -> capture_inv c'.
Proof.
  intros Hinv. pose proof Hinv as [Hids Hnext Hred].
  destruct e as [req epoch now|res now|n bodyText|req errorText now]; simpl.
  - intros [= <-]. unfold onRequest.
    destruct (shouldInclude options req) eqn:Hinc; simpl; [|exact Hinv].
    split; simpl.
    + rewrite fmap_app, length_app, Hids, Hnext. simpl.
      by rewrite Nat.add_1_r, seq_S.
    + rewrite length_app. simpl. lia.
    + apply Forall_app. split; [exact Hred|]. constructor; [|constructor].
      split; [by apply shouldInclude_resourceType|]. simpl.
      split; [apply redactHeaders_are_redacted|].
      split; [discriminate|]. split; [|discriminate].
      intros b. destruct (req_postData req) as [[|c0 postData]|]; try discriminate.
      intros [= <-]. apply post_data_value_redacted.
  - intros [= <-]. unfold onResponse.
    destruct (map_get _ _) as [i|]; [|exact Hinv].
    destruct (entries c !! i) as [entry|] eqn:Hi; [|exact Hinv].
    eapply capture_inv_update; eauto.
    rewrite Forall_forall in Hred.
    destruct (Hred entry (list_elem_of_lookup_2 _ _ _ Hi)) as (H1 & H2 & H3 & H4 & H5).
    repeat split; simpl; auto.
    intros h [= <-]. apply redactHeaders_are_redacted.
  - unfold onText.
    destruct (reading c !! n) as [i|]; [|discriminate].
    destruct (entries c !! i) as [entry|] eqn:Hi; [|discriminate].
    intros [= <-].
    rewrite Forall_forall in Hred.
    pose proof (Hred entry (list_elem_of_lookup_2 _ _ _ Hi)) as Hentry.
    eapply capture_inv_update; eauto.
    + by destruct bodyText.
    + destruct bodyText as [t|]; [|exact Hentry].
      destruct Hentry as (H1 & H2 & H3 & H4 & H5).
      repeat split; simpl; auto.
      intros b [= <-]. apply response_body_value_redacted.
  - intros [= <-]. unfold onRequestFailed.
    destruct (map_get _ _) as [i|]; [|exact Hinv].
    destruct (entries c !! i) as [entry|] eqn:Hi; [|exact Hinv].
    eapply capture_inv_update; eauto.
    rewrite Forall_forall in Hred.
    destruct (Hred entry (list_elem_of_lookup_2 _ _ _ Hi)) as (H1 & H2 & H3 & H4 & H5).
    repeat split; simpl; auto.
Qed.

Lemma capture_inv_run events : forall c c',
  capture_inv c -> capture_run events c = Some c' -> capture_inv c'.
Proof.
  induction events as [|e events IH]; intros c c' Hinv; simpl.
  - by intros [= <-].
  - destruct (handle e c) as [c1|] eqn:He; [|discriminate].
    apply IH. by apply (capture_inv_handle e c).
Qed.

Local Abbreviation request_of :=
  (fun e : NetworkEntry => (resourceType e, method e, url e)).

(** An update in place leaves the request of every entry as it is. *)
Lemma request_of_insert (l : list NetworkEntry) i entry entry' :
  l !! i = Some entry ->
  request_of entry' = request_of entry ->
  request_of <$> <[i := entry']> l = request_of <$> l.
Proof.
  intros Hi Heq. rewrite list_fmap_insert.
  apply list_insert_id. rewrite list_lookup_fmap, Hi. simpl. by rewrite Heq.
Qed.

Lemma handle_requests e c c' :
  handle e c = Some c' ->
  request_of <$> entries c'
  = (request_of <$> entries c) ++ option_list (logged options e).
Proof.
  destruct e as [req epoch now|res now|n bodyText|req errorText now]; simpl.
  - intros [= <-]. unfold onRequest.
    destruct (shouldInclude options req); simpl; [|by rewrite app_nil_r].
    by rewrite fmap_app.
  - intros [= <-]. unfold onResponse. rewrite app_nil_r.
    destruct (map_get _ _) as [i|]; [|reflexivity].
    destruct (entries c !! i) as [entry|] eqn:Hi; [|reflexivity].
    simpl. by apply (request_of_insert _ _ entry).
  - unfold onText. rewrite app_nil_r.
    destruct (reading c !! n) as [i|]; [|discriminate].
    destruct (entries c !! i) as [entry|] eqn:Hi; [|discriminate].
    intros [= <-]. simpl. apply (request_of_insert _ _ entry); [exact Hi|].
    by destruct bodyText.
  - intros [= <-]. unfold onRequestFailed. rewrite app_nil_r.
    destruct (map_get _ _) as [i|]; [|reflexivity].
    destruct (entries c !! i) as [entry|] eqn:Hi; [|reflexivity].
    simpl. by apply (request_of_insert _ _ entry).
Qed.

Lemma run_requests events : forall c c',
  capture_run events c = Some c' ->
  request_of <$> entries c'
  = (request_of <$> entries c) ++ omap (logged options) events.
Proof.
  induction events as [|e events IH]; intros c c'; simpl.
  - intros [= <-]. by rewrite app_nil_r.
  - destruct (handle e c) as [c1|] eqn:He; [|discriminate].
    intros Hrun. rewrite (IH _ _ Hrun), (handle_requests _ _ _ He).
    rewrite <- app_assoc. f_equal. by destruct (logged options e).
Qed.

End RecorderFacts.

(** X27.  The log follows the requests.  Whatever the traffic, the options, the
    parser and the case mapping, the log has one entry for each request of
    type xhr or fetch whose URL passes the filter, in the order of the
    requests and with their type, method and URL, numbered from 1 without a
    gap; responses, failures and bodies add, drop and reorder nothing. *)
Theorem network_log_follows_the_requests
    (toLowerCase : list N -> list N) (parse : list N -> option NetLog.json)
    (round_elapsed : Q -> Q -> Z) (options : option Recorder.NetworkCaptureOptions)
    (events : list Recorder.event) (c : Recorder.capture) :
  Recorder.capture_run toLowerCase parse round_elapsed options events Recorder.installed
  = Some c ->
  Recorder.id <$> Recorder.entries c = seq 1 (length (Recorder.entries c))
  /\ Recorder.nextId c = S (length (Recorder.entries c))
  /\ (fun e => (Recorder.resourceType e, Recorder.method e, Recorder.url e))
       <$> Recorder.entries c
     = omap (Recorder.logged options) events.
Proof.
  intros Hrun. split; [|split].
  - eapply capture_inv_run; [apply capture_inv_installed|exact Hrun].
  - eapply capture_inv_run; [apply capture_inv_installed|exact Hrun].
  - by rewrite (run_requests _ _ _ _ _ _ _ Hrun).
Qed.

(** The login is entry 1, and the image has none. *)
Lemma network_log_follows_the_requests_witness :
  exists c,
    RecorderExample.run = Some c
    /\ Recorder.id <$> Recorder.entries c = [1%nat]
    /\ Recorder.nextId c = 2%nat
    /\ (fun e => (Recorder.resourceType e, Recorder.method e, Recorder.url e))
         <$> Recorder.entries c
       = [(Js.js "fetch", Js.js "POST", Js.js "https://app.test/api/login")].
Proof.
  eexists. split; [reflexivity|].
  apply (network_log_follows_the_requests
           Js.toLowerCase_ascii RecorderExample.parse RecorderExample.round_elapsed
           RecorderExample.options RecorderExample.traffic).
  reflexivity.
Defined.

(** X28.  The log holds no secret that the redaction knows.  Whatever the
    traffic, the options, the parser and the case mapping, every entry of
    the log is of type xhr or fetch; its request headers, and its response
    headers when it has some, have no name that lower-cases to one of the
    blocked names; and in its request body and its response body, when it
    has them, every value under a sensitive key is ["[redacted]"]. *)
Theorem network_log_holds_no_secret
    (toLowerCase : list N -> list N) (parse : list N -> option NetLog.json)
    (round_elapsed : Q -> Q -> Z) (options : option Recorder.NetworkCaptureOptions)
    (events : list Recorder.event) (c : Recorder.capture) (e : Recorder.NetworkEntry) :
  Recorder.capture_run toLowerCase parse round_elapsed options events Recorder.installed
  = Some c ->
  e ∈ Recorder.entries c ->
  Recorder.entry_is_redacted toLowerCase e.
Proof.
  intros Hrun Hin.
  assert (Hinv : capture_inv toLowerCase c).
  { eapply capture_inv_run; [apply capture_inv_installed|exact Hrun]. }
  destruct Hinv as [_ _ Hred]. rewrite Forall_forall in Hred. by apply Hred.
Qed.

(** The entry of the login: no [Authorization], no [set-cookie], and both
    bodies redacted. *)
Lemma network_log_holds_no_secret_witness :
  exists c e,
    RecorderExample.run = Some c
    /\ Recorder.entries c !! 0%nat = Some e
    /\ Recorder.requestHeaders e = [(Js.js "content-type", Js.js "application/json")]
    /\ Recorder.responseHeaders e = Some [(Js.js "content-type", Js.js "application/json")]
    /\ Recorder.requestPostData e
       = Some (NetLog.JObject [(Js.js "password", NetLog.JString NetLog.redacted)])
    /\ Recorder.responseBody e
       = Some (NetLog.JObject [(Js.js "token", NetLog.JString NetLog.redacted)])
    /\ Recorder.entry_is_redacted Js.toLowerCase_ascii e.
Proof.
  eexists _, _. split; [reflexivity|]. split; [reflexivity|].
  do 4 (split; [reflexivity|]).
  apply (network_log_holds_no_secret
           Js.toLowerCase_ascii RecorderExample.parse RecorderExample.round_elapsed
           RecorderExample.options RecorderExample.traffic _ _ eq_refl).
  apply list_elem_of_here.
Defined.

(** X29.  A clipped text is bounded, and starts as the text does.  The result of
    [clipText(text, maxChars)] has at most [maxChars] code units, or 12
    when [maxChars] is below 12, and the first [maxChars - 12] code units
    of the text are its first. *)
Theorem clipText_is_bounded (text : list N) (maxChars : Z) :
  Z.of_nat (length (NetLog.clipText text maxChars)) <= Z.max maxChars 12
  /\ take (Z.to_nat (maxChars - 12)) text `prefix_of` NetLog.clipText text maxChars.
Proof.
  unfold NetLog.clipText. destruct (Z.leb_spec (Z.of_nat (length text)) maxChars) as [Hle|Hgt].
  - split; [lia|]. exists (drop (Z.to_nat (maxChars - 12)) text). by rewrite take_drop.
  - split.
    + rewrite length_app, length_take. change (length NetLog.clip_marker) with 12%nat. lia.
    + replace (Z.to_nat (Z.max 0 (maxChars - 12))) with (Z.to_nat (maxChars - 12)) by lia.
      by exists NetLog.clip_marker.
Qed.
